(** * Stock price API: statistics library, series aligner and tiered cache

    A shallow embedding of
      - [utils/mathUtils.js]        (statistics and the series aligner),
      - [services/cacheService.js]  (cache keys, tier routing, get, put and
                                     invalidation),
      - [middleware/validators.js]  (the two validators),
      - [services/stockApiService.js] (retry and the price history),
      - [controllers/stockController.js] and the opening of
        [controllers/correlationController.js],
    followed by the properties of these functions.  What the sources take
    from the JavaScript engine without defining it (the string methods
    [toUpperCase] and [trim], the number of arguments one call can pass) is
    a parameter of the model, [Js.Engine].

    Numbers are IEEE 754 binary64 values, as in JavaScript: prices and
    statistics are [float]s.  A timestamp is the integral number of
    milliseconds that [new Date(s).getTime()] yields for a well-formed date
    and is kept as a [Z]; it is turned into a [float] where the source does
    arithmetic on it.  Arrays are lists; a [Map] is an association list in
    insertion order; objects that are shared between caller and cache live
    in an explicit heap. *)

From Stdlib Require Import ZArith QArith Floats Uint63 String Ascii List Lia Permutation.
From stdpp Require Import gmap strings list sorting pretty.

Open Scope Z_scope.

(** ** JavaScript primitives used by the sources *)

Module Js.

(** [Number::toString] of an integral Number of magnitude below 1e21:
    the decimal digits, with a leading minus sign for negative values. *)
Definition number_to_string (z : Z) : string := pretty z.

(** The integral Number [z] as a binary64 value: exact for magnitudes
    below 2^53, which covers array lengths and every valid [Date] instant
    (at most 8.64e15 in magnitude). *)
Definition of_Z (z : Z) : float :=
  if z <? 0 then (- PrimFloat.of_uint63 (Uint63.of_Z (- z)))%float
  else PrimFloat.of_uint63 (Uint63.of_Z z).

(** [arr.length] as a Number. *)
Definition length_of {A} (l : list A) : float := of_Z (Z.of_nat (length l)).

(** [x === 0] on Numbers: true for [0] and [-0], false for [NaN]. *)
Definition is_zero (x : float) : bool := (x =? 0)%float.

(** Truthiness of a Number: every Number but [0], [-0] and [NaN]. *)
Definition truthy_number (x : float) : bool :=
  negb (is_zero x) && negb (PrimFloat.is_nan x).

(** Comparison of strings by code units, as [<] on strings does. *)
Definition string_le (s1 s2 : string) : bool := String.leb s1 s2.

(** Insertion into a sorted list, before the first element that is not
    smaller: elements that compare equal keep their order. *)
Fixpoint sort_insert {A} (le : A -> A -> bool) (x : A) (l : list A) : list A :=
  match l with
  | [] => [x]
  | y :: l' => if le x y then x :: y :: l' else y :: sort_insert le x l'
  end.

(** [Array.prototype.sort] with the order [le]; the sort is stable. *)
Definition sort_by {A} (le : A -> A -> bool) (l : list A) : list A :=
  foldr (sort_insert le) [] l.

(** [arr.sort()] without a comparator: the elements are compared by
    their string conversions. *)
Definition default_sort {A} (to_string : A -> string) (l : list A) : list A :=
  sort_by (fun x y => string_le (to_string x) (to_string y)) l.

(** [arr.sort((a, b) => a - b)] on Numbers: [a] stays before [b] unless
    [a - b > 0].  On an array without [NaN] this comparator is consistent
    and every stable sort gives this result.  With a [NaN] in the array it
    is not ([NaN] compares equal to every number), the order is then up to
    the engine, and only that the result is a rearrangement of the array is
    taken from this definition. *)
Definition numeric_sort (l : list float) : list float :=
  sort_by (fun a b => negb (0 <? a - b)%float) l.

(** [arr.join(sep)] on an array of strings. *)
Definition join (sep : string) (l : list string) : string := String.concat sep l.

(** [s.toLowerCase()] on ASCII letters. *)
Definition lower_ascii (c : ascii) : ascii :=
  let n := nat_of_ascii c in
  if ((65 <=? n) && (n <=? 90))%nat then ascii_of_nat (n + 32) else c.

Fixpoint toLowerCase (s : string) : string :=
  match s with
  | EmptyString => EmptyString
  | String c s' => String (lower_ascii c) (toLowerCase s')
  end.

(** A template-literal hole [${v}] where [v] may be [undefined]. *)
Definition template (v : option string) : string := default "undefined"%string v.

(** [Math.min(a, b)] and [Math.max(a, b)]: [NaN] is contagious and [-0]
    is below [+0]. *)
Definition is_neg_zero (x : float) : bool :=
  is_zero x && (1 / x <? 0)%float.

Definition min2 (a b : float) : float :=
  if PrimFloat.is_nan a || PrimFloat.is_nan b then PrimFloat.nan
  else if (a <? b)%float then a
  else if (b <? a)%float then b
  else if is_neg_zero a then a else b.

Definition max2 (a b : float) : float :=
  if PrimFloat.is_nan a || PrimFloat.is_nan b then PrimFloat.nan
  else if (a <? b)%float then b
  else if (b <? a)%float then a
  else if is_neg_zero a then b else a.

(** [Math.min(...xs)] and [Math.max(...xs)]. *)
Definition math_min (xs : list float) : float := fold_left min2 xs PrimFloat.infinity.
Definition math_max (xs : list float) : float := fold_left max2 xs PrimFloat.neg_infinity.

(** How a call ends: normally, with a value, or abruptly.  The one
    exception that the arithmetic of the modelled sources can raise is the
    RangeError of a call that passes too many arguments. *)
Inductive completion (A : Type) :=
| Normal (value : A)
| ThrowRangeError.
Arguments Normal {A}.
Arguments ThrowRangeError {A}.

Definition map_completion {A B} (f : A -> B) (c : completion A) : completion B :=
  match c with
  | Normal a => Normal (f a)
  | ThrowRangeError => ThrowRangeError
  end.

(** What the sources take from the engine and do not define themselves:
    the string methods [toUpperCase] and [trim], whose results depend on
    the Unicode tables of the engine; the number of arguments that one call
    can pass ([max_arguments], which depends on the engine and on its
    stack: beyond it a call [f(...xs)] throws a RangeError); and the
    [message] of that RangeError.  The sources are modelled over an
    arbitrary engine. *)
Class Engine := {
  toUpperCase : string -> string;
  trim : string -> string;
  max_arguments : N;
  range_error_message : string
}.

(** [f(...xs)]: the elements of the array are the arguments of the
    call. *)
Definition spread `{Engine} {A B} (f : list A -> B) (xs : list A) : completion B :=
  if (max_arguments <? N.of_nat (length xs))%N then ThrowRangeError else Normal (f xs).

End Js.

(** ** An engine for the examples *)

(** The string methods on strings of ASCII characters, where they do
    not depend on Unicode tables; the examples use no other strings. *)
Module AsciiEngine.

(** [toUpperCase] maps the letters [a] to [z] and no other ASCII
    character. *)
Definition upper_ascii (c : ascii) : ascii :=
  let n := nat_of_ascii c in
  if ((97 <=? n) && (n <=? 122))%nat then ascii_of_nat (n - 32) else c.

Fixpoint toUpperCase (s : string) : string :=
  match s with
  | EmptyString => EmptyString
  | String c s' => String (upper_ascii c) (toUpperCase s')
  end.

(** The white space and line terminators of ASCII: tab, line feed,
    vertical tab, form feed, carriage return and space. *)
Definition is_space (c : ascii) : bool :=
  let n := nat_of_ascii c in
  ((9 <=? n) && (n <=? 13) || (n =? 32))%nat.

Fixpoint trim_start (s : string) : string :=
  match s with
  | EmptyString => EmptyString
  | String c s' => if is_space c then trim_start s' else s
  end.

Definition trim (s : string) : string :=
  String.rev (trim_start (String.rev (trim_start s))).

(** An engine that passes up to [limit] arguments, with the message of
    V8 for the RangeError. *)
Definition engine_with (limit : N) : Js.Engine := {|
  Js.toUpperCase := toUpperCase;
  Js.trim := trim;
  Js.max_arguments := limit;
  Js.range_error_message := "Maximum call stack size exceeded"
|}.

Definition engine : Js.Engine := engine_with 100000.

End AsciiEngine.

(** ** utils/mathUtils.js *)

Module MathUtils.

(** *** Statistics *)

(** [calculateMean]: 0 for the empty array, else sum over length. *)
Definition calculateMean (numbers : list float) : float :=
  match numbers with
  | [] => 0%float
  | _ => (fold_left (fun sum val => sum + val) numbers 0 / Js.length_of numbers)%float
  end.

(** [calculateMedian]: sorts a copy numerically. *)
Definition calculateMedian (numbers : list float) : float :=
  match numbers with
  | [] => 0%float
  | _ =>
    let sorted := Js.numeric_sort numbers in
    let middleIndex := (length sorted / 2)%nat in
    if (length sorted mod 2 =? 0)%nat
    then ((nth (middleIndex - 1) sorted PrimFloat.nan
           + nth middleIndex sorted PrimFloat.nan) / 2)%float
    else nth middleIndex sorted PrimFloat.nan
  end.

(** [calculateStandardDeviation]: 0 below two points, else the square
    root of the sum of squared deviations over [length - 1].
    [Math.pow(d, 2)] is the product [d * d]. *)
Definition calculateStandardDeviation (numbers : list float) : float :=
  if (length numbers <=? 1)%nat then 0%float
  else
    let mean := calculateMean numbers in
    let squaredDifferences := map (fun num => ((num - mean) * (num - mean))%float) numbers in
    let variance :=
      (fold_left (fun sum val => sum + val) squaredDifferences 0
       / (Js.length_of numbers - 1))%float in
    PrimFloat.sqrt variance.

(** [calculateCovariance]: the loop over [i] walks both arrays in step;
    they have the same length when the loop is reached. *)
Definition calculateCovariance (xValues yValues : list float) : float :=
  if negb (length xValues =? length yValues)%nat || (length xValues <=? 1)%nat
  then 0%float
  else
    let xMean := calculateMean xValues in
    let yMean := calculateMean yValues in
    let sum :=
      fold_left (fun sum '(x, y) => (sum + (x - xMean) * (y - yMean))%float)
                (combine xValues yValues) 0%float in
    (sum / (Js.length_of xValues - 1))%float.

(** [calculateCorrelation]: Pearson's r = cov(X,Y) / (sigmaX * sigmaY). *)
Definition calculateCorrelation (xValues yValues : list float) : float :=
  if negb (length xValues =? length yValues)%nat || (length xValues <=? 1)%nat
  then 0%float
  else
    let xStdDev := calculateStandardDeviation xValues in
    let yStdDev := calculateStandardDeviation yValues in
    if Js.is_zero xStdDev || Js.is_zero yStdDev then 0%float
    else
      let covariance := calculateCovariance xValues yValues in
      (covariance / (xStdDev * yStdDev))%float.

(** [calculateAggregation]: [None] is JavaScript's [null]; a missing
    [type] argument takes the default ['average'].  The calls
    [Math.min(...numbers)] and [Math.max(...numbers)] pass the whole array
    as arguments and throw when the engine cannot take that many. *)
Definition calculateAggregation `{E : Js.Engine} (numbers : list float) (type : option string)
  : Js.completion (option float) :=
  match numbers with
  | [] => Js.Normal None
  | _ =>
    let type := default "average"%string type in
    let t := Js.toLowerCase type in
    if String.eqb t "average" then Js.Normal (Some (calculateMean numbers))
    else if String.eqb t "median" then Js.Normal (Some (calculateMedian numbers))
    else if String.eqb t "min" then Js.map_completion Some (Js.spread Js.math_min numbers)
    else if String.eqb t "max" then Js.map_completion Some (Js.spread Js.math_max numbers)
    else Js.Normal (Some (calculateMean numbers))
  end.

(** *** Series aligner *)

(** A price point.  [lastUpdatedAt] holds the instant that
    [new Date(entry.lastUpdatedAt).getTime()] yields; [interpolated] is
    absent (false) on points that come from upstream. *)
Record entry := Entry {
  price : float;
  lastUpdatedAt : Z;
  interpolated : bool
}.

(** The result object [{ stock1, stock2 }]. *)
Record aligned := Aligned {
  stock1 : list entry;
  stock2 : list entry
}.

(** A [Map] from timestamps to entries, in insertion order. *)
Definition JsMap := list (Z * entry).

(** [map.set(k, v)]: an existing key keeps its place and takes the new
    value, a new key goes to the end. *)
Fixpoint map_set (m : JsMap) (k : Z) (v : entry) : JsMap :=
  match m with
  | [] => [(k, v)]
  | (k', v') :: m' => if k' =? k then (k, v) :: m' else (k', v') :: map_set m' k v
  end.

(** [map.get(k)]; [None] is [undefined]. *)
Fixpoint map_get (m : JsMap) (k : Z) : option entry :=
  match m with
  | [] => None
  | (k', v') :: m' => if k' =? k then Some v' else map_get m' k
  end.

(** [map.has(k)]. *)
Fixpoint map_has (m : JsMap) (k : Z) : bool :=
  match m with
  | [] => false
  | (k', _) :: m' => if k' =? k then true else map_has m' k
  end.

(** [Array.from(map.keys())]. *)
Definition map_keys (m : JsMap) : list Z := map fst m.

(** The [forEach] that fills a lookup map from a series. *)
Definition fill_map (stockData : list entry) : JsMap :=
  fold_left (fun m e => map_set m (lastUpdatedAt e) e) stockData [].

(** [[...new Set(xs)]]: the first occurrence of every value, in order. *)
Definition new_Set (xs : list Z) : list Z :=
  fold_left (fun s x => if bool_decide (x ∈ s) then s else s ++ [x]) xs [].

(** The sorted array of all timestamps of both maps; [sort()] has no
    comparator. *)
Definition all_timestamps (stock1Map stock2Map : JsMap) : list Z :=
  Js.default_sort Js.number_to_string
    (new_Set (map_keys stock1Map ++ map_keys stock2Map)).

(** [timestamps.indexOf(target)], [-1] when absent. *)
Fixpoint indexOf (timestamps : list Z) (target : Z) : Z :=
  match timestamps with
  | [] => -1
  | t :: ts =>
    if t =? target then 0
    else let i := indexOf ts target in if i <? 0 then -1 else i + 1
  end.

(** The downward loop of [findNearest]: indices [n - 1], ..., [0]. *)
Fixpoint scan_down (timestamps : list Z) (dataMap : JsMap) (n : nat) : option Z :=
  match n with
  | O => None
  | S i =>
    match timestamps !! i with
    | Some t => if map_has dataMap t then Some t else scan_down timestamps dataMap i
    | None => scan_down timestamps dataMap i
    end
  end.

(** The upward loop of [findNearest]: indices [i], [i + 1], ... while
    [i < timestamps.length]; [fuel] bounds the number of rounds. *)
Fixpoint scan_up (timestamps : list Z) (dataMap : JsMap) (i fuel : nat) : option Z :=
  match fuel with
  | O => None
  | S fuel' =>
    match timestamps !! i with
    | Some t => if map_has dataMap t then Some t else scan_up timestamps dataMap (S i) fuel'
    | None => None
    end
  end.

(** [findNearest]; [None] is [null]. *)
Definition findNearest (timestamps : list Z) (target : Z) (dataMap : JsMap)
    (direction : string) : option Z :=
  if String.eqb direction "before"
  then scan_down timestamps dataMap (Z.to_nat (indexOf timestamps target - 1 + 1))
  else scan_up timestamps dataMap (Z.to_nat (indexOf timestamps target + 1))
               (length timestamps).

(** Truthiness of what [findNearest] returns: [null] and the timestamp
    [0] are falsy. *)
Definition truthy (t : option Z) : bool :=
  match t with
  | Some z => negb (z =? 0)
  | None => false
  end.

(** One block of the loop body of [interpolateMissingData]; the source
    has it twice, once for [stock1Map] and [result1] and once for
    [stock2Map] and [result2].  The outcome [None] stands for a lookup
    that yields [undefined] where the source goes on to read [.price]
    (a [TypeError]) or to push the value; [findNearest] returns keys of
    the map only, so this never happens ([interpolate_step_output]). *)
Definition interpolate_step (allTimestamps : list Z) (stockMap : JsMap)
    (currentTime : Z) (result : list entry) : option (list entry) :=
  if map_has stockMap currentTime then
    e ← map_get stockMap currentTime; Some (result ++ [e])
  else
    let before := findNearest allTimestamps currentTime stockMap "before" in
    let after := findNearest allTimestamps currentTime stockMap "after" in
    if truthy before && truthy after then
      b ← before; a ← after;
      eb ← map_get stockMap b; ea ← map_get stockMap a;
      let beforePrice := price eb in
      let afterPrice := price ea in
      let ratio := ((Js.of_Z currentTime - Js.of_Z b) / (Js.of_Z a - Js.of_Z b))%float in
      let interpolatedPrice := (beforePrice + (afterPrice - beforePrice) * ratio)%float in
      Some (result ++ [Entry interpolatedPrice currentTime true])
    else if truthy before then
      b ← before; e ← map_get stockMap b; Some (result ++ [e])
    else if truthy after then
      a ← after; e ← map_get stockMap a; Some (result ++ [e])
    else Some result.

(** [interpolateMissingData]: one round per timestamp of
    [allTimestamps], in array order. *)
Definition interpolateMissingData (stockData1 stockData2 : list entry)
    (allTimestamps : list Z) (stock1Map stock2Map : JsMap) : option aligned :=
  r ← foldl (fun acc currentTime =>
               '(result1, result2) ← acc;
               result1' ← interpolate_step allTimestamps stock1Map currentTime result1;
               result2' ← interpolate_step allTimestamps stock2Map currentTime result2;
               Some (result1', result2'))
            (Some ([], [])) allTimestamps;
  Some (Aligned r.1 r.2).

(** The [forEach] of the intersection pass; [None] as in
    [interpolate_step], and as little reachable ([intersection_pass_spec]). *)
Definition intersection_pass (allTimestamps : list Z) (stock1Map stock2Map : JsMap)
  : option (list entry * list entry) :=
  foldl (fun acc timestamp =>
           '(aligned1, aligned2) ← acc;
           if map_has stock1Map timestamp && map_has stock2Map timestamp then
             e1 ← map_get stock1Map timestamp;
             e2 ← map_get stock2Map timestamp;
             Some (aligned1 ++ [e1], aligned2 ++ [e2])
           else Some (aligned1, aligned2))
        (Some ([], [])) allTimestamps.

(** [timeAlignPriceData]. *)
Definition timeAlignPriceData (stockData1 stockData2 : list entry) : option aligned :=
  let stock1Map := fill_map stockData1 in
  let stock2Map := fill_map stockData2 in
  let allTimestamps := all_timestamps stock1Map stock2Map in
  if (length allTimestamps <=? 1)%nat then Some (Aligned stockData1 stockData2)
  else
    '(aligned1, aligned2) ← intersection_pass allTimestamps stock1Map stock2Map;
    if (length aligned1 <? 2)%nat
    then interpolateMissingData stockData1 stockData2 allTimestamps stock1Map stock2Map
    else Some (Aligned aligned1 aligned2).

End MathUtils.

(** ** Vocabulary for the statements about the aligner *)

Module Aligner.
Import MathUtils.

(** A point that comes from upstream, at instant [t] with price [p]. *)
Definition pt (t : Z) (p : float) : entry := Entry p t false.

(** The timestamps of a series, in order. *)
Definition timestamps_of (series : list entry) : list Z := map lastUpdatedAt series.

(** The timestamps of the sorted union that both maps have. *)
Definition common (allTimestamps : list Z) (stock1Map stock2Map : JsMap) : list Z :=
  filter (fun t => map_has stock1Map t && map_has stock2Map t) allTimestamps.

(** [b] is the latest instant before [t] at which [m] has a point. *)
Definition nearest_before (m : JsMap) (t b : Z) : Prop :=
  map_has m b = true /\ b < t
  /\ forall k, map_has m k = true -> k < t -> k <= b.

(** [a] is the earliest instant after [t] at which [m] has a point. *)
Definition nearest_after (m : JsMap) (t a : Z) : Prop :=
  map_has m a = true /\ t < a
  /\ forall k, map_has m k = true -> t < k -> a <= k.

(** [m] has no point before, respectively after, [t]. *)
Definition no_before (m : JsMap) (t : Z) : Prop :=
  forall k, map_has m k = true -> ~ k < t.

Definition no_after (m : JsMap) (t : Z) : Prop :=
  forall k, map_has m k = true -> ~ t < k.

(** The linear interpolation at [t] between the price [pb] at [b] and
    the price [pa] at [a]; the time ratio is formed first. *)
Definition interpolated_point (t b a : Z) (pb pa : float) : entry :=
  let ratio := ((Js.of_Z t - Js.of_Z b) / (Js.of_Z a - Js.of_Z b))%float in
  Entry (pb + (pa - pb) * ratio)%float t true.

(** What the interpolation pass is to emit for one series at the union
    timestamp [t]: the exact point if there is one; else the
    interpolation between the two nearest points, or the one nearest
    point as it is, or nothing when the series has no point at all. *)
Definition interpolation_rule (m : JsMap) (t : Z) (out : list entry) : Prop :=
  match map_get m t with
  | Some e => out = [e]
  | None =>
    (forall b a eb ea,
       nearest_before m t b -> nearest_after m t a ->
       map_get m b = Some eb -> map_get m a = Some ea ->
       out = [interpolated_point t b a (price eb) (price ea)])
    /\ (forall b eb,
          nearest_before m t b -> no_after m t ->
          map_get m b = Some eb -> out = [eb])
    /\ (forall a ea,
          no_before m t -> nearest_after m t a ->
          map_get m a = Some ea -> out = [ea])
    /\ (no_before m t -> no_after m t -> out = [])
  end.

(** What one round of the interpolation pass appends for one series. *)
Definition step_output (allTimestamps : list Z) (m : JsMap) (t : Z) : list entry :=
  default [] (interpolate_step allTimestamps m t []).

(** Where the point that a round emits at [t] stands in time: at [t]
    itself (an exact or an interpolated point), or at the one bound. *)
Definition emitted_at (m : JsMap) (t u : Z) : Prop :=
  (u = t /\ (map_has m t = true
             \/ exists b a, nearest_before m t b /\ nearest_after m t a))
  \/ (map_has m t = false /\ nearest_before m t u /\ no_after m t)
  \/ (map_has m t = false /\ no_before m t /\ nearest_after m t u).

(** The result object with its two series exchanged. *)
Definition swap_aligned (r : aligned) : aligned := Aligned (stock2 r) (stock1 r).

End Aligner.

(** ** Sample statistics, as the specification words them *)

(** The statistics of the specification are those of the numbers
    themselves, not of their rounded sums: they are worded here over the
    rationals.  The sample standard deviation is the square root of the
    sample variance, so it is zero exactly when the sample variance is. *)
Module SampleStatistics.

(** The rational that a finite Number stands for. *)
Definition exact (x : float) : option Q :=
  match Prim2SF x with
  | S754_zero _ => Some 0%Q
  | S754_finite s m e =>
    let a := (inject_Z (Z.pos m) * Qpower 2 e)%Q in
    Some (if s then (- a)%Q else a)
  | S754_infinity _ | S754_nan => None
  end.

Definition sum (qs : list Q) : Q := foldr Qplus 0%Q qs.

Definition count (qs : list Q) : Q := inject_Z (Z.of_nat (length qs)).

(** The mean: the sum over the number of points. *)
Definition mean (qs : list Q) : Q := (sum qs / count qs)%Q.

(** The sample variance: the squared deviations from the mean, summed
    and divided by N - 1. *)
Definition sample_variance (qs : list Q) : Q :=
  (sum (map (fun q => (q - mean qs) * (q - mean qs)) qs) / (count qs - 1))%Q.

(** A sequence of Numbers has zero sample standard deviation. *)
Definition zero_sample_stddev (xs : list float) : Prop :=
  exists qs, mapM exact xs = Some qs /\ (sample_variance qs == 0)%Q.

End SampleStatistics.

(** ** services/cacheService.js *)

Module CacheService.

(** References to heap objects. *)
Definition loc := nat.

(** An entry of node-cache's [data] table: [{ t: expiry, v: value }].
    The expiry [t] is in milliseconds, [0] for an entry that never
    expires; [v] is a reference to the stored object. *)
Record wrapped := Wrapped { t : float; v : loc }.

(** A [NodeCache] instance: the options the source sets and the table. *)
Record NodeCache := MkNodeCache {
  stdTTL : float;
  checkperiod : float;
  useClones : bool;
  data : gmap string wrapped
}.

(** The three tiers. *)
Inductive tier := ShortTerm | MediumTerm | LongTerm.

(** The state the module and its callers share: arrays of strings (the
    [tickers] arrays of requests), the objects handed to and out of the
    cache, of some type [V], and the three cache instances. *)
Record state (V : Type) := State {
  arrays : gmap loc (list string);
  objects : gmap loc V;
  shortTermCache : NodeCache;
  mediumTermCache : NodeCache;
  longTermCache : NodeCache
}.
Arguments State {V}.
Arguments arrays {V}.
Arguments objects {V}.
Arguments shortTermCache {V}.
Arguments mediumTermCache {V}.
Arguments longTermCache {V}.

(** The instances as the module creates them. *)
Definition new_shortTermCache : NodeCache := MkNodeCache 10 5 false ∅.
Definition new_mediumTermCache : NodeCache := MkNodeCache 60 30 false ∅.
Definition new_longTermCache : NodeCache := MkNodeCache 300 150 false ∅.

Definition initial_state {V} (arrs : gmap loc (list string)) (objs : gmap loc V)
  : state V :=
  State arrs objs new_shortTermCache new_mediumTermCache new_longTermCache.

(** Computations that read and write the state and may throw: [None]
    is a thrown [TypeError]. *)
Definition M (V A : Type) : Type := state V -> option (A * state V).

Definition ret {V A} (a : A) : M V A := fun s => Some (a, s).
Definition bind {V A B} (m : M V A) (f : A -> M V B) : M V B :=
  fun s => match m s with Some (a, s') => f a s' | None => None end.
Definition throw {V A} : M V A := fun _ => None.

Notation "x <- m ;; k" := (bind m (fun x => k))
  (at level 100, m at next level, right associativity).

Definition cache_of {V} (c : tier) (s : state V) : NodeCache :=
  match c with
  | ShortTerm => shortTermCache s
  | MediumTerm => mediumTermCache s
  | LongTerm => longTermCache s
  end.

Definition with_cache {V} (c : tier) (n : NodeCache) (s : state V) : state V :=
  match c with
  | ShortTerm => State (arrays s) (objects s) n (mediumTermCache s) (longTermCache s)
  | MediumTerm => State (arrays s) (objects s) (shortTermCache s) n (longTermCache s)
  | LongTerm => State (arrays s) (objects s) (shortTermCache s) (mediumTermCache s) n
  end.

Definition with_data (n : NodeCache) (d : gmap string wrapped) : NodeCache :=
  MkNodeCache (stdTTL n) (checkperiod n) (useClones n) d.

(** node-cache's [clone]: a copy of the object in a fresh cell. *)
Definition clone {V} (l : loc) : M V loc := fun s =>
  match objects s !! l with
  | Some x =>
    let l' := fresh (dom (objects s)) in
    Some (l', State (arrays s) (<[l' := x]> (objects s))
                    (shortTermCache s) (mediumTermCache s) (longTermCache s))
  | None => None
  end.

(** node-cache's [_unwrap] and the value part of [_wrap]: the object
    itself unless [useClones] is set. *)
Definition pass_value {V} (n : NodeCache) (l : loc) : M V loc :=
  if useClones n then clone l else ret l.

(** node-cache's [_check]: an entry is dead when [t !== 0 && t < now]. *)
Definition expired (w : wrapped) (now : float) : bool :=
  negb (Js.is_zero (t w)) && (t w <? now)%float.

(** [cache.get(key)] at time [now]: the value of a live entry; a dead
    entry is deleted and [undefined] ([None]) is returned. *)
Definition cache_get {V} (now : float) (c : tier) (key : string) : M V (option loc) :=
  fun s =>
    let n := cache_of c s in
    match data n !! key with
    | Some w =>
      if expired w now
      then Some (None, with_cache c (with_data n (delete key (data n))) s)
      else (l <- pass_value n (v w) ;; ret (Some l)) s
    | None => Some (None, s)
    end.

(** node-cache's expiry of a new entry: a [ttl] of [null] is replaced
    by [stdTTL]; then [ttl === 0] never expires, a truthy [ttl] counts in
    seconds from [now], anything else falls back to [stdTTL]. *)
Definition livetime (n : NodeCache) (now : float) (ttl : option float) : float :=
  let x := default (stdTTL n) ttl in
  if Js.is_zero x then 0%float
  else if Js.truthy_number x then (now + x * 1000)%float
  else if Js.is_zero (stdTTL n) then stdTTL n
  else (now + stdTTL n * 1000)%float.

(** [cache.set(key, value, ttl)] at time [now]; returns [true]. *)
Definition cache_set {V} (now : float) (c : tier) (key : string) (value : loc)
    (ttl : option float) : M V bool :=
  fun s =>
    let n := cache_of c s in
    (l <- pass_value n value ;;
     fun s' =>
       let n' := cache_of c s' in
       Some (true, with_cache c
               (with_data n' (<[key := Wrapped (livetime n' now ttl) l]> (data n'))) s')) s.

(** What callers do to the heap: create or overwrite an array, mutate
    an object, read an object. *)
Definition write_array {V} (l : loc) (ts : list string) (s : state V) : state V :=
  State (<[l := ts]> (arrays s)) (objects s)
        (shortTermCache s) (mediumTermCache s) (longTermCache s).

Definition write_object {V} (l : loc) (x : V) (s : state V) : state V :=
  State (arrays s) (<[l := x]> (objects s))
        (shortTermCache s) (mediumTermCache s) (longTermCache s).

Definition read_object {V} (l : loc) (s : state V) : option V := objects s !! l.

(** The content of the object a cache read returned, in the state the
    read left. *)
Definition cached_value {V} (r : option (option loc * state V)) : option V :=
  '(o, s) ← r; l ← o; read_object l s.

(** All tiers store references, as the module configures them. *)
Definition as_configured {V} (s : state V) : Prop :=
  forall c, useClones (cache_of c s) = false.

(** The [params] object of a request; a field that is [None] is absent
    ([undefined]).  [tickers] is a reference to the caller's array. *)
Record params := Params {
  ticker : option string;
  tickers : option loc;
  minutes : option Z;
  aggregation : option string
}.

Definition quote : string := String (ascii_of_nat 34) EmptyString.
Definition backslash : string := String (ascii_of_nat 92) EmptyString.

(** A hexadecimal digit, in lower case. *)
Definition hex_digit (n : nat) : ascii :=
  if (n <? 10)%nat then ascii_of_nat (48 + n) else ascii_of_nat (87 + n).

(** [JSON.stringify] of one character: the quote and the backslash get
    a backslash; backspace, tab, line feed, form feed and carriage return
    have their short forms; the other control characters are written as
    [\u00xx]. *)
Definition json_escape_char (c : ascii) : string :=
  let n := nat_of_ascii c in
  (if ((n =? 34) || (n =? 92))%nat then backslash +:+ String c ""
   else if (n =? 8)%nat then backslash +:+ "b"
   else if (n =? 9)%nat then backslash +:+ "t"
   else if (n =? 10)%nat then backslash +:+ "n"
   else if (n =? 12)%nat then backslash +:+ "f"
   else if (n =? 13)%nat then backslash +:+ "r"
   else if (n <? 32)%nat
        then backslash +:+ "u00"
             +:+ String (hex_digit (n / 16)) (String (hex_digit (n mod 16)) "")
   else String c "")%string.

(** [JSON.stringify] of the characters of a string. *)
Fixpoint json_escape (s : string) : string :=
  match s with
  | EmptyString => EmptyString
  | String c s' => (json_escape_char c +:+ json_escape s')%string
  end.

Definition json_string (s : string) : string := (quote +:+ json_escape s +:+ quote)%string.

Definition json_field (name : string) (value : option string) : list string :=
  match value with
  | Some x => [(quote +:+ name +:+ quote +:+ ":" +:+ x)%string]
  | None => []
  end.

(** [JSON.stringify(params)]: the fields that are present, in the order
    in which the callers' object literals list them. *)
Definition json_stringify {V} (p : params) (s : state V) : string :=
  let arr := l ← tickers p; ts ← arrays s !! l;
             Some ("[" +:+ Js.join "," (map json_string ts) +:+ "]")%string in
  ("{" +:+ Js.join ","
     (json_field "ticker" (json_string <$> ticker p)
      ++ json_field "tickers" arr
      ++ json_field "minutes" (Js.number_to_string <$> minutes p)
      ++ json_field "aggregation" (json_string <$> aggregation p))
   +:+ "}")%string.

(** [arr.sort()] on the array at [l]: sorts in place, the array itself
    is the result. *)
Definition sort_in_place {V} (l : loc) : M V (list string) := fun s =>
  match arrays s !! l with
  | Some ts =>
    let sorted := Js.default_sort id ts in
    Some (sorted, State (<[l := sorted]> (arrays s)) (objects s)
                        (shortTermCache s) (mediumTermCache s) (longTermCache s))
  | None => None
  end.

(** [createCacheKey]. *)
Definition createCacheKey {V} (type : string) (p : params) : M V string :=
  let minutes_str := Js.template (Js.number_to_string <$> minutes p) in
  if String.eqb type "stockPrice" then
    ret ("stock:" +:+ Js.template (ticker p) +:+ ":" +:+ minutes_str
         +:+ ":" +:+ Js.template (aggregation p))%string
  else if String.eqb type "stockHistory" then
    ret ("history:" +:+ Js.template (ticker p) +:+ ":" +:+ minutes_str)%string
  else if String.eqb type "correlation" then
    match tickers p with
    | Some l =>
      sorted <- sort_in_place l ;;
      ret ("corr:" +:+ Js.join "_" sorted +:+ ":" +:+ minutes_str)%string
    | None => throw
    end
  else
    fun s => ret (type +:+ ":" +:+ json_stringify p s)%string s.

(** [getCacheForType]: a comparison with [undefined] is false. *)
Definition getCacheForType (type : string) (minutes : option Z) : tier :=
  match minutes with
  | Some m =>
    if m <=? 5 then ShortTerm
    else if m <=? 30 then MediumTerm
    else LongTerm
  | None => LongTerm
  end.

(** [getCachedData]. *)
Definition getCachedData {V} (now : float) (type : string) (p : params)
  : M V (option loc) :=
  key <- createCacheKey type p ;;
  let cache := getCacheForType type (minutes p) in
  cache_get now cache key.

(** [setCachedData]; [ttl] is [None] for the default [null]. *)
Definition setCachedData {V} (now : float) (type : string) (p : params)
    (data : loc) (ttl : option float) : M V bool :=
  key <- createCacheKey type p ;;
  let cache := getCacheForType type (minutes p) in
  cache_set now cache key data ttl.

(** [s.startsWith(p)] and [s.includes(p)]. *)
Fixpoint starts_with (s p : string) {struct p} : bool :=
  match p, s with
  | EmptyString, _ => true
  | String _ _, EmptyString => false
  | String c p', String d s' => Ascii.eqb c d && starts_with s' p'
  end.

Fixpoint includes (s p : string) : bool :=
  starts_with s p
  || match s with
     | EmptyString => false
     | String _ s' => includes s' p
     end.

(** node-cache's [keys()]: the keys of the table, live or not.  The
    order of the array plays no part in what [invalidateCache] leaves. *)
Definition cache_keys (n : NodeCache) : list string := (map_to_list (data n)).*1.

(** node-cache's [del(key)]. *)
Definition cache_del (key : string) (n : NodeCache) : NodeCache :=
  with_data n (delete key (data n)).

(** The inner [forEach] of [invalidateCache] on one cache: [count] is
    [invalidatedCount]. *)
Definition invalidate_tier (pattern : string) (n : NodeCache) (count : nat)
  : NodeCache * nat :=
  foldl (fun '(n', c) key =>
           if includes key pattern then (cache_del key n', S c) else (n', c))
        (n, count) (cache_keys n).

(** [invalidateCache]: the three caches in the order short, medium,
    long. *)
Definition invalidateCache {V} (pattern : string) : M V nat := fun s =>
  let '(short, c1) := invalidate_tier pattern (shortTermCache s) 0 in
  let '(medium, c2) := invalidate_tier pattern (mediumTermCache s) c1 in
  let '(long, c3) := invalidate_tier pattern (longTermCache s) c2 in
  Some (c3, State (arrays s) (objects s) short medium long).

(** The number of entries in the three tables. *)
Definition entries {V} (s : state V) : nat :=
  (size (data (shortTermCache s)) + size (data (mediumTermCache s))
   + size (data (longTermCache s)))%nat.

End CacheService.

(** ** controllers/correlationController.js, up to the upstream fetch *)

Module CorrelationController.
Import CacheService.

(** How [getStockCorrelation] leaves its opening lines: with the cached
    result, with the 400 error for equal tickers, or towards the fetch
    of [tickers[0]] and [tickers[1]]. *)
Inductive opening :=
| RespondCached (cachedResult : loc)
| SameStock
| FetchHistory (ticker0 ticker1 : option string).

(** [tickers[i]]; [None] is [undefined]. *)
Definition ticker_at {V} (tickers : loc) (i : nat) : M V (option string) := fun s =>
  match arrays s !! tickers with
  | Some ts => Some (ts !! i, s)
  | None => None
  end.

(** Lines 13 to 32 of [getStockCorrelation]; the validated request
    holds the array [tickers] and the number [minutes]. *)
Definition getStockCorrelation {V} (now : float) (tickers : loc) (minutes : Z)
  : M V opening :=
  let cacheParams := Params None (Some tickers) (Some minutes) None in
  cachedResult <- getCachedData now "correlation" cacheParams ;;
  match cachedResult with
  | Some r => ret (RespondCached r)
  | None =>
    t0 <- ticker_at tickers 0 ;;
    t1 <- ticker_at tickers 1 ;;
    if bool_decide (t0 = t1) then ret SameStock else ret (FetchHistory t0 t1)
  end.

End CorrelationController.

(** ** middleware/validators.js *)

Module Validators.

(** The validators call [trim()] and [toUpperCase()] on the tickers;
    both are the engine's, [Js.trim] and [Js.toUpperCase]. *)

(** The 400 errors of the validators, by their messages. *)
Inductive rejection :=
| TickerRequired        (* 'Valid stock ticker symbol is required' *)
| MinutesOutOfRange     (* 'Minutes must be a positive number up to 1440' *)
| BadAggregation        (* 'Aggregation must be one of: ...' *)
| TwoTickersRequired    (* 'Exactly two stock ticker symbols are required' *)
| BadTickerFormat.      (* 'Invalid ticker format provided' *)

(** What [validateStockParams] reads of the request: [req.params.ticker],
    the Number that [parseInt(req.query.minutes)] yields ([None] is
    [NaN]) and [req.query.aggregation]. *)
Record stock_request := StockRequest {
  param_ticker : option string;
  parsed_minutes : option Z;
  query_aggregation : option string
}.

(** [req.validatedParams] of a stock request. *)
Record stock_params := StockParams {
  sp_ticker : string;
  sp_minutes : Z;
  sp_aggregation : string
}.

(** [x || d] on a Number that is integral or [NaN]. *)
Definition number_or (x : option Z) (d : Z) : Z :=
  match x with
  | Some z => if z =? 0 then d else z
  | None => d
  end.

(** [x || d] on a string that may be [undefined]. *)
Definition string_or (x : option string) (d : string) : string :=
  match x with
  | Some s => if String.eqb s "" then d else s
  | None => d
  end.

Definition validAggregations : list string := ["average"; "median"; "min"; "max"]%string.

(** [arr.includes(x)] on strings. *)
Definition array_includes (l : list string) (x : string) : bool :=
  existsb (String.eqb x) l.

(** [validateStockParams]: the rejection passed to [next], or the
    validated parameters. *)
Definition validateStockParams `{E : Js.Engine} (req : stock_request)
  : rejection + stock_params :=
  match param_ticker req with
  | None => inl TickerRequired
  | Some ticker =>
    if String.eqb ticker "" || String.eqb (Js.trim ticker) "" then inl TickerRequired
    else
      let minutes := number_or (parsed_minutes req) 5 in
      if (minutes <=? 0) || (1440 <? minutes) then inl MinutesOutOfRange
      else
        let aggregation := string_or (query_aggregation req) "average" in
        if negb (array_includes validAggregations aggregation) then inl BadAggregation
        else inr (StockParams (Js.toUpperCase ticker) minutes aggregation)
  end.

(** [req.query.ticker] as the query parser delivers it. *)
Inductive query_value :=
| QUndefined
| QString (s : string)
| QArray (l : list string).

Record correlation_request := CorrelationRequest {
  query_ticker : query_value;
  parsed_minutes_c : option Z
}.

Record correlation_params := CorrelationParams {
  cp_tickers : list string;
  cp_minutes : Z
}.

(** [validateCorrelationParams]; in the array built from a single value
    [None] stands for [undefined]. *)
Definition validateCorrelationParams `{E : Js.Engine} (req : correlation_request)
  : rejection + correlation_params :=
  let tickers : list (option string) :=
    match query_ticker req with
    | QArray l => map Some l
    | QString s => [Some s]
    | QUndefined => [None]
    end in
  if negb (length tickers =? 2)%nat
     || existsb (fun t => match t with Some _ => false | None => true end) tickers
  then inl TwoTickersRequired
  else
    let strings := omap id tickers in
    if existsb (fun t => String.eqb (Js.trim t) "") strings then inl BadTickerFormat
    else
      let minutes := number_or (parsed_minutes_c req) 60 in
      if (minutes <=? 0) || (1440 <? minutes) then inl MinutesOutOfRange
      else inr (CorrelationParams (map Js.toUpperCase strings) minutes).

End Validators.

(** ** services/stockApiService.js *)

Module StockApiService.
Import MathUtils CacheService.

(** What one call of [apiClient.get] comes to. *)
Inductive attempt (R E : Type) :=
| Resolved (response : R)
| Rejected (error : E).
Arguments Resolved {R E}.
Arguments Rejected {R E}.

(** How [fetchWithRetry] ends: with the response, with the error of the
    last attempt, or, when the loop is never entered, with [undefined]. *)
Inductive retry_result (R E : Type) :=
| Returned (response : R)
| Threw (error : E)
| ReturnedUndefined.
Arguments Returned {R E}.
Arguments Threw {R E}.
Arguments ReturnedUndefined {R E}.

(** The [while] loop of [fetchWithRetry].  [get i] is the outcome of the
    call that follows [i] failed ones; [delays] collects the waiting
    times in milliseconds; [fuel] bounds the rounds. *)
Fixpoint retry_loop {R E} (get : nat -> attempt R E) (maxRetries retries fuel : nat)
    (delays : list Z) : retry_result R E * list Z :=
  match fuel with
  | O => (ReturnedUndefined, delays)
  | S fuel' =>
    if (retries <? maxRetries)%nat then
      match get retries with
      | Resolved response => (Returned response, delays)
      | Rejected error =>
        let retries := S retries in
        if (retries =? maxRetries)%nat then (Threw error, delays)
        else
          let delay := 2 ^ Z.of_nat retries * 300 in
          retry_loop get maxRetries retries fuel' (delays ++ [delay])
      end
    else (ReturnedUndefined, delays)
  end.

(** [fetchWithRetry]: the result and the delays it waited. *)
Definition fetchWithRetry {R E} (get : nat -> attempt R E) (maxRetries : nat)
  : retry_result R E * list Z :=
  retry_loop get maxRetries 0 (S maxRetries) [].

(** The waiting times before the attempts 1, ..., [k]: 600, 1200, ... *)
Definition backoff (k : nat) : list Z := map (fun i => 2 ^ Z.of_nat i * 300) (seq 1 k).

(** An error of the HTTP client, as far as the [catch] looks at it:
    with [error.response] (its status, its [data.message] and its
    [statusText]), with [error.request] only, or with neither. *)
Inductive client_error :=
| WithResponse (status : Z) (data_message : option string) (statusText : string)
| WithRequest
| Plain (message : string).

(** The error object [createError(status, message)], for a status from
    400 to 599 (http-errors replaces some other statuses by 500). *)
Record http_error := HttpError { status : Z; message : string }.

(** The objects that the services put on the heap: a price history
    array, and the result object [{ averageStockPrice, priceHistory }]. *)
Inductive object :=
| HistoryArray (priceHistory : list entry)
| StockResult (averageStockPrice : option float) (priceHistory : loc).

(** A new object. *)
Definition alloc (o : object) : M object loc := fun s =>
  let l := fresh (dom (objects s)) in
  Some (l, State (arrays s) (<[l := o]> (objects s))
                 (shortTermCache s) (mediumTermCache s) (longTermCache s)).

(** The binary64 values nearest to 0.1 and 0.2. *)
Definition tenth : float := 0x1.999999999999ap-4%float.
Definition fifth : float := 0x1.999999999999ap-3%float.

(** [priceHistory.filter(...).sort(...)]: the entries from [threshold]
    on, sorted by the difference of their instants. *)
Definition filteredHistory (priceHistory : list entry) (threshold : Z) : list entry :=
  Js.sort_by (fun a b => lastUpdatedAt a - lastUpdatedAt b <=? 0)
             (List.filter (fun e => threshold <=? lastUpdatedAt e) priceHistory).

(** [Math.min(minutesBack * 0.2, 60)]. *)
Definition smartTtl (minutesBack : Z) : float :=
  Js.math_min [(Js.of_Z minutesBack * fifth)%float; 60%float].

(** The [catch] of [fetchStockPriceHistory]. *)
Definition transform_error (error : client_error) : http_error :=
  match error with
  | WithResponse st msg statusText =>
    HttpError st ("Stock API error: " +:+ Validators.string_or msg statusText)
  | WithRequest => HttpError 504 "Stock Exchange API timeout"
  | Plain msg => HttpError 500 ("Error fetching stock data: " +:+ msg)
  end.

(** [fetchStockPriceHistory].  [now] is the clock at the cache lookup,
    [later] the clock when the upstream has answered; [threshold] is the
    instant [thresholdTime]; [get] is the upstream, the response being
    [response.data.priceHistory] when it is there and an array.  The
    function resolves to the history array or rejects with an error.
    With its three attempts [fetchWithRetry] does not return [undefined],
    and the key of a history request is built without a [TypeError]; the
    outcome [None] stands for these two cases. *)
Definition fetchStockPriceHistory (now later : float) (threshold : Z)
    (get : nat -> attempt (option (list entry)) client_error)
    (ticker : string) (minutesBack : Z) : M object (http_error + loc) :=
  let params := Params (Some ticker) None (Some minutesBack) None in
  cachedData <- getCachedData now "stockHistory" params ;;
  match cachedData with
  | Some l => ret (inr l)
  | None =>
    match fst (fetchWithRetry get 3) with
    | Returned (Some priceHistory) =>
      l <- alloc (HistoryArray (filteredHistory priceHistory threshold)) ;;
      _ <- setCachedData later "stockHistory" params l (Some (smartTtl minutesBack)) ;;
      ret (inr l)
    | Returned None =>
      ret (inl (transform_error (Plain "Invalid response from stock API")))
    | Threw error => ret (inl (transform_error error))
    | ReturnedUndefined => throw
    end
  end.

End StockApiService.

(** ** controllers/stockController.js *)

Module StockController.
Import MathUtils CacheService StockApiService.

(** What the handler does in the end: [res.json] of an object of the
    heap, [res.json] of the literal for an empty history, or [next] with
    an error. *)
Inductive response :=
| Json (body : loc)
| JsonNoData
| Next (error : http_error).

(** [Math.min(Math.max(minutes * 0.1, 5), 30)]. *)
Definition cacheTtl (minutes : Z) : float :=
  Js.math_min [Js.math_max [(Js.of_Z minutes * tenth)%float; 5%float]; 30%float].

(** [getStockPrice] on validated parameters.  A RangeError that
    [calculateAggregation] throws has no [status]: the [catch] wraps it
    into a 500, and no result is stored. *)
Definition getStockPrice `{E : Js.Engine} (now later : float) (threshold : Z)
    (get : nat -> attempt (option (list entry)) client_error)
    (ticker : string) (minutes : Z) (aggregation : string) : M object response :=
  let cacheParams := Params (Some ticker) None (Some minutes) (Some aggregation) in
  cachedResult <- getCachedData now "stockPrice" cacheParams ;;
  match cachedResult with
  | Some r => ret (Json r)
  | None =>
    fetched <- fetchStockPriceHistory now later threshold get ticker minutes ;;
    match fetched with
    | inl err =>
      ret (Next (if status err =? 0
                 then HttpError 500 ("Failed to process stock data: " +:+ message err)
                 else err))
    | inr l => fun s =>
      match objects s !! l with
      | Some (HistoryArray priceHistory) =>
        match priceHistory with
        | [] => ret JsonNoData s
        | _ =>
          let prices := map price priceHistory in
          match calculateAggregation prices (Some aggregation) with
          | Js.Normal aggregatedPrice =>
            (result <- alloc (StockResult aggregatedPrice l) ;;
             _ <- setCachedData later "stockPrice" cacheParams result
                                (Some (cacheTtl minutes)) ;;
             ret (Json result)) s
          | Js.ThrowRangeError =>
            ret (Next (HttpError 500 ("Failed to process stock data: "
                                      +:+ Js.range_error_message))) s
          end
        end
      | _ => None
      end
    end
  end.

End StockController.

(** ** controllers/correlationController.js: the time to live *)

Module CorrelationTtl.
Import StockApiService.

(** [Math.min(Math.max(minutes * 0.1, 10), 60)]. *)
Definition cacheTtl (minutes : Z) : float :=
  Js.math_min [Js.math_max [(Js.of_Z minutes * tenth)%float; 10%float]; 60%float].

(** The three times to live of a request over [minutes] are in their
    ranges and count as a time to live for node-cache (truthy, so that the
    entry does expire). *)
Definition ttl_in_range (minutes : Z) : bool :=
  let in_range (lo ttl hi : float) :=
    ((lo <=? ttl) && (ttl <=? hi))%float && Js.truthy_number ttl in
  in_range 5%float (StockController.cacheTtl minutes) 30%float
  && in_range 10%float (cacheTtl minutes) 60%float
  && in_range fifth (smartTtl minutes) 60%float.

End CorrelationTtl.

(** * Properties *)

Import MathUtils Aligner CacheService CorrelationController.
Import Validators StockApiService StockController.

(** ** The sort of JavaScript arrays *)

Section sort_by_facts.
Context {A : Type} (le : A -> A -> bool).

Lemma sort_insert_perm x l : Js.sort_insert le x l ≡ₚ x :: l.
Proof.
  induction l as [|y l IH]; simpl; [done|].
  destruct (le x y); [done|].
  rewrite IH. apply Permutation_swap.
Qed.

Lemma sort_by_perm l : Js.sort_by le l ≡ₚ l.
Proof.
  induction l as [|x l IH]; simpl; [done|].
  unfold Js.sort_by in *. simpl. rewrite sort_insert_perm. by rewrite IH.
Qed.

Lemma sort_by_length l : length (Js.sort_by le l) = length l.
Proof. by rewrite sort_by_perm. Qed.

Lemma sort_by_elem_of x l : x ∈ Js.sort_by le l <-> x ∈ l.
Proof. by rewrite sort_by_perm. Qed.

Lemma sort_by_NoDup l : NoDup l -> NoDup (Js.sort_by le l).
Proof. by rewrite sort_by_perm. Qed.

Hypothesis le_total : forall x y, le x y = true \/ le y x = true.

Lemma sort_insert_sorted x l :
  Sorted (fun a b => le a b = true) l ->
  Sorted (fun a b => le a b = true) (Js.sort_insert le x l).
Proof.
  induction 1 as [|y l Hs IH Hhd]; simpl.
  { repeat constructor. }
  destruct (le x y) eqn:Hxy.
  { constructor; [by constructor|by constructor]. }
  constructor; [done|].
  destruct (le_total x y) as [Hle|Hle]; [congruence|].
  destruct Hhd as [|z l Hyz]; simpl.
  { by constructor. }
  destruct (le x z); by constructor.
Qed.

Lemma sort_by_sorted l : Sorted (fun a b => le a b = true) (Js.sort_by le l).
Proof.
  induction l as [|x l IH]; [constructor|].
  by apply sort_insert_sorted.
Qed.
End sort_by_facts.

Lemma Sorted_weaken {A} (R1 R2 : relation A) l :
  (forall x y, R1 x y -> R2 x y) -> Sorted R1 l -> Sorted R2 l.
Proof.
  intros HR. induction 1 as [|x l Hs IH Hhd]; constructor; [done|].
  destruct Hhd; constructor; auto.
Qed.

(** The comparator-less sort of an array of strings depends on the
    elements only, not on the order in which they come. *)
Lemma default_sort_strings_perm (l1 l2 : list string) :
  l1 ≡ₚ l2 -> Js.default_sort id l1 = Js.default_sort id l2.
Proof.
  intros Hp. unfold Js.default_sort.
  set (le := fun x y : string => Js.string_le (id x) (id y)).
  assert (Htot : forall x y, le x y = true \/ le y x = true).
  { intros x y. apply String.leb_total. }
  assert (Hs : forall l, Sorted String.le (Js.sort_by le l)).
  { intros l. eapply Sorted_weaken; [|apply (sort_by_sorted le Htot)].
    intros x y Hxy. unfold String.le. unfold le, Js.string_le, id in Hxy.
    by rewrite Hxy. }
  apply (Sorted_unique String.le); [apply Hs..|].
  by rewrite !sort_by_perm.
Qed.

(** ** Statistics *)


(** A constant sequence of at least two rationals has sample variance
    zero: the specification's "constant series". *)
Lemma constant_sample_variance (q : Q) (n : nat) :
  (SampleStatistics.sample_variance (replicate (S (S n)) q) == 0)%Q.
Proof.
  set (qs := replicate (S (S n)) q).
  assert (Hsum : forall k, (SampleStatistics.sum (replicate k q)
                            == inject_Z (Z.of_nat k) * q)%Q).
  { intros k. induction k as [|k IH]; [simpl; ring|].
    cbn [replicate SampleStatistics.sum foldr].
    change (foldr Qplus 0%Q (replicate k q)) with (SampleStatistics.sum (replicate k q)).
    rewrite IH, Nat2Z.inj_succ, <- Z.add_1_r, inject_Z_plus. ring. }
  assert (Hmean : (SampleStatistics.mean qs == q)%Q).
  { unfold SampleStatistics.mean, SampleStatistics.count, qs.
    rewrite Hsum, length_replicate.
    assert (Hnz : ~ (inject_Z (Z.of_nat (S (S n))) == 0)%Q).
    { unfold Qeq. simpl. lia. }
    field. exact Hnz. }
  assert (Hzero : forall l : list Q,
            (SampleStatistics.sum
               (map (fun x => (x - SampleStatistics.mean qs)
                              * (x - SampleStatistics.mean qs)) l)
             == SampleStatistics.sum (map (fun x => (x - q) * (x - q)) l))%Q).
  { intros l. induction l as [|x l IH]; [reflexivity|].
    cbn [map SampleStatistics.sum foldr].
    change (foldr Qplus 0%Q ?l) with (SampleStatistics.sum l).
    by rewrite IH, Hmean. }
  assert (Hsq : forall k, (SampleStatistics.sum
                             (map (fun x => (x - q) * (x - q)) (replicate k q)) == 0)%Q).
  { intros k. induction k as [|k IH]; [reflexivity|].
    cbn [replicate map SampleStatistics.sum foldr].
    change (foldr Qplus 0%Q ?l) with (SampleStatistics.sum l).
    rewrite IH. ring. }
  unfold SampleStatistics.sample_variance. rewrite Hzero. unfold qs at 1.
  rewrite Hsq. unfold Qdiv. ring.
Qed.

(** C6 (the code deviates).  The claim has the correlation 0 for a
    sequence of zero sample standard deviation, a constant series.  The
    code tests its computed standard deviation with [=== 0], and the
    computed one is not zero for the constant series [0.1, 0.1, 0.1]: the
    rounded sum 0.30000000000000004 gives the mean 0.10000000000000002 and
    three deviations of one unit in the last place.  The correlation of
    that series with [1, 2, 4] comes out as 1.1868783374443499e-16, with
    the constant series [0.7, 0.7, 0.7] as -1.0000000000000002 and with
    itself as 1.0000000000000002, none of them 0. *)
Theorem C6_constant_series_correlation_not_zero :
  let x := 0x1.999999999999ap-4%float in
  let y := 0x1.6666666666666p-1%float in
  let xs := [x; x; x] in
  SampleStatistics.zero_sample_stddev xs
  /\ SampleStatistics.zero_sample_stddev [y; y; y]
  /\ calculateMean xs = 0x1.999999999999bp-4%float
  /\ calculateStandardDeviation xs = 0x1.3988e1409212ep-56%float
  /\ calculateCorrelation xs [1; 2; 4]%float = 0x1.11acee560242ap-53%float
  /\ calculateCorrelation xs [y; y; y] = (- 0x1.0000000000001p+0)%float
  /\ calculateCorrelation xs xs = 0x1.0000000000001p+0%float
  /\ Js.is_zero (calculateCorrelation xs [1; 2; 4]%float) = false.
Proof.
  intros x y xs.
  assert (Hconst : forall z q, SampleStatistics.exact z = Some q ->
            SampleStatistics.zero_sample_stddev [z; z; z]).
  { intros z q Hq. exists [q; q; q]. split.
    - cbn. rewrite Hq. reflexivity.
    - apply (constant_sample_variance q 1). }
  split; [by eapply Hconst; vm_compute|].
  split; [by eapply Hconst; vm_compute|].
  repeat split; vm_compute; reflexivity.
Qed.

(** The specification's round trip includes the empty sequence; there
    the dispatcher answers [null], not the mean 0. *)
Lemma C7_counterexample :
  calculateMean [] = 0%float
  /\ (forall E : Js.Engine,
        calculateAggregation [] (Some "average"%string) = Js.Normal None)
  /\ ~ (forall (E : Js.Engine) (xs : list float),
          calculateAggregation xs (Some "average"%string)
          = Js.Normal (Some (calculateMean xs))).
Proof.
  split; [done|]. split; [done|].
  intros H. specialize (H AsciiEngine.engine []). discriminate H.
Qed.

(** C7 (amended). For every non-empty sequence [xs],
    [calculateAggregation xs 'average'] is [calculateMean xs]; for the
    empty sequence the aggregation is [null] while the mean is 0. *)
Theorem C7_average_is_mean_nonempty `{E : Js.Engine} (xs : list float) :
  xs <> [] ->
  calculateAggregation xs (Some "average"%string) = Js.Normal (Some (calculateMean xs)).
Proof. intros Hne. destruct xs as [|x xs]; [done|reflexivity]. Qed.

Lemma C7_witness :
  @calculateAggregation AsciiEngine.engine [10; 12; 14]%float (Some "average"%string)
  = Js.Normal (Some (calculateMean [10; 12; 14]%float)).
Proof. apply C7_average_is_mean_nonempty. discriminate. Defined.

(** ** Tier routing and cache keys *)

(** C8. The tier depends on the window size in minutes alone, not on the
    request kind: at most 5 minutes go to the short tier, more than 5 and
    at most 30 to the medium tier, more than 30 to the long tier; so 5 is
    short, 30 is medium and 31 is long. *)
Theorem C8_tier_by_minutes (type type' : string) (m : Z) :
  getCacheForType type (Some m) = getCacheForType type' (Some m)
  /\ (m <= 5 -> getCacheForType type (Some m) = ShortTerm)
  /\ (5 < m <= 30 -> getCacheForType type (Some m) = MediumTerm)
  /\ (30 < m -> getCacheForType type (Some m) = LongTerm)
  /\ getCacheForType type (Some 5) = ShortTerm
  /\ getCacheForType type (Some 30) = MediumTerm
  /\ getCacheForType type (Some 31) = LongTerm.
Proof.
  unfold getCacheForType.
  split; [reflexivity|]. split; [|split; [|split; [|by repeat split]]].
  - intros H. destruct (Z.leb_spec m 5); [reflexivity|lia].
  - intros H. destruct (Z.leb_spec m 5); [lia|].
    destruct (Z.leb_spec m 30); [reflexivity|lia].
  - intros H. destruct (Z.leb_spec m 5); [lia|].
    destruct (Z.leb_spec m 30); [lia|reflexivity].
Qed.

Lemma C8_witness :
  getCacheForType "stockPrice" (Some 3) = ShortTerm
  /\ getCacheForType "stockHistory" (Some 12) = MediumTerm
  /\ getCacheForType "correlation" (Some 1440) = LongTerm.
Proof.
  split; [|split].
  - destruct (C8_tier_by_minutes "stockPrice" "" 3) as (_ & H & _).
    apply H. lia.
  - destruct (C8_tier_by_minutes "stockHistory" "" 12) as (_ & _ & H & _).
    apply H. lia.
  - destruct (C8_tier_by_minutes "correlation" "" 1440) as (_ & _ & _ & H & _).
    apply H. lia.
Defined.

(** The get and the put of one request address the same tier, and a put
    leaves the two other tiers as they were. *)
Lemma setCachedData_other_tiers {V} (s s' : state V) now type p d ttl b c :
  setCachedData now type p d ttl s = Some (b, s') ->
  c <> getCacheForType type (minutes p) ->
  data (cache_of c s') = data (cache_of c s).
Proof.
  unfold setCachedData, bind. intros H Hc.
  destruct (createCacheKey type p s) as [[key s1]|] eqn:Hk; [|done].
  assert (Hcaches : forall c, cache_of c s1 = cache_of c s).
  { intros c0. revert Hk. unfold createCacheKey, ret, bind, throw, sort_in_place.
    repeat case_match; intros; simplify_eq; by destruct c0. }
  unfold cache_set, bind, pass_value, ret, clone in H.
  rewrite <- Hcaches.
  repeat case_match; simplify_eq;
    destruct c, (getCacheForType type (minutes p)); simpl in *; congruence.
Qed.

(** C9. The correlation key does not depend on the order of the two
    tickers: the arrays [A, B] and [B, A] yield the same key, for every
    [minutes]. *)
Theorem C9_correlation_key_symmetric {V} (s : state V) (l : loc)
    (A B : string) (m : Z) :
  let p := Params None (Some l) (Some m) None in
  exists key,
    fst <$> createCacheKey "correlation" p (write_array l [A; B] s) = Some key
    /\ fst <$> createCacheKey "correlation" p (write_array l [B; A] s) = Some key
    /\ key = ("corr:" +:+ Js.join "_" (Js.default_sort id [A; B]) +:+ ":"
              +:+ Js.number_to_string m)%string.
Proof.
  intros p. subst p. eexists.
  unfold createCacheKey, bind, ret, sort_in_place, write_array.
  cbn [String.eqb Ascii.eqb Bool.eqb tickers minutes arrays].
  rewrite !lookup_insert_eq.
  rewrite (default_sort_strings_perm [B; A] [A; B]) by apply Permutation_swap.
  done.
Qed.

(** The spec's example of C9. *)
Example correlation_key_AAPL_MSFT :
  let s := initial_state (V := Z) ∅ ∅ in
  let p := Params None (Some 1%nat) (Some 60) None in
  fst <$> createCacheKey "correlation" p (write_array 1%nat ["AAPL"; "MSFT"]%string s)
  = Some "corr:AAPL_MSFT:60"%string
  /\ fst <$> createCacheKey "correlation" p (write_array 1%nat ["MSFT"; "AAPL"]%string s)
     = Some "corr:AAPL_MSFT:60"%string.
Proof. split; vm_compute; reflexivity. Qed.

(** ** Aliasing between callers and the cache *)

Lemma default_sort_strings_idemp (ts : list string) :
  Js.default_sort id (Js.default_sort id ts) = Js.default_sort id ts.
Proof. apply default_sort_strings_perm. unfold Js.default_sort. apply sort_by_perm. Qed.

(** Building a key changes nothing but, for a correlation request, the
    caller's [tickers] array. *)
Lemma createCacheKey_frame {V} (s s1 : state V) type p key :
  createCacheKey type p s = Some (key, s1) ->
  objects s1 = objects s
  /\ (forall c, cache_of c s1 = cache_of c s)
  /\ (type <> "correlation"%string -> s1 = s).
Proof.
  unfold createCacheKey, ret, bind, throw, sort_in_place.
  repeat case_match; intros; simplify_eq; simpl.
  all: split; [try done|split; [try by intros []|]].
  all: try done.
  intros Hne. apply String.eqb_neq in Hne. congruence.
Qed.

(** The key of a correlation request, and what its making does. *)
Lemma createCacheKey_correlation {V} (s : state V) l ts m a g :
  arrays s !! l = Some ts ->
  createCacheKey "correlation" (Params a (Some l) m g) s
  = Some (("corr:" +:+ Js.join "_" (Js.default_sort id ts) +:+ ":"
           +:+ Js.template (Js.number_to_string <$> m))%string,
          write_array l (Js.default_sort id ts) s).
Proof.
  intros Hl. unfold createCacheKey, bind, ret, sort_in_place.
  cbn [String.eqb Ascii.eqb Bool.eqb tickers minutes]. by rewrite Hl.
Qed.

(** Once a key was built, building it again gives the same key and
    changes nothing, whatever happened to objects and caches meanwhile. *)
Lemma createCacheKey_again {V} (s s1 s2 : state V) type p key :
  createCacheKey type p s = Some (key, s1) ->
  arrays s2 = arrays s1 ->
  createCacheKey type p s2 = Some (key, s2).
Proof.
  unfold createCacheKey, ret, bind, throw, sort_in_place, json_stringify.
  intros H Harr.
  destruct (String.eqb type "stockPrice"); [by simplify_eq|].
  destruct (String.eqb type "stockHistory"); [by simplify_eq|].
  destruct (String.eqb type "correlation").
  - destruct (tickers p) as [l|]; [|done].
    destruct (arrays s !! l) as [ts|] eqn:Hl; [|done]. simplify_eq.
    simpl in Harr. rewrite Harr, lookup_insert_eq, default_sort_strings_idemp.
    rewrite insert_insert_eq, <- Harr.
    by destruct s2.
  - simplify_eq. by rewrite Harr.
Qed.

Lemma as_configured_cache_of {V} (s s1 : state V) :
  (forall c, cache_of c s1 = cache_of c s) -> as_configured s -> as_configured s1.
Proof. intros H Hs c. rewrite H. apply Hs. Qed.

(** What a put does under [useClones: false]: the reference itself goes
    into the table of the selected tier. *)
Lemma setCachedData_stores_reference {V} (s s1 : state V) now type p l ttl b :
  as_configured s ->
  setCachedData now type p l ttl s = Some (b, s1) ->
  exists key sk,
    createCacheKey type p s = Some (key, sk)
    /\ arrays s1 = arrays sk
    /\ as_configured s1
    /\ data (cache_of (getCacheForType type (minutes p)) s1) !! key
       = Some (Wrapped (livetime (cache_of (getCacheForType type (minutes p)) s) now ttl) l).
Proof.
  intros Hc. unfold setCachedData, bind.
  destruct (createCacheKey type p s) as [[key sk]|] eqn:Hk; [|done].
  destruct (createCacheKey_frame _ _ _ _ _ Hk) as (Hobj & Hcaches & _).
  unfold cache_set, bind, pass_value.
  rewrite Hcaches, Hc. unfold ret. intros H. simplify_eq.
  exists key, sk. split; [done|].
  set (c := getCacheForType type (minutes p)).
  split; [by destruct c|]. split.
  - intros c'. specialize (Hc c'). rewrite <- Hcaches in Hc.
    destruct c, c'; simpl in *; done.
  - rewrite <- Hcaches. destruct c; simpl; by rewrite lookup_insert_eq.
Qed.

(** The cache does not isolate its entries: the object that was put
    under a key is mutated by its owner, and the next read of the key
    shows the new content. *)
Lemma C3_counterexample :
  let p := Params (Some "AAPL"%string) None (Some 5) (Some "average"%string) in
  let s : state Z := initial_state ∅ {[ 7%nat := 42 ]} in
  (exists s1,
     setCachedData 1000 "stockPrice" p 7%nat (Some 5%float) s = Some (true, s1)
     /\ cached_value (getCachedData 2000 "stockPrice" p s1) = Some 42
     /\ cached_value (getCachedData 2000 "stockPrice" p (write_object 7%nat 43 s1))
        = Some 43)
  /\ ~ (forall (s s1 : state Z) now now' type p l ttl b x,
          setCachedData now type p l ttl s = Some (b, s1) ->
          cached_value (getCachedData now' type p (write_object l x s1))
          = cached_value (getCachedData now' type p s1)).
Proof.
  intros p s.
  assert (H : exists s1,
     setCachedData 1000 "stockPrice" p 7%nat (Some 5%float) s = Some (true, s1)
     /\ cached_value (getCachedData 2000 "stockPrice" p s1) = Some 42
     /\ cached_value (getCachedData 2000 "stockPrice" p (write_object 7%nat 43 s1))
        = Some 43).
  { eexists. split; [vm_compute; reflexivity|]. split; vm_compute; reflexivity. }
  split; [exact H|].
  destruct H as (s1 & Hset & Hget & Hget'). intros Hclaim.
  specialize (Hclaim s s1 1000%float 2000%float "stockPrice"%string p 7%nat
                     (Some 5%float) true 43 Hset).
  rewrite Hget, Hget' in Hclaim. discriminate Hclaim.
Qed.

(** C3 (amended). The tiers are configured with [useClones: false]: a
    put stores the caller's reference and a read of a live entry returns
    that same reference.  Hence whatever the object holds at the time of
    the read is what the read shows, also a content [x] written by a
    caller after the put. *)
Theorem C3_read_returns_the_stored_reference {V} (s s1 : state V)
    (now now' : float) (type : string) (p : params) (l : loc)
    (ttl : option float) (b : bool) (x : V) :
  as_configured s ->
  setCachedData now type p l ttl s = Some (b, s1) ->
  expired (Wrapped (livetime (cache_of (getCacheForType type (minutes p)) s) now ttl) l)
          now' = false ->
  let s2 := write_object l x s1 in
  getCachedData now' type p s2 = Some (Some l, s2)
  /\ cached_value (getCachedData now' type p s2) = Some x.
Proof.
  intros Hc Hset Hlive s2.
  destruct (setCachedData_stores_reference _ _ _ _ _ _ _ _ Hc Hset)
    as (key & sk & Hk & Harr & Hc1 & Hdata).
  assert (Hget : getCachedData now' type p s2 = Some (Some l, s2)).
  { unfold getCachedData, bind.
    rewrite (createCacheKey_again s sk s2 type p key Hk) by done.
    unfold cache_get.
    assert (Hsame : cache_of (getCacheForType type (minutes p)) s2
                    = cache_of (getCacheForType type (minutes p)) s1).
    { by destruct (getCacheForType type (minutes p)). }
    rewrite Hsame, Hdata, Hlive. unfold bind, pass_value. by rewrite Hc1. }
  split; [done|].
  rewrite Hget. unfold cached_value, read_object, s2. simpl.
  by rewrite lookup_insert_eq.
Qed.

Lemma C3_witness :
  let p := Params (Some "AAPL"%string) None (Some 5) (Some "average"%string) in
  let s : state Z := initial_state ∅ {[ 7%nat := 42 ]} in
  exists s1,
    setCachedData 1000 "stockPrice" p 7%nat (Some 5%float) s = Some (true, s1)
    /\ cached_value (getCachedData 2000 "stockPrice" p (write_object 7%nat 43 s1))
       = Some 43.
Proof.
  intros p s. eexists. split; [vm_compute; reflexivity|].
  eapply (C3_read_returns_the_stored_reference s _ 1000 2000 "stockPrice" p 7%nat
            (Some 5%float) true 43).
  - intros []; reflexivity.
  - vm_compute; reflexivity.
  - vm_compute; reflexivity.
Defined.

(** Reading the cache leaves the arrays of the heap alone. *)
Lemma cache_get_arrays {V} (s s' : state V) now c key r :
  cache_get now c key s = Some (r, s') -> arrays s' = arrays s.
Proof.
  unfold cache_get, bind, pass_value, clone, ret.
  repeat case_match; intros; simplify_eq; by destruct c.
Qed.

Lemma cache_set_arrays {V} (s s' : state V) now c key d ttl r :
  cache_set now c key d ttl s = Some (r, s') -> arrays s' = arrays s.
Proof.
  unfold cache_set, bind, pass_value, clone, ret.
  repeat case_match; intros; simplify_eq; by destruct c.
Qed.

(** C10. Building the key of a correlation request sorts the caller's
    [tickers] array in place.  After a get or a put for such a request
    the array holds its elements in sorted order, whatever order [ts] the
    request had; for the request [MSFT, AAPL] the controller, which reads
    [tickers[0]] and [tickers[1]] after its cache lookup, goes on with
    AAPL first and MSFT second. *)
Theorem C10_cache_key_sorts_callers_tickers {V} (s : state V) (now : float)
    (l d : loc) (ts : list string) (m : Z) (ttl : option float) :
  as_configured s ->
  let p := Params None (Some l) (Some m) None in
  let s0 := write_array l ts s in
  (exists r s', getCachedData now "correlation" p s0 = Some (r, s')
                /\ arrays s' !! l = Some (Js.default_sort id ts))
  /\ (exists b s', setCachedData now "correlation" p d ttl s0 = Some (b, s')
                   /\ arrays s' !! l = Some (Js.default_sort id ts))
  /\ (let request := ["MSFT"; "AAPL"]%string in
      let s1 := write_array 1%nat request (initial_state (V := V) ∅ ∅) in
      Js.default_sort id request <> request
      /\ request !! 0%nat = Some "MSFT"%string
      /\ fst <$> getStockCorrelation now 1%nat m s1
         = Some (FetchHistory (Some "AAPL"%string) (Some "MSFT"%string))).
Proof.
  intros Hc p s0.
  assert (Hk : createCacheKey "correlation" p s0
               = Some (("corr:" +:+ Js.join "_" (Js.default_sort id ts) +:+ ":"
                        +:+ Js.template (Js.number_to_string <$> Some m))%string,
                       write_array l (Js.default_sort id ts) s0)).
  { apply createCacheKey_correlation. unfold s0. simpl. by rewrite lookup_insert_eq. }
  assert (Hc' : as_configured (write_array l (Js.default_sort id ts) s0)).
  { intros c. specialize (Hc c). by destruct c. }
  split; [|split].
  - unfold getCachedData, bind. rewrite Hk.
    match goal with |- context [cache_get ?n ?c ?k ?st] =>
      destruct (cache_get n c k st) as [[r s']|] eqn:Hg end.
    + exists r, s'. split; [done|].
      rewrite (cache_get_arrays _ _ _ _ _ _ Hg). simpl. by rewrite lookup_insert_eq.
    + exfalso. revert Hg. unfold cache_get, bind, pass_value, ret.
      rewrite Hc'. by repeat case_match.
  - unfold setCachedData, bind. rewrite Hk.
    match goal with |- context [cache_set ?n ?c ?k ?v ?t ?st] =>
      destruct (cache_set n c k v t st) as [[r s']|] eqn:Hg end.
    + exists r, s'. split; [done|].
      rewrite (cache_set_arrays _ _ _ _ _ _ _ _ Hg). simpl. by rewrite lookup_insert_eq.
    + exfalso. revert Hg. unfold cache_set, bind, pass_value, ret.
      rewrite Hc'. by repeat case_match.
  - intros request s1. split; [by vm_compute|]. split; [done|].
    unfold getStockCorrelation, getCachedData, bind.
    rewrite (createCacheKey_correlation s1 1%nat request (Some m) None None)
      by (unfold s1; simpl; by rewrite lookup_insert_eq).
    assert (Hempty : forall c ts',
              data (cache_of c (write_array 1%nat ts' s1)) = ∅).
    { by intros []. }
    unfold cache_get. rewrite Hempty, lookup_empty.
    unfold ticker_at, bind, ret. simpl. rewrite lookup_insert_eq.
    reflexivity.
Qed.

Lemma C10_witness :
  let s : state Z := initial_state ∅ ∅ in
  let p := Params None (Some 1%nat) (Some 60) None in
  let s0 := write_array 1%nat ["MSFT"; "AAPL"]%string s in
  exists r s', getCachedData 1000 "correlation" p s0 = Some (r, s')
               /\ arrays s' !! 1%nat = Some (Js.default_sort id ["MSFT"; "AAPL"]%string).
Proof.
  intros s p s0.
  refine (proj1 (C10_cache_key_sorts_callers_tickers s 1000 1%nat 7%nat
                   ["MSFT"; "AAPL"]%string 60 None _)).
  intros []; reflexivity.
Defined.

(** ** The series aligner *)

(** *** Lookup maps *)

Lemma map_has_get (m : JsMap) (k : Z) :
  map_has m k = true <-> is_Some (map_get m k).
Proof.
  induction m as [|[k' v'] m IH]; simpl.
  - split; [done|by intros [? ?]].
  - destruct (k' =? k); [|done]. split; eauto.
Qed.

Lemma map_has_false_get (m : JsMap) (k : Z) :
  map_has m k = false <-> map_get m k = None.
Proof.
  induction m as [|[k' v'] m IH]; simpl; [done|].
  destruct (k' =? k); [|done]. split; done.
Qed.

Lemma map_has_keys (m : JsMap) (k : Z) :
  map_has m k = true <-> k ∈ map_keys m.
Proof.
  unfold map_keys. induction m as [|[k' v'] m IH]; simpl.
  - split; [done|]. by intros ?%elem_of_nil.
  - rewrite elem_of_cons. destruct (Z.eqb_spec k' k) as [->|Hne].
    + split; auto.
    + rewrite IH. split; [auto|]. intros [?|?]; [congruence|done].
Qed.

Lemma map_get_set (m : JsMap) (k k' : Z) (v : entry) :
  map_get (map_set m k v) k' = if k =? k' then Some v else map_get m k'.
Proof.
  induction m as [|[k0 v0] m IH]; simpl.
  - done.
  - destruct (Z.eqb_spec k0 k) as [->|Hne]; simpl.
    + by destruct (k =? k').
    + rewrite IH. destruct (Z.eqb_spec k0 k') as [->|Hne'].
      * destruct (Z.eqb_spec k k'); [congruence|done].
      * done.
Qed.

Lemma map_get_fill_acc (data : list entry) (m : JsMap) (k : Z) (e : entry) :
  map_get (fold_left (fun m e => map_set m (lastUpdatedAt e) e) data m) k = Some e ->
  (e ∈ data /\ lastUpdatedAt e = k) \/ map_get m k = Some e.
Proof.
  revert m. induction data as [|x data IH]; intros m; simpl; [auto|].
  intros H. apply IH in H as [[H1 H2]|H].
  - left. split; [by right|done].
  - rewrite map_get_set in H. destruct (Z.eqb_spec (lastUpdatedAt x) k).
    + left. simplify_eq. split; [by left|done].
    + by right.
Qed.

(** An entry sits in its lookup map under its own timestamp. *)
Lemma map_get_fill (data : list entry) (k : Z) (e : entry) :
  map_get (fill_map data) k = Some e -> e ∈ data /\ lastUpdatedAt e = k.
Proof. intros H. apply map_get_fill_acc in H as [H|H]; [done|discriminate H]. Qed.

Lemma map_has_fill_acc (data : list entry) (m : JsMap) (k : Z) :
  map_has (fold_left (fun m e => map_set m (lastUpdatedAt e) e) data m) k = true
  <-> k ∈ map lastUpdatedAt data \/ map_has m k = true.
Proof.
  revert m. induction data as [|x data IH]; intros m; simpl.
  - split; [auto|]. intros [?%elem_of_nil|?]; done.
  - rewrite IH, elem_of_cons, !map_has_get, map_get_set.
    destruct (Z.eqb_spec (lastUpdatedAt x) k) as [->|Hne].
    + split; [auto|]. intros _. right. eauto.
    + split; [intros [?|?]; auto|]. intros [[?|?]|?]; auto; congruence.
Qed.

(** The keys of a lookup map are the timestamps of its series. *)
Lemma map_has_fill (data : list entry) (k : Z) :
  map_has (fill_map data) k = true <-> k ∈ map lastUpdatedAt data.
Proof.
  unfold fill_map. rewrite map_has_fill_acc. simpl. split; [|auto].
  intros [?|?]; done.
Qed.

(** *** The union of the timestamps *)

Lemma new_Set_acc (xs acc : list Z) :
  NoDup acc ->
  NoDup (fold_left (fun s x => if bool_decide (x ∈ s) then s else s ++ [x]) xs acc)
  /\ forall x, x ∈ fold_left (fun s x => if bool_decide (x ∈ s) then s else s ++ [x]) xs acc
               <-> x ∈ acc \/ x ∈ xs.
Proof.
  revert acc. induction xs as [|y xs IH]; intros acc Hnd; simpl.
  - split; [done|]. intros x. split; [auto|]. intros [?|?%elem_of_nil]; done.
  - case_bool_decide as Hy.
    + destruct (IH acc Hnd) as [H1 H2]. split; [done|].
      intros x. rewrite H2, elem_of_cons. split; [intros [?|?]; auto|].
      intros [?|[->|?]]; auto.
    + assert (Hnd' : NoDup (acc ++ [y])).
      { apply NoDup_app. split; [done|]. split; [|apply NoDup_singleton].
        intros x Hx ->%list_elem_of_singleton. done. }
      destruct (IH _ Hnd') as [H1 H2]. split; [done|].
      intros x. rewrite H2, elem_of_app, list_elem_of_singleton, elem_of_cons.
      tauto.
Qed.

Lemma new_Set_NoDup (xs : list Z) : NoDup (new_Set xs).
Proof. apply new_Set_acc. constructor. Qed.

Lemma new_Set_elem_of (xs : list Z) (x : Z) : x ∈ new_Set xs <-> x ∈ xs.
Proof.
  unfold new_Set. destruct (new_Set_acc xs [] (NoDup_nil_2)) as [_ H].
  rewrite H. split; [|auto]. intros [?%elem_of_nil|?]; done.
Qed.

(** The sorted union has no repetition and holds exactly the timestamps
    that one of the two maps has. *)
Lemma all_timestamps_NoDup (m1 m2 : JsMap) : NoDup (all_timestamps m1 m2).
Proof. apply sort_by_NoDup, new_Set_NoDup. Qed.

Lemma all_timestamps_elem_of (m1 m2 : JsMap) (t : Z) :
  t ∈ all_timestamps m1 m2 <-> map_has m1 t = true \/ map_has m2 t = true.
Proof.
  unfold all_timestamps, Js.default_sort.
  by rewrite sort_by_elem_of, new_Set_elem_of, elem_of_app, !map_has_keys.
Qed.

(** What [sort()] orders by: the decimal strings of the timestamps. *)
Lemma all_timestamps_sorted_as_strings (m1 m2 : JsMap) :
  Sorted (fun a b => String.le (Js.number_to_string a) (Js.number_to_string b))
         (all_timestamps m1 m2).
Proof.
  unfold all_timestamps, Js.default_sort.
  eapply Sorted_weaken; [|apply sort_by_sorted].
  - intros x y Hxy. unfold String.le. unfold Js.string_le in Hxy. by rewrite Hxy.
  - intros x y. apply String.leb_total.
Qed.

(** *** The intersection pass *)

(** Under several entries of one timestamp the last one wins. *)
Lemma map_get_fill_last (data : list entry) (k : Z) :
  map_get (fill_map data) k = last (filter (fun e => lastUpdatedAt e = k) data).
Proof.
  unfold fill_map. induction data as [|x data IH] using rev_ind; [done|].
  rewrite fold_left_app. simpl. rewrite map_get_set, filter_app, IH.
  rewrite filter_cons, filter_nil.
  destruct (Z.eqb_spec (lastUpdatedAt x) k) as [Heq|Hne].
  - rewrite decide_True by done. by rewrite last_snoc.
  - rewrite decide_False by done. by rewrite app_nil_r.
Qed.

Lemma intersection_pass_acc (ts : list Z) (m1 m2 : JsMap) (a1 a2 : list entry) :
  exists l1 l2,
    foldl (fun acc timestamp =>
             '(aligned1, aligned2) ← acc;
             if map_has m1 timestamp && map_has m2 timestamp then
               e1 ← map_get m1 timestamp;
               e2 ← map_get m2 timestamp;
               Some (aligned1 ++ [e1], aligned2 ++ [e2])
             else Some (aligned1, aligned2))
          (Some (a1, a2)) ts = Some (a1 ++ l1, a2 ++ l2)
    /\ Forall2 (fun t e => map_get m1 t = Some e) (common ts m1 m2) l1
    /\ Forall2 (fun t e => map_get m2 t = Some e) (common ts m1 m2) l2.
Proof.
  revert a1 a2. induction ts as [|t ts IH]; intros a1 a2.
  - exists [], []. rewrite !app_nil_r. repeat split; constructor.
  - simpl. unfold common. rewrite filter_cons.
    destruct (map_has m1 t && map_has m2 t) eqn:Hb.
    + apply andb_true_iff in Hb as [H1 H2].
      destruct (proj1 (map_has_get _ _) H1) as [e1 He1].
      destruct (proj1 (map_has_get _ _) H2) as [e2 He2].
      rewrite He1, He2. simpl.
      destruct (IH (a1 ++ [e1]) (a2 ++ [e2])) as (l1 & l2 & Hf & Hl1 & Hl2).
      exists (e1 :: l1), (e2 :: l2). rewrite Hf, <- !app_assoc. simpl.
      repeat split; by constructor.
    + destruct (IH a1 a2) as (l1 & l2 & Hf & Hl1 & Hl2).
      exists l1, l2. done.
Qed.

(** The intersection pass never fails; it emits, for the common
    timestamps in the order of the union, the points the maps hold. *)
Lemma intersection_pass_spec (ts : list Z) (m1 m2 : JsMap) :
  exists l1 l2,
    intersection_pass ts m1 m2 = Some (l1, l2)
    /\ Forall2 (fun t e => map_get m1 t = Some e) (common ts m1 m2) l1
    /\ Forall2 (fun t e => map_get m2 t = Some e) (common ts m1 m2) l2.
Proof. apply (intersection_pass_acc ts m1 m2 [] []). Qed.

Lemma timestamps_of_gets (data : list entry) (ks : list Z) (l : list entry) :
  Forall2 (fun t e => map_get (fill_map data) t = Some e) ks l ->
  timestamps_of l = ks.
Proof.
  induction 1 as [|k e ks l Hke _ IH]; [done|].
  simpl. rewrite IH. f_equal. by apply map_get_fill in Hke as [_ ->].
Qed.

Lemma length_two_distinct (l : list Z) (x y : Z) :
  x <> y -> x ∈ l -> y ∈ l -> (2 <= length l)%nat.
Proof.
  intros Hne Hx Hy. destruct l as [|a [|b l]]; simpl; [| |lia].
  - by apply elem_of_nil in Hx.
  - apply list_elem_of_singleton in Hx, Hy. congruence.
Qed.

(** In the interpolation pass a bound that is used verbatim comes again
    at every timestamp it stands in for: one series, three union
    timestamps, three times the same point.  And with a single distinct
    timestamp the inputs come back as they are, repetitions included. *)
Lemma C5_counterexample :
  let s1 := [pt 1700000000000 10] in
  let s2 := [pt 1700000060000 20; pt 1700000120000 21] in
  let d1 := [pt 1700000000000 10; pt 1700000000000 11] in
  let d2 := [pt 1700000000000 20] in
  (exists r,
     timeAlignPriceData s1 s2 = Some r
     /\ timestamps_of (stock1 r) = [1700000000000; 1700000000000; 1700000000000]
     /\ ~ NoDup (timestamps_of (stock1 r)))
  /\ (exists r,
        timeAlignPriceData d1 d2 = Some r
        /\ stock1 r = d1
        /\ ~ NoDup (timestamps_of (stock1 r))).
Proof.
  intros s1 s2 d1 d2. split.
  - eexists. split; [vm_compute; reflexivity|].
    split; [reflexivity|].
    simpl. intros H. apply NoDup_cons in H as [H _]. apply H. by left.
  - eexists. split; [vm_compute; reflexivity|].
    split; [reflexivity|].
    simpl. intros H. apply NoDup_cons in H as [H _]. apply H. by left.
Qed.

(** C5 (amended). When two distinct timestamps occur in both input
    series, the result comes from the intersection pass, and then no two
    points of an output series share a timestamp: both outputs carry the
    common timestamps, each once, and the point at a timestamp is the
    last one the input series has for it. *)
Theorem C5_intersection_output_has_distinct_timestamps
    (s1 s2 : list entry) (t1 t2 : Z) :
  t1 <> t2 ->
  t1 ∈ timestamps_of s1 -> t1 ∈ timestamps_of s2 ->
  t2 ∈ timestamps_of s1 -> t2 ∈ timestamps_of s2 ->
  exists r,
    timeAlignPriceData s1 s2 = Some r
    /\ NoDup (timestamps_of (stock1 r))
    /\ NoDup (timestamps_of (stock2 r))
    /\ timestamps_of (stock1 r) = timestamps_of (stock2 r)
    /\ (forall e, e ∈ stock1 r ->
          last (filter (fun x => lastUpdatedAt x = lastUpdatedAt e) s1) = Some e)
    /\ (forall e, e ∈ stock2 r ->
          last (filter (fun x => lastUpdatedAt x = lastUpdatedAt e) s2) = Some e).
Proof.
  intros Hne H11 H12 H21 H22. unfold timeAlignPriceData.
  set (m1 := fill_map s1). set (m2 := fill_map s2).
  set (ts := all_timestamps m1 m2).
  assert (Hin : forall t, t ∈ timestamps_of s1 -> t ∈ timestamps_of s2 ->
                          t ∈ common ts m1 m2).
  { intros t Ht1 Ht2. apply map_has_fill in Ht1, Ht2.
    unfold common. apply list_elem_of_filter. split.
    - fold m1 in Ht1. fold m2 in Ht2. by rewrite Ht1, Ht2.
    - apply all_timestamps_elem_of. by left. }
  assert (Hc : (2 <= length (common ts m1 m2))%nat).
  { apply (length_two_distinct _ t1 t2); auto. }
  assert (Hts : (2 <= length ts)%nat).
  { etrans; [exact Hc|]. unfold common. apply length_filter. }
  destruct (length ts <=? 1)%nat eqn:E; [apply Nat.leb_le in E; lia|].
  destruct (intersection_pass_spec ts m1 m2) as (l1 & l2 & -> & Hl1 & Hl2).
  simpl.
  assert (Hlen : length l1 = length (common ts m1 m2)).
  { symmetry. by eapply Forall2_length. }
  destruct (length l1 <? 2)%nat eqn:E2; [apply Nat.ltb_lt in E2; lia|].
  exists (Aligned l1 l2). simpl.
  assert (Hcommon_nd : NoDup (common ts m1 m2)).
  { apply NoDup_filter, all_timestamps_NoDup. }
  rewrite (timestamps_of_gets s1 _ _ Hl1), (timestamps_of_gets s2 _ _ Hl2).
  repeat split; try done.
  - intros e He. rewrite <- map_get_fill_last.
    apply list_elem_of_lookup in He as [i Hi].
    destruct (Forall2_lookup_r _ _ _ _ _ Hl1 Hi) as (t & _ & Hg).
    fold m1. by rewrite (proj2 (map_get_fill _ _ _ Hg)).
  - intros e He. rewrite <- map_get_fill_last.
    apply list_elem_of_lookup in He as [i Hi].
    destruct (Forall2_lookup_r _ _ _ _ _ Hl2 Hi) as (t & _ & Hg).
    fold m2. by rewrite (proj2 (map_get_fill _ _ _ Hg)).
Qed.

Lemma C5_witness :
  let s1 := [pt 1700000000000 10; pt 1700000060000 12; pt 1700000060000 13] in
  let s2 := [pt 1700000060000 22; pt 1700000030000 19; pt 1700000000000 20] in
  exists r,
    timeAlignPriceData s1 s2 = Some r
    /\ NoDup (timestamps_of (stock1 r))
    /\ NoDup (timestamps_of (stock2 r)).
Proof.
  intros s1 s2.
  destruct (C5_intersection_output_has_distinct_timestamps s1 s2
              1700000000000 1700000060000) as (r & Hr & Hn1 & Hn2 & _).
  - lia.
  - vm_compute. apply list_elem_of_here.
  - vm_compute. do 2 apply list_elem_of_further. apply list_elem_of_here.
  - vm_compute. apply list_elem_of_further, list_elem_of_here.
  - vm_compute. apply list_elem_of_here.
  - exists r. auto.
Defined.

(** *** The interpolation pass *)

Lemma scan_down_spec (ts : list Z) (m : JsMap) (n : nat) :
  scan_down ts m n = last (filter (fun t => map_has m t) (take n ts)).
Proof.
  induction n as [|i IH]; simpl; [done|].
  destruct (ts !! i) as [t|] eqn:Hi.
  - rewrite (take_S_r _ _ _ Hi), filter_app, filter_cons, filter_nil.
    destruct (map_has m t) eqn:Hh; simpl.
    + by rewrite last_snoc.
    + by rewrite app_nil_r.
  - apply lookup_ge_None in Hi. rewrite IH.
    by rewrite !take_ge by lia.
Qed.

Lemma scan_up_spec (ts : list Z) (m : JsMap) (i fuel : nat) :
  (length ts <= i + fuel)%nat ->
  scan_up ts m i fuel = head (filter (fun t => map_has m t) (drop i ts)).
Proof.
  revert i. induction fuel as [|fuel IH]; intros i Hlen; simpl.
  { by rewrite drop_ge by lia. }
  destruct (ts !! i) as [t|] eqn:Hi.
  - rewrite (drop_S _ _ _ Hi), filter_cons.
    destruct (map_has m t) eqn:Hh; [done|].
    apply IH. lia.
  - apply lookup_ge_None in Hi. by rewrite drop_ge by lia.
Qed.

Lemma indexOf_split (l1 l2 : list Z) (t : Z) :
  t ∉ l1 -> indexOf (l1 ++ t :: l2) t = Z.of_nat (length l1).
Proof.
  induction l1 as [|x l1 IH]; intros Hnin; simpl.
  - by rewrite Z.eqb_refl.
  - apply not_elem_of_cons in Hnin as [Hne Hnin].
    destruct (Z.eqb_spec x t); [congruence|].
    rewrite (IH Hnin). destruct (Z.ltb_spec (Z.of_nat (length l1)) 0); lia.
Qed.

(** With the union split at [t], the search backwards finds the last
    timestamp before [t] in the array that the map has, the search
    forwards the first one after [t]. *)
Lemma findNearest_before_split (l1 l2 : list Z) (t : Z) (m : JsMap) :
  t ∉ l1 ->
  findNearest (l1 ++ t :: l2) t m "before" = last (filter (fun k => map_has m k) l1).
Proof.
  intros Hnin. unfold findNearest. simpl String.eqb. cbv iota.
  rewrite scan_down_spec, (indexOf_split _ _ _ Hnin).
  replace (Z.to_nat (Z.of_nat (length l1) - 1 + 1)) with (length l1) by lia.
  by rewrite take_app_length.
Qed.

Lemma findNearest_after_split (l1 l2 : list Z) (t : Z) (m : JsMap) :
  t ∉ l1 ->
  findNearest (l1 ++ t :: l2) t m "after" = head (filter (fun k => map_has m k) l2).
Proof.
  intros Hnin. unfold findNearest. simpl String.eqb. cbv iota.
  rewrite scan_up_spec by lia. rewrite (indexOf_split _ _ _ Hnin).
  replace (Z.to_nat (Z.of_nat (length l1) + 1)) with (S (length l1)) by lia.
  replace (l1 ++ t :: l2) with ((l1 ++ [t]) ++ l2) by (by rewrite <- app_assoc).
  rewrite drop_app_length'; [done|]. rewrite length_app. simpl. lia.
Qed.

(** [findNearest] returns keys of the map only. *)
Lemma findNearest_has (ts : list Z) (t : Z) (m : JsMap) (d : string) (k : Z) :
  findNearest ts t m d = Some k -> map_has m k = true.
Proof.
  unfold findNearest. destruct (String.eqb d "before").
  - rewrite scan_down_spec. intros H%last_Some_elem_of.
    by apply list_elem_of_filter in H as [H%Is_true_true _].
  - rewrite scan_up_spec by lia. intros H%head_Some_elem_of.
    by apply list_elem_of_filter in H as [H%Is_true_true _].
Qed.

(** A round of the pass never fails, and what it appends does not depend
    on what was collected before. *)
Lemma interpolate_step_output (ts : list Z) (m : JsMap) (t : Z) (result : list entry) :
  interpolate_step ts m t result = Some (result ++ step_output ts m t).
Proof.
  unfold step_output, interpolate_step.
  destruct (map_has m t) eqn:Hh.
  { destruct (proj1 (map_has_get _ _) Hh) as [e ->]. done. }
  destruct (findNearest ts t m "before") as [b|] eqn:Hb;
    destruct (findNearest ts t m "after") as [a|] eqn:Ha; simpl.
  - apply findNearest_has, map_has_get in Hb as [eb Heb].
    apply findNearest_has, map_has_get in Ha as [ea Hea].
    rewrite Heb, Hea. simpl.
    destruct (b =? 0), (a =? 0); simpl; by rewrite ?app_nil_r.
  - apply findNearest_has, map_has_get in Hb as [eb Heb].
    rewrite Heb. simpl. destruct (b =? 0); simpl; by rewrite ?app_nil_r.
  - apply findNearest_has, map_has_get in Ha as [ea Hea].
    rewrite Hea. simpl. destruct (a =? 0); simpl; by rewrite ?app_nil_r.
  - by rewrite app_nil_r.
Qed.

Lemma interpolate_fold (ts l : list Z) (m1 m2 : JsMap) (r1 r2 : list entry) :
  foldl (fun acc currentTime =>
           '(result1, result2) ← acc;
           result1' ← interpolate_step ts m1 currentTime result1;
           result2' ← interpolate_step ts m2 currentTime result2;
           Some (result1', result2'))
        (Some (r1, r2)) l
  = Some (r1 ++ flat_map (step_output ts m1) l, r2 ++ flat_map (step_output ts m2) l).
Proof.
  revert r1 r2. induction l as [|t l IH]; intros r1 r2; simpl.
  - by rewrite !app_nil_r.
  - rewrite !interpolate_step_output. simpl. rewrite IH. by rewrite <- !app_assoc.
Qed.

(** The interpolation pass never fails: its two results are what the
    rounds append, in the order of the union. *)
Lemma interpolateMissingData_output (s1 s2 : list entry) (ts : list Z) (m1 m2 : JsMap) :
  interpolateMissingData s1 s2 ts m1 m2
  = Some (Aligned (flat_map (step_output ts m1) ts) (flat_map (step_output ts m2) ts)).
Proof. unfold interpolateMissingData. by rewrite interpolate_fold. Qed.

(** *** The nearest points, when the union is in ascending instant order *)

Lemma StronglySorted_filter {A} (R : relation A) (P : A -> Prop)
    `{!forall x, Decision (P x)} (l : list A) :
  StronglySorted R l -> StronglySorted R (filter P l).
Proof.
  induction 1 as [|x l Hs IH Hall]; [constructor|].
  rewrite filter_cons. case_decide; [|done].
  constructor; [done|]. apply Forall_forall.
  intros y [_ Hy]%list_elem_of_filter. rewrite Forall_forall in Hall. auto.
Qed.

Lemma last_filter_greatest (P : Z -> Prop) `{!forall x, Decision (P x)}
    (l : list Z) (b : Z) :
  StronglySorted Z.lt l -> last (filter P l) = Some b ->
  P b /\ b ∈ l /\ forall k, k ∈ l -> P k -> k <= b.
Proof.
  intros Hs Hlast.
  pose proof (last_Some_elem_of _ _ Hlast) as [Hb Hbl]%list_elem_of_filter.
  split; [done|]. split; [done|].
  apply last_Some in Hlast as [l' Hl'].
  pose proof (StronglySorted_filter Z.lt P l Hs) as Hsf. rewrite Hl' in Hsf.
  intros k Hk HPk.
  assert (Hkf : k ∈ filter P l) by (by apply list_elem_of_filter).
  rewrite Hl', elem_of_app, list_elem_of_singleton in Hkf.
  destruct Hkf as [Hkl'| ->]; [|lia].
  apply Z.lt_le_incl.
  apply (StronglySorted_app_1_elem_of _ _ _ _ _ Hsf Hkl'). by left.
Qed.

Lemma head_filter_least (P : Z -> Prop) `{!forall x, Decision (P x)}
    (l : list Z) (a : Z) :
  StronglySorted Z.lt l -> head (filter P l) = Some a ->
  P a /\ a ∈ l /\ forall k, k ∈ l -> P k -> a <= k.
Proof.
  intros Hs Hhead.
  pose proof (head_Some_elem_of _ _ Hhead) as [Ha Hal]%list_elem_of_filter.
  split; [done|]. split; [done|].
  apply head_Some in Hhead as [l' Hl'].
  pose proof (StronglySorted_filter Z.lt P l Hs) as Hsf. rewrite Hl' in Hsf.
  intros k Hk HPk.
  assert (Hkf : k ∈ filter P l) by (by apply list_elem_of_filter).
  rewrite Hl', elem_of_cons in Hkf.
  destruct Hkf as [->|Hkl']; [lia|].
  apply StronglySorted_cons in Hsf as [Hall _]. rewrite Forall_forall in Hall.
  apply Z.lt_le_incl. auto.
Qed.

Lemma filter_nil_not_elem_of (P : Z -> Prop) `{!forall x, Decision (P x)}
    (l : list Z) (k : Z) :
  filter P l = [] -> k ∈ l -> ~ P k.
Proof.
  intros Hnil Hk HP.
  assert (Hkf : k ∈ filter P l) by (by apply list_elem_of_filter).
  rewrite Hnil in Hkf. by apply elem_of_nil in Hkf.
Qed.

Section nearest.
Context (m : JsMap) (l1 l2 : list Z) (t : Z).
Hypothesis Hsorted : StronglySorted Z.lt (l1 ++ t :: l2).
Hypothesis Hkeys : forall k, map_has m k = true -> k ∈ l1 ++ t :: l2.

Lemma split_before (k : Z) : k ∈ l1 -> k < t.
Proof.
  intros Hk. apply (StronglySorted_app_1_elem_of _ _ _ _ _ Hsorted Hk). by left.
Qed.

Lemma split_after (k : Z) : k ∈ l2 -> t < k.
Proof.
  intros Hk. apply StronglySorted_app_1_r, StronglySorted_cons in Hsorted as [Hall _].
  rewrite Forall_forall in Hall. auto.
Qed.

Lemma key_cases (k : Z) : map_has m k = true -> k ∈ l1 \/ k = t \/ k ∈ l2.
Proof.
  intros Hk%Hkeys. rewrite elem_of_app, elem_of_cons in Hk. tauto.
Qed.

Lemma last_is_nearest_before (b : Z) :
  last (filter (fun k => map_has m k) l1) = Some b -> nearest_before m t b.
Proof.
  intros Hlast.
  apply last_filter_greatest in Hlast as (Hb & Hbl & Hmax);
    [|by eapply StronglySorted_app_1_l].
  split; [by apply Is_true_true|]. split; [by apply split_before|].
  intros k Hk Hlt. destruct (key_cases k Hk) as [Hk1|[->|Hk2]].
  - apply Hmax; [done|]. by apply Is_true_true.
  - lia.
  - apply split_after in Hk2. lia.
Qed.

Lemma last_none_no_before :
  last (filter (fun k => map_has m k) l1) = None -> no_before m t.
Proof.
  intros Hnil%last_None k Hk Hlt. destruct (key_cases k Hk) as [Hk1|[->|Hk2]].
  - apply (filter_nil_not_elem_of _ _ _ Hnil Hk1). by apply Is_true_true.
  - lia.
  - apply split_after in Hk2. lia.
Qed.

Lemma head_is_nearest_after (a : Z) :
  head (filter (fun k => map_has m k) l2) = Some a -> nearest_after m t a.
Proof.
  intros Hhead.
  apply head_filter_least in Hhead as (Ha & Hal & Hmin);
    [|by eapply StronglySorted_cons, StronglySorted_app_1_r].
  split; [by apply Is_true_true|]. split; [by apply split_after|].
  intros k Hk Hlt. destruct (key_cases k Hk) as [Hk1|[->|Hk2]].
  - apply split_before in Hk1. lia.
  - lia.
  - apply Hmin; [done|]. by apply Is_true_true.
Qed.

Lemma head_none_no_after :
  head (filter (fun k => map_has m k) l2) = None -> no_after m t.
Proof.
  intros Hnil%head_None k Hk Hlt. destruct (key_cases k Hk) as [Hk1|[->|Hk2]].
  - apply split_before in Hk1. lia.
  - lia.
  - apply (filter_nil_not_elem_of _ _ _ Hnil Hk2). by apply Is_true_true.
Qed.
End nearest.

Lemma nearest_before_unique (m : JsMap) (t b b' : Z) :
  nearest_before m t b -> nearest_before m t b' -> b = b'.
Proof. intros (H1 & H2 & H3) (H1' & H2' & H3'). apply Z.le_antisymm; auto. Qed.

Lemma nearest_after_unique (m : JsMap) (t a a' : Z) :
  nearest_after m t a -> nearest_after m t a' -> a = a'.
Proof. intros (H1 & H2 & H3) (H1' & H2' & H3'). apply Z.le_antisymm; auto. Qed.

Lemma nearest_before_not_none (m : JsMap) (t b : Z) :
  nearest_before m t b -> no_before m t -> False.
Proof. intros (H1 & H2 & _) Hno. by apply (Hno b). Qed.

Lemma nearest_after_not_none (m : JsMap) (t a : Z) :
  nearest_after m t a -> no_after m t -> False.
Proof. intros (H1 & H2 & _) Hno. by apply (Hno a). Qed.

(** On a union in ascending instant order without the instant 0, a round
    of the interpolation pass follows the rule. *)
Lemma step_output_rule (ts : list Z) (m : JsMap) (t : Z) :
  StronglySorted Z.lt ts ->
  0 ∉ ts ->
  (forall k, map_has m k = true -> k ∈ ts) ->
  t ∈ ts ->
  interpolation_rule m t (step_output ts m t).
Proof.
  intros Hs H0 Hkeys Ht. unfold interpolation_rule, step_output, interpolate_step.
  destruct (map_get m t) as [e|] eqn:Hget.
  { by rewrite (proj2 (map_has_get m t)) by eauto. }
  rewrite (proj2 (map_has_false_get m t) Hget).
  destruct (list_elem_of_split _ _ Ht) as (l1 & l2 & ->).
  assert (Hnin : t ∉ l1).
  { intros Hin. pose proof (split_before l1 l2 t Hs t Hin). lia. }
  rewrite (findNearest_before_split _ _ _ _ Hnin), (findNearest_after_split _ _ _ _ Hnin).
  assert (Hnz : forall k, map_has m k = true -> (k =? 0) = false).
  { intros k Hk. apply Z.eqb_neq. intros ->. by apply H0, Hkeys. }
  destruct (last (filter (fun k => map_has m k) l1)) as [b|] eqn:Hb;
    destruct (head (filter (fun k => map_has m k) l2)) as [a|] eqn:Ha.
  - pose proof (last_is_nearest_before m l1 l2 t Hs Hkeys b Hb) as Hnb.
    pose proof (head_is_nearest_after m l1 l2 t Hs Hkeys a Ha) as Hna.
    pose proof Hnb as (Hhb & _). pose proof Hna as (Hha & _).
    simpl. rewrite (Hnz b Hhb), (Hnz a Hha). simpl.
    destruct (proj1 (map_has_get _ _) Hhb) as [eb Heb].
    destruct (proj1 (map_has_get _ _) Hha) as [ea Hea].
    rewrite Heb, Hea. simpl. repeat split.
    + intros b' a' eb' ea' Hnb' Hna' Heb' Hea'.
      rewrite (nearest_before_unique _ _ _ _ Hnb' Hnb) in *.
      rewrite (nearest_after_unique _ _ _ _ Hna' Hna) in *.
      by simplify_eq.
    + intros b' eb' _ Hno. destruct (nearest_after_not_none _ _ _ Hna Hno).
    + intros a' ea' Hno. destruct (nearest_before_not_none _ _ _ Hnb Hno).
    + intros Hno. destruct (nearest_before_not_none _ _ _ Hnb Hno).
  - pose proof (last_is_nearest_before m l1 l2 t Hs Hkeys b Hb) as Hnb.
    pose proof (head_none_no_after m l1 l2 t Hs Hkeys Ha) as Hna.
    pose proof Hnb as (Hhb & _).
    simpl. rewrite (Hnz b Hhb). simpl.
    destruct (proj1 (map_has_get _ _) Hhb) as [eb Heb].
    rewrite Heb. simpl. repeat split.
    + intros b' a' eb' ea' _ Hna'. destruct (nearest_after_not_none _ _ _ Hna' Hna).
    + intros b' eb' Hnb' _ Heb'.
      rewrite (nearest_before_unique _ _ _ _ Hnb' Hnb) in *. by simplify_eq.
    + intros a' ea' Hno. destruct (nearest_before_not_none _ _ _ Hnb Hno).
    + intros Hno. destruct (nearest_before_not_none _ _ _ Hnb Hno).
  - pose proof (last_none_no_before m l1 l2 t Hs Hkeys Hb) as Hnb.
    pose proof (head_is_nearest_after m l1 l2 t Hs Hkeys a Ha) as Hna.
    pose proof Hna as (Hha & _).
    simpl. rewrite (Hnz a Hha). simpl.
    destruct (proj1 (map_has_get _ _) Hha) as [ea Hea].
    rewrite Hea. simpl. repeat split.
    + intros b' a' eb' ea' Hnb'. destruct (nearest_before_not_none _ _ _ Hnb' Hnb).
    + intros b' eb' Hnb'. destruct (nearest_before_not_none _ _ _ Hnb' Hnb).
    + intros a' ea' _ Hna' Hea'.
      rewrite (nearest_after_unique _ _ _ _ Hna' Hna) in *. by simplify_eq.
    + intros _ Hno. destruct (nearest_after_not_none _ _ _ Hna Hno).
  - pose proof (last_none_no_before m l1 l2 t Hs Hkeys Hb) as Hnb.
    pose proof (head_none_no_after m l1 l2 t Hs Hkeys Ha) as Hna.
    simpl. repeat split.
    + intros b' a' eb' ea' Hnb'. destruct (nearest_before_not_none _ _ _ Hnb' Hnb).
    + intros b' eb' Hnb'. destruct (nearest_before_not_none _ _ _ Hnb' Hnb).
    + intros a' ea' _ Hna'. destruct (nearest_after_not_none _ _ _ Hna' Hna).
Qed.

(** *** The three ways out of [timeAlignPriceData] *)

Lemma timeAlignPriceData_degenerate (s1 s2 : list entry) :
  (length (all_timestamps (fill_map s1) (fill_map s2)) <= 1)%nat ->
  timeAlignPriceData s1 s2 = Some (Aligned s1 s2).
Proof.
  intros H. unfold timeAlignPriceData.
  by rewrite (proj2 (Nat.leb_le _ _) H).
Qed.

Lemma timeAlignPriceData_interpolates (s1 s2 : list entry) :
  let m1 := fill_map s1 in
  let m2 := fill_map s2 in
  let ts := all_timestamps m1 m2 in
  (1 < length ts)%nat -> (length (common ts m1 m2) < 2)%nat ->
  timeAlignPriceData s1 s2 = interpolateMissingData s1 s2 ts m1 m2.
Proof.
  intros m1 m2 ts Hts Hc. unfold timeAlignPriceData. fold m1 m2 ts.
  rewrite (proj2 (Nat.leb_gt _ _) Hts).
  destruct (intersection_pass_spec ts m1 m2) as (l1 & l2 & -> & Hl1 & Hl2). simpl.
  apply Forall2_length in Hl1. rewrite <- Hl1.
  by rewrite (proj2 (Nat.ltb_lt _ _) Hc).
Qed.

Lemma fill_map_keys_in_union_l (s1 s2 : list entry) (k : Z) :
  map_has (fill_map s1) k = true -> k ∈ all_timestamps (fill_map s1) (fill_map s2).
Proof. intros H. apply all_timestamps_elem_of. by left. Qed.

Lemma fill_map_keys_in_union_r (s1 s2 : list entry) (k : Z) :
  map_has (fill_map s2) k = true -> k ∈ all_timestamps (fill_map s1) (fill_map s2).
Proof. intros H. apply all_timestamps_elem_of. by right. Qed.

(** A timestamp without any bound is not left out of both outputs: a
    series without any point has no bound at a union timestamp, and the
    pass then leaves that timestamp out of this series' output only; the
    other series keeps its point there. *)
Lemma C4_counterexample :
  let s1 : list entry := [] in
  let s2 := [pt 1700000000000 20; pt 1700000060000 21] in
  let m1 := fill_map s1 in
  let m2 := fill_map s2 in
  let ts := all_timestamps m1 m2 in
  let t := 1700000000000 in
  t ∈ ts
  /\ map_get m1 t = None /\ no_before m1 t /\ no_after m1 t
  /\ interpolateMissingData s1 s2 ts m1 m2 = Some (Aligned [] s2)
  /\ timeAlignPriceData s1 s2 = Some (Aligned [] s2)
  /\ t ∈ timestamps_of s2.
Proof.
  intros s1 s2 m1 m2 ts t.
  split; [vm_compute; apply list_elem_of_here|].
  split; [reflexivity|].
  split; [intros k Hk; discriminate Hk|].
  split; [intros k Hk; discriminate Hk|].
  split; [vm_compute; reflexivity|].
  split; [vm_compute; reflexivity|].
  vm_compute. apply list_elem_of_here.
Qed.

(** C4 (amended). In the interpolation pass over a union that is in
    ascending instant order and does not hold the instant 0, each series
    gets, at every union timestamp [t], what the rule says: its exact
    point if it has one; else, with a nearest earlier point at [b] and a
    nearest later point at [a], the point at [t] with the price
    p_b + (p_a - p_b) * ((t - b) / (a - b)) marked [interpolated]; with one
    of the two only, that point as it is; with neither, nothing for this
    series, while the other series, which then has a point at [t], keeps
    it.  The outputs are these points in the order of the union. *)
Theorem C4_interpolation_pass_follows_rule (s1 s2 : list entry) :
  let m1 := fill_map s1 in
  let m2 := fill_map s2 in
  let ts := all_timestamps m1 m2 in
  StronglySorted Z.lt ts ->
  0 ∉ ts ->
  exists out1 out2 : Z -> list entry,
    interpolateMissingData s1 s2 ts m1 m2
    = Some (Aligned (flat_map out1 ts) (flat_map out2 ts))
    /\ ((1 < length ts)%nat -> (length (common ts m1 m2) < 2)%nat ->
        timeAlignPriceData s1 s2
        = Some (Aligned (flat_map out1 ts) (flat_map out2 ts)))
    /\ forall t, t ∈ ts ->
         interpolation_rule m1 t (out1 t)
         /\ interpolation_rule m2 t (out2 t)
         /\ (map_get m1 t = None -> exists e, map_get m2 t = Some e /\ out2 t = [e])
         /\ (map_get m2 t = None -> exists e, map_get m1 t = Some e /\ out1 t = [e]).
Proof.
  intros m1 m2 ts Hs H0.
  exists (step_output ts m1), (step_output ts m2).
  split; [apply interpolateMissingData_output|].
  split.
  { intros Hts Hc. rewrite (timeAlignPriceData_interpolates s1 s2 Hts Hc).
    apply interpolateMissingData_output. }
  intros t Ht.
  assert (R1 : interpolation_rule m1 t (step_output ts m1 t)).
  { apply step_output_rule; try done. apply fill_map_keys_in_union_l. }
  assert (R2 : interpolation_rule m2 t (step_output ts m2 t)).
  { apply step_output_rule; try done. apply fill_map_keys_in_union_r. }
  split; [done|]. split; [done|].
  apply all_timestamps_elem_of in Ht. split.
  - intros Hnone. apply map_has_false_get in Hnone.
    destruct Ht as [Ht|Ht]; [fold m1 in Ht; congruence|].
    apply map_has_get in Ht as [e He]. exists e. split; [done|].
    unfold interpolation_rule in R2. fold m2 in He. by rewrite He in R2.
  - intros Hnone. apply map_has_false_get in Hnone.
    destruct Ht as [Ht|Ht]; [|fold m2 in Ht; congruence].
    apply map_has_get in Ht as [e He]. exists e. split; [done|].
    unfold interpolation_rule in R1. fold m1 in He. by rewrite He in R1.
Qed.

Lemma C4_witness :
  let s1 := [pt 1700000000000 10; pt 1700000180000 13] in
  let s2 := [pt 1700000060000 20; pt 1700000120000 21; pt 1700000240000 9] in
  let m1 := fill_map s1 in
  let m2 := fill_map s2 in
  let ts := all_timestamps m1 m2 in
  exists out1 out2 : Z -> list entry,
    interpolateMissingData s1 s2 ts m1 m2
    = Some (Aligned (flat_map out1 ts) (flat_map out2 ts)).
Proof.
  intros s1 s2 m1 m2 ts.
  destruct (C4_interpolation_pass_follows_rule s1 s2) as (out1 & out2 & H & _).
  - vm_compute. repeat constructor.
  - vm_compute. intros H.
    repeat (apply elem_of_cons in H as [H|H]; [discriminate H|]).
    by apply elem_of_nil in H.
  - exists out1, out2. exact H.
Defined.

(** The interpolation of the witness input, computed: at 1700000060000
    and 1700000120000 the first series is interpolated between 10 and 13,
    at 1700000240000 it repeats its last point. *)
Example interpolation_pass_example :
  timeAlignPriceData
    [pt 1700000000000 10; pt 1700000180000 13]
    [pt 1700000060000 20; pt 1700000120000 21; pt 1700000240000 9]
  = Some (Aligned
      [pt 1700000000000 10; Entry 11 1700000060000 true; Entry 12 1700000120000 true;
       pt 1700000180000 13; pt 1700000180000 13]
      [pt 1700000060000 20; pt 1700000060000 20; pt 1700000120000 21;
       Entry 15 1700000180000 true; pt 1700000240000 9]).
Proof. vm_compute. reflexivity. Qed.

(** *** When the string order is the instant order *)

Lemma pretty_N_char_compare (x y : N) :
  (x < 10)%N -> (y < 10)%N ->
  Ascii.compare (pretty_N_char x) (pretty_N_char y) = (x ?= y)%N.
Proof.
  intros Hx Hy.
  assert (Hx' : (x = 0 \/ x = 1 \/ x = 2 \/ x = 3 \/ x = 4 \/ x = 5
                 \/ x = 6 \/ x = 7 \/ x = 8 \/ x = 9)%N) by lia.
  assert (Hy' : (y = 0 \/ y = 1 \/ y = 2 \/ y = 3 \/ y = 4 \/ y = 5
                 \/ y = 6 \/ y = 7 \/ y = 8 \/ y = 9)%N) by lia.
  destruct Hx' as [->|[->|[->|[->|[->|[->|[->|[->|[->| ->]]]]]]]]];
    destruct Hy' as [->|[->|[->|[->|[->|[->|[->|[->|[->| ->]]]]]]]]];
    reflexivity.
Qed.

(** Two numbers of [k + 1] digits compare as their digit strings do. *)
Lemma pretty_N_go_compare (k : nat) (x y : N) (s s' : string) :
  (10 ^ N.of_nat k <= x < 10 ^ N.of_nat (S k))%N ->
  (10 ^ N.of_nat k <= y < 10 ^ N.of_nat (S k))%N ->
  String.compare (pretty_N_go x s) (pretty_N_go y s')
  = match (x ?= y)%N with Eq => String.compare s s' | c => c end.
Proof.
  revert x y s s'. induction k as [|k IH]; intros x y s s' Hx Hy.
  - change (10 ^ N.of_nat 0)%N with 1%N in *.
    change (10 ^ N.of_nat 1)%N with 10%N in *.
    rewrite (pretty_N_go_step x), (pretty_N_go_step y) by lia.
    rewrite !N.div_small, !pretty_N_go_0, !N.mod_small by lia.
    simpl. rewrite pretty_N_char_compare by lia.
    by destruct (x ?= y)%N.
  - assert (Hpow : forall n, (10 ^ N.of_nat (S n) = 10 * 10 ^ N.of_nat n)%N).
    { intros n. rewrite Nat2N.inj_succ. apply N.pow_succ_r'. }
    rewrite !Hpow in Hx, Hy. rewrite Hpow in IH.
    pose proof (N.div_mod x 10 ltac:(lia)) as Hdx.
    pose proof (N.div_mod y 10 ltac:(lia)) as Hdy.
    pose proof (N.mod_lt x 10 ltac:(lia)) as Hmx.
    pose proof (N.mod_lt y 10 ltac:(lia)) as Hmy.
    rewrite (pretty_N_go_step x), (pretty_N_go_step y) by lia.
    revert Hdx Hdy Hmx Hmy IH Hx Hy.
    generalize (x `div` 10)%N (x `mod` 10)%N (y `div` 10)%N (y `mod` 10)%N
               (10 ^ N.of_nat k)%N.
    intros qx rx qy ry P Hdx Hdy Hmx Hmy IH Hx Hy.
    rewrite IH by lia. simpl.
    rewrite pretty_N_char_compare by lia.
    destruct (N.compare_spec qx qy) as [Hq|Hq|Hq].
    + destruct (N.compare_spec rx ry) as [Hr|Hr|Hr].
      * assert (x = y) as -> by lia. by rewrite N.compare_refl.
      * by rewrite (proj2 (N.compare_lt_iff x y)) by lia.
      * by rewrite (proj2 (N.compare_gt_iff x y)) by lia.
    + by rewrite (proj2 (N.compare_lt_iff x y)) by lia.
    + by rewrite (proj2 (N.compare_gt_iff x y)) by lia.
Qed.

Lemma number_to_string_compare (k : nat) (x y : Z) :
  10 ^ Z.of_nat k <= x < 10 ^ Z.of_nat (S k) ->
  10 ^ Z.of_nat k <= y < 10 ^ Z.of_nat (S k) ->
  String.compare (Js.number_to_string x) (Js.number_to_string y) = (x ?= y).
Proof.
  intros Hx Hy.
  assert (Hpos : 0 < 10 ^ Z.of_nat k) by (apply Z.pow_pos_nonneg; lia).
  destruct x as [|px|px]; [lia| |lia]. destruct y as [|py|py]; [lia| |lia].
  unfold Js.number_to_string, pretty, pretty_Z, pretty, pretty_positive, pretty, pretty_N.
  rewrite !decide_False by done.
  assert (Hconv : forall n : nat, Z.of_N (10 ^ N.of_nat n) = 10 ^ Z.of_nat n).
  { intros n. rewrite N2Z.inj_pow. by rewrite nat_N_Z. }
  rewrite (pretty_N_go_compare k).
  - change (Z.pos px ?= Z.pos py) with (N.pos px ?= N.pos py)%N.
    by destruct (N.pos px ?= N.pos py)%N.
  - pose proof (Hconv k). pose proof (Hconv (S k)). lia.
  - pose proof (Hconv k). pose proof (Hconv (S k)). lia.
Qed.

Lemma Sorted_weaken_elem {A} (R1 R2 : relation A) (l : list A) :
  (forall x y, x ∈ l -> y ∈ l -> R1 x y -> R2 x y) -> Sorted R1 l -> Sorted R2 l.
Proof.
  intros HR Hs. induction Hs as [|x l Hs IH Hhd]; constructor.
  - apply IH. intros a b Ha Hb. apply HR; by right.
  - destruct Hhd as [|y l' Hxy]; constructor.
    apply HR; [by left|by right; left|done].
Qed.

Lemma StronglySorted_le_NoDup_lt (l : list Z) :
  StronglySorted Z.le l -> NoDup l -> StronglySorted Z.lt l.
Proof.
  induction 1 as [|x l Hs IH Hall]; intros Hnd; constructor.
  - apply IH. by apply NoDup_cons in Hnd as [_ ?].
  - apply NoDup_cons in Hnd as [Hx _]. rewrite Forall_forall in *.
    intros y Hy. pose proof (Hall y Hy).
    assert (x <> y) by (intros ->; done). lia.
Qed.

(** While all timestamps of the two series are positive and have one
    number of digits (as all instants from 2001-09-09 to 2286-11-20 have,
    with 13 digits of milliseconds), the union is in ascending instant
    order. *)
Lemma all_timestamps_ascending_same_width (s1 s2 : list entry) (k : nat) :
  (forall t, t ∈ timestamps_of s1 ++ timestamps_of s2 ->
             10 ^ Z.of_nat k <= t < 10 ^ Z.of_nat (S k)) ->
  StronglySorted Z.lt (all_timestamps (fill_map s1) (fill_map s2)).
Proof.
  intros Hw.
  apply StronglySorted_le_NoDup_lt; [|apply all_timestamps_NoDup].
  apply Sorted_StronglySorted; [apply _|].
  eapply Sorted_weaken_elem; [|apply all_timestamps_sorted_as_strings].
  intros x y Hx Hy Hle.
  assert (Hin : forall t, t ∈ all_timestamps (fill_map s1) (fill_map s2) ->
                          10 ^ Z.of_nat k <= t < 10 ^ Z.of_nat (S k)).
  { intros t [Ht|Ht]%all_timestamps_elem_of; apply map_has_fill in Ht;
      apply Hw, elem_of_app; auto. }
  unfold String.le, String.leb in Hle.
  rewrite (number_to_string_compare k x y) in Hle by auto.
  destruct (Z.compare_spec x y); [lia|lia|done].
Qed.

(** *** Order of the union and lengths of the outputs *)

(** C1. The union is sorted by [sort()] without a comparator, that is by
    the decimal strings of the timestamps, not by instant: across a change
    in the number of digits the later instant comes first.  For the two
    instants 999999999999 (2001-09-09T01:46:39.999Z) and 1000000000000
    (one millisecond later), held by both series, the union and both
    output series are in descending order of instant. *)
Theorem C1_union_sorted_as_strings_not_instants :
  let s := [pt 999999999999 10; pt 1000000000000 11] in
  all_timestamps (fill_map s) (fill_map s) = [1000000000000; 999999999999]
  /\ timeAlignPriceData s s
     = Some (Aligned [pt 1000000000000 11; pt 999999999999 10]
                     [pt 1000000000000 11; pt 999999999999 10])
  /\ ~ Sorted Z.le (all_timestamps (fill_map s) (fill_map s))
  /\ (forall r, timeAlignPriceData s s = Some r ->
        ~ Sorted Z.le (timestamps_of (stock1 r))
        /\ ~ Sorted Z.le (timestamps_of (stock2 r))).
Proof.
  intros s.
  assert (Hbad : ~ Sorted Z.le [1000000000000; 999999999999]).
  { intros H. apply Sorted_inv in H as [_ H]. apply HdRel_inv in H. lia. }
  assert (Hts : all_timestamps (fill_map s) (fill_map s)
                = [1000000000000; 999999999999]) by (vm_compute; reflexivity).
  assert (Hr : timeAlignPriceData s s
               = Some (Aligned [pt 1000000000000 11; pt 999999999999 10]
                               [pt 1000000000000 11; pt 999999999999 10]))
    by (vm_compute; reflexivity).
  split; [done|]. split; [done|]. split; [by rewrite Hts|].
  intros r Hr'. rewrite Hr in Hr'. injection Hr' as <-. by split.
Qed.

(** The same happens in the interpolation pass. *)
Example interpolation_pass_descending :
  timeAlignPriceData [pt 999999999999 10] [pt 1000000000000 20]
  = Some (Aligned [pt 999999999999 10; pt 999999999999 10]
                  [pt 1000000000000 20; pt 1000000000000 20])
  /\ all_timestamps (fill_map [pt 999999999999 10]) (fill_map [pt 1000000000000 20])
     = [1000000000000; 999999999999].
Proof. split; vm_compute; reflexivity. Qed.

(** C2. With the instant 0 (1970-01-01T00:00:00.000Z) among the
    timestamps the guarantee fails: [findNearest] returns the timestamp 0
    for the bound, the pass tests the bound for truthiness, takes 0 for "no
    bound" and emits nothing.  Two non-empty series with three distinct
    timestamps come back with lengths 1 and 3. *)
Theorem C2_epoch_timestamp_unequal_lengths :
  let s1 := [pt 0 10] in
  let s2 := [pt 1000 20; pt 2000 21] in
  all_timestamps (fill_map s1) (fill_map s2) = [0; 1000; 2000]
  /\ findNearest [0; 1000; 2000] 1000 (fill_map s1) "before" = Some 0
  /\ truthy (Some 0) = false
  /\ timeAlignPriceData s1 s2
     = Some (Aligned [pt 0 10] [pt 1000 20; pt 1000 20; pt 2000 21])
  /\ (forall r, timeAlignPriceData s1 s2 = Some r ->
        length (stock1 r) <> length (stock2 r) /\ r <> Aligned s1 s2).
Proof.
  intros s1 s2.
  assert (Hr : timeAlignPriceData s1 s2
               = Some (Aligned [pt 0 10] [pt 1000 20; pt 1000 20; pt 2000 21]))
    by (vm_compute; reflexivity).
  split; [vm_compute; reflexivity|]. split; [vm_compute; reflexivity|].
  split; [reflexivity|]. split; [done|].
  intros r Hr'. rewrite Hr in Hr'. injection Hr' as <-.
  split; [simpl; lia|]. intros H. discriminate H.
Qed.

Lemma flat_map_length_one {A B} (f : A -> list B) (l : list A) :
  (forall x, x ∈ l -> length (f x) = 1%nat) ->
  length (flat_map f l) = length l.
Proof.
  induction l as [|x l IH]; intros H; simpl; [done|].
  rewrite length_app, H by (by left). rewrite IH; [done|].
  intros y Hy. apply H. by right.
Qed.

(** Without the instant 0, a round of the interpolation pass emits
    exactly one point for a series that has any point at all. *)
Lemma step_output_one (ts : list Z) (m : JsMap) (t k0 : Z) :
  NoDup ts -> 0 ∉ ts ->
  (forall k, map_has m k = true -> k ∈ ts) ->
  map_has m k0 = true ->
  t ∈ ts ->
  length (step_output ts m t) = 1%nat.
Proof.
  intros Hnd H0 Hkeys Hk0 Ht. unfold step_output, interpolate_step.
  destruct (map_has m t) eqn:Hh.
  { destruct (proj1 (map_has_get _ _) Hh) as [e ->]. done. }
  destruct (list_elem_of_split _ _ Ht) as (l1 & l2 & ->).
  assert (Hnin : t ∉ l1).
  { apply NoDup_app in Hnd as (_ & Hd & _). intros Hin. apply (Hd t Hin). by left. }
  rewrite (findNearest_before_split _ _ _ _ Hnin), (findNearest_after_split _ _ _ _ Hnin).
  assert (Hnz : forall k, map_has m k = true -> (k =? 0) = false).
  { intros k Hk. apply Z.eqb_neq. intros ->. by apply H0, Hkeys. }
  assert (Hsome : is_Some (last (filter (fun k => map_has m k) l1))
                  \/ is_Some (head (filter (fun k => map_has m k) l2))).
  { pose proof (Hkeys k0 Hk0) as Hin.
    rewrite elem_of_app, elem_of_cons in Hin. destruct Hin as [Hin|[->|Hin]].
    - left. apply last_is_Some. intros Hnil.
      apply (filter_nil_not_elem_of _ _ _ Hnil Hin). by apply Is_true_true.
    - congruence.
    - right. apply head_is_Some. intros Hnil.
      apply (filter_nil_not_elem_of _ _ _ Hnil Hin). by apply Is_true_true. }
  destruct (last (filter (fun k => map_has m k) l1)) as [b|] eqn:Hb;
    destruct (head (filter (fun k => map_has m k) l2)) as [a|] eqn:Ha.
  - assert (Hhb : map_has m b = true).
    { apply last_Some_elem_of, list_elem_of_filter in Hb as [Hb _]. by apply Is_true_true. }
    assert (Hha : map_has m a = true).
    { apply head_Some_elem_of, list_elem_of_filter in Ha as [Ha _]. by apply Is_true_true. }
    simpl. rewrite (Hnz b Hhb), (Hnz a Hha). simpl.
    destruct (proj1 (map_has_get _ _) Hhb) as [eb ->].
    destruct (proj1 (map_has_get _ _) Hha) as [ea ->]. done.
  - assert (Hhb : map_has m b = true).
    { apply last_Some_elem_of, list_elem_of_filter in Hb as [Hb _]. by apply Is_true_true. }
    simpl. rewrite (Hnz b Hhb). simpl.
    destruct (proj1 (map_has_get _ _) Hhb) as [eb ->]. done.
  - assert (Hha : map_has m a = true).
    { apply head_Some_elem_of, list_elem_of_filter in Ha as [Ha _]. by apply Is_true_true. }
    simpl. rewrite (Hnz a Hha). simpl.
    destruct (proj1 (map_has_get _ _) Hha) as [ea ->]. done.
  - destruct Hsome as [[? ?]|[? ?]]; done.
Qed.

(** The guarantee of the aligner holds for all non-empty series that do
    not hold the instant 0: either the union has at most one timestamp and
    the inputs come back as they are, or the two outputs have one length. *)
Lemma aligner_guarantee_without_epoch (s1 s2 : list entry) :
  s1 <> [] -> s2 <> [] ->
  0 ∉ timestamps_of s1 -> 0 ∉ timestamps_of s2 ->
  let ts := all_timestamps (fill_map s1) (fill_map s2) in
  ((length ts <= 1)%nat /\ timeAlignPriceData s1 s2 = Some (Aligned s1 s2))
  \/ ((1 < length ts)%nat
      /\ exists r, timeAlignPriceData s1 s2 = Some r
                   /\ length (stock1 r) = length (stock2 r)).
Proof.
  intros Hne1 Hne2 H01 H02 ts.
  destruct (decide (length ts <= 1)%nat) as [Hle|Hgt].
  { left. split; [done|]. by apply timeAlignPriceData_degenerate. }
  right. split; [lia|].
  set (m1 := fill_map s1). set (m2 := fill_map s2).
  destruct (decide (length (common ts m1 m2) < 2)%nat) as [Hc|Hc].
  - rewrite (timeAlignPriceData_interpolates s1 s2)
      by (unfold m1, m2, ts in *; lia).
    rewrite interpolateMissingData_output. eexists. split; [done|]. simpl.
    assert (H0 : 0 ∉ all_timestamps (fill_map s1) (fill_map s2)).
    { intros [H|H]%all_timestamps_elem_of; apply map_has_fill in H; done. }
    destruct s1 as [|e1 s1]; [done|]. destruct s2 as [|e2 s2]; [done|].
    rewrite !flat_map_length_one; [done|..].
    + intros t Ht. apply (step_output_one _ _ _ (lastUpdatedAt e2)); try done.
      * apply all_timestamps_NoDup.
      * apply fill_map_keys_in_union_r.
      * apply map_has_fill. by left.
    + intros t Ht. apply (step_output_one _ _ _ (lastUpdatedAt e1)); try done.
      * apply all_timestamps_NoDup.
      * apply fill_map_keys_in_union_l.
      * apply map_has_fill. by left.
  - unfold timeAlignPriceData. cbv zeta.
    change (all_timestamps (fill_map s1) (fill_map s2)) with ts. fold m1 m2.
    rewrite (proj2 (Nat.leb_gt _ _)) by lia.
    destruct (intersection_pass_spec ts m1 m2) as (l1 & l2 & -> & Hl1 & Hl2). simpl.
    apply Forall2_length in Hl1, Hl2.
    rewrite (proj2 (Nat.ltb_ge _ _)) by lia.
    eexists. split; [done|]. simpl. lia.
Qed.

Lemma aligner_guarantee_without_epoch_witness :
  let s1 := [Entry 1 100 false; Entry 2 300 false] in
  let s2 := [Entry 3 200 false] in
  exists r, timeAlignPriceData s1 s2 = Some r /\ length (stock1 r) = length (stock2 r).
Proof.
  intros s1 s2.
  destruct (aligner_guarantee_without_epoch s1 s2) as [[Hlen _]|[_ Hr]].
  - discriminate.
  - discriminate.
  - intros H%list_elem_of_In. simpl in H. intuition lia.
  - intros H%list_elem_of_In. simpl in H. intuition lia.
  - vm_compute in Hlen. lia.
  - exact Hr.
Defined.

(** * Further properties of the code *)

(** ** The aligner on all inputs *)

(** The union does not depend on which series comes first. *)
Lemma all_timestamps_comm (m1 m2 : JsMap) :
  all_timestamps m1 m2 = all_timestamps m2 m1.
Proof.
  set (R := fun a b : Z => String.le (Js.number_to_string a) (Js.number_to_string b)).
  assert (Htrans : Transitive R).
  { intros x y z Hxy Hyz. unfold R in *. by etrans. }
  apply (Sorted_unique_strong R).
  - intros x y _ _ Hxy Hyx. unfold R in *.
    apply (inj (pretty (A := Z))). by apply (anti_symm String.le).
  - apply all_timestamps_sorted_as_strings.
  - apply all_timestamps_sorted_as_strings.
  - apply NoDup_Permutation; [apply all_timestamps_NoDup..|].
    intros x. rewrite !all_timestamps_elem_of. tauto.
Qed.

Lemma intersection_pass_swap (ts : list Z) (m1 m2 : JsMap) :
  intersection_pass ts m2 m1 = prod_swap <$> intersection_pass ts m1 m2.
Proof.
  destruct (intersection_pass_spec ts m1 m2) as (l1 & l2 & H12 & Hl1 & Hl2).
  destruct (intersection_pass_spec ts m2 m1) as (k2 & k1 & H21 & Hk2 & Hk1).
  rewrite H12, H21. simpl. f_equal.
  assert (Hc : common ts m2 m1 = common ts m1 m2).
  { unfold common. apply list_filter_iff. intros t. by rewrite andb_comm. }
  rewrite Hc in Hk1, Hk2.
  assert (Hfun : forall (m : JsMap) ks a b,
            Forall2 (fun t e => map_get m t = Some e) ks a ->
            Forall2 (fun t e => map_get m t = Some e) ks b -> a = b).
  { intros m ks a b Ha. revert b.
    induction Ha as [|t e ks a He _ IH]; intros b Hb; inv Hb; [done|].
    f_equal; [congruence..|auto]. }
  by rewrite (Hfun m1 _ _ _ Hk1 Hl1), (Hfun m2 _ _ _ Hk2 Hl2).
Qed.

(** Swapping the two input series swaps the two output series and
    changes nothing else, on every input. *)
Theorem timeAlignPriceData_symmetric (s1 s2 : list entry) :
  timeAlignPriceData s2 s1 = swap_aligned <$> timeAlignPriceData s1 s2.
Proof.
  unfold timeAlignPriceData. cbv zeta.
  rewrite (all_timestamps_comm (fill_map s2) (fill_map s1)).
  set (ts := all_timestamps (fill_map s1) (fill_map s2)).
  destruct (length ts <=? 1)%nat; [done|].
  rewrite intersection_pass_swap.
  destruct (intersection_pass_spec ts (fill_map s1) (fill_map s2))
    as (l1 & l2 & -> & Hl1 & Hl2). simpl.
  apply Forall2_length in Hl1, Hl2. rewrite <- Hl2, Hl1.
  destruct (length l1 <? 2)%nat; [|done].
  by rewrite !interpolateMissingData_output.
Qed.

(** What a round of the interpolation pass can append: a point the map
    holds, or a point marked [interpolated] at the round's timestamp,
    which the map then lacks. *)
Lemma step_output_points (ts : list Z) (m : JsMap) (t : Z) (e : entry) :
  e ∈ step_output ts m t ->
  (exists k, map_get m k = Some e)
  \/ (interpolated e = true /\ lastUpdatedAt e = t /\ map_has m t = false).
Proof.
  unfold step_output, interpolate_step.
  destruct (map_has m t) eqn:Hh.
  { destruct (proj1 (map_has_get _ _) Hh) as [x Hx]. rewrite Hx. simpl.
    intros ->%list_elem_of_singleton. eauto. }
  destruct (findNearest ts t m "before") as [b|] eqn:Hb;
    destruct (findNearest ts t m "after") as [a|] eqn:Ha; simpl.
  - apply findNearest_has, map_has_get in Hb as [eb Heb].
    apply findNearest_has, map_has_get in Ha as [ea Hea].
    rewrite Heb, Hea. simpl.
    destruct (b =? 0), (a =? 0); simpl; intros He;
      try (apply list_elem_of_singleton in He as ->); eauto.
    by apply elem_of_nil in He.
  - apply findNearest_has, map_has_get in Hb as [eb Heb].
    rewrite Heb. simpl. destruct (b =? 0); simpl; intros He;
      try (apply list_elem_of_singleton in He as ->); eauto.
    by apply elem_of_nil in He.
  - apply findNearest_has, map_has_get in Ha as [ea Hea].
    rewrite Hea. simpl. destruct (a =? 0); simpl; intros He;
      try (apply list_elem_of_singleton in He as ->); eauto.
    by apply elem_of_nil in He.
  - by intros ?%elem_of_nil.
Qed.

Lemma flat_map_step_output_points (ts l : list Z) (m : JsMap) (e : entry) :
  e ∈ flat_map (step_output ts m) l ->
  (exists k, map_get m k = Some e)
  \/ (interpolated e = true /\ lastUpdatedAt e ∈ l /\ map_has m (lastUpdatedAt e) = false).
Proof.
  induction l as [|t l IH]; simpl; [by intros ?%elem_of_nil|].
  rewrite elem_of_app. intros [He|He].
  - apply step_output_points in He as [?|(? & <- & ?)]; [by left|].
    right. split; [done|]. split; [by left|done].
  - apply IH in He as [?|(? & ? & ?)]; [by left|].
    right. split; [done|]. split; [by right|done].
Qed.

(** [timeAlignPriceData] returns on every input (no lookup ever yields
    [undefined]), and it never makes up a real point: a point of an output
    series is a point of the input series of the same side, or else it is
    marked [interpolated] and stands at a timestamp that only the other
    series has. *)
Theorem timeAlignPriceData_output_points (s1 s2 : list entry) :
  exists r,
    timeAlignPriceData s1 s2 = Some r
    /\ (forall e, e ∈ stock1 r ->
          e ∈ s1
          \/ (interpolated e = true
              /\ lastUpdatedAt e ∈ timestamps_of s2
              /\ lastUpdatedAt e ∉ timestamps_of s1))
    /\ (forall e, e ∈ stock2 r ->
          e ∈ s2
          \/ (interpolated e = true
              /\ lastUpdatedAt e ∈ timestamps_of s1
              /\ lastUpdatedAt e ∉ timestamps_of s2)).
Proof.
  unfold timeAlignPriceData. cbv zeta.
  set (m1 := fill_map s1). set (m2 := fill_map s2). set (ts := all_timestamps m1 m2).
  destruct (length ts <=? 1)%nat.
  { eexists. split; [done|]. simpl. auto. }
  destruct (intersection_pass_spec ts m1 m2) as (l1 & l2 & -> & Hl1 & Hl2). simpl.
  destruct (length l1 <? 2)%nat.
  - rewrite interpolateMissingData_output. eexists. split; [done|]. simpl.
    assert (Hside : forall (sa sb : list entry) e,
              ts = all_timestamps (fill_map sa) (fill_map sb)
              \/ ts = all_timestamps (fill_map sb) (fill_map sa) ->
              e ∈ flat_map (step_output ts (fill_map sa)) ts ->
              e ∈ sa \/ (interpolated e = true
                         /\ lastUpdatedAt e ∈ timestamps_of sb
                         /\ lastUpdatedAt e ∉ timestamps_of sa)).
    { intros sa sb e Hts He.
      apply flat_map_step_output_points in He as [[k Hk]|(Hi & Hin & Hno)].
      - left. by apply map_get_fill in Hk as [? _].
      - right. split; [done|].
        assert (Hnot : lastUpdatedAt e ∉ timestamps_of sa).
        { intros Hx%map_has_fill. congruence. }
        split; [|done].
        destruct Hts as [-> | ->]; apply all_timestamps_elem_of in Hin as [Hin|Hin];
          apply map_has_fill in Hin; done. }
    split; intros e He; eapply Hside; eauto.
  - eexists. split; [done|]. simpl. split; intros e He; left.
    + apply list_elem_of_lookup in He as [i Hi].
      destruct (Forall2_lookup_r _ _ _ _ _ Hl1 Hi) as (t & _ & Hg).
      by apply map_get_fill in Hg as [? _].
    + apply list_elem_of_lookup in He as [i Hi].
      destruct (Forall2_lookup_r _ _ _ _ _ Hl2 Hi) as (t & _ & Hg).
      by apply map_get_fill in Hg as [? _].
Qed.

Lemma filter_none {A} (P : A -> Prop) `{!forall x, Decision (P x)} (l : list A) :
  Forall (fun x => ~ P x) l -> filter P l = [].
Proof.
  induction 1 as [|x l Hx _ IH]; [done|].
  rewrite filter_cons. by rewrite decide_False.
Qed.

Lemma filter_all {A} (P : A -> Prop) `{!forall x, Decision (P x)} (l : list A) :
  Forall P l -> filter P l = l.
Proof.
  induction 1 as [|x l Hx _ IH]; [done|].
  rewrite filter_cons. rewrite decide_True by done. by rewrite IH.
Qed.

Lemma StronglySorted_lt_NoDup (l : list Z) : StronglySorted Z.lt l -> NoDup l.
Proof.
  induction 1 as [|x l _ IH Hall]; constructor; [|done].
  intros Hx. rewrite Forall_forall in Hall. specialize (Hall x Hx). lia.
Qed.

(** A series without repeated timestamps finds each of its points in its
    lookup map. *)
Lemma map_get_fill_NoDup (s : list entry) (e : entry) :
  NoDup (timestamps_of s) -> e ∈ s ->
  map_get (fill_map s) (lastUpdatedAt e) = Some e.
Proof.
  intros Hnd He. rewrite map_get_fill_last.
  induction s as [|x s IH]; [by apply elem_of_nil in He|].
  simpl in Hnd. apply NoDup_cons in Hnd as [Hx Hnd].
  rewrite filter_cons. apply elem_of_cons in He as [->|He].
  - rewrite decide_True by done.
    assert (Hnil : filter (fun y => lastUpdatedAt y = lastUpdatedAt x) s = []).
    { apply filter_none, Forall_forall. intros y Hy Heq.
      apply Hx. rewrite <- Heq. apply list_elem_of_fmap. eauto. }
    by rewrite Hnil.
  - rewrite decide_False.
    + by apply IH.
    + intros Heq. apply Hx. rewrite Heq. apply list_elem_of_fmap. eauto.
Qed.

Lemma gets_of_NoDup_series (s : list entry) :
  NoDup (timestamps_of s) ->
  Forall2 (fun t e => map_get (fill_map s) t = Some e) (timestamps_of s) s.
Proof.
  intros Hnd. apply Forall2_fmap_l, Forall_Forall2_diag, Forall_forall.
  intros e He. by apply map_get_fill_NoDup.
Qed.

Lemma Forall2_gets_functional (m : JsMap) (ks : list Z) (a b : list entry) :
  Forall2 (fun t e => map_get m t = Some e) ks a ->
  Forall2 (fun t e => map_get m t = Some e) ks b -> a = b.
Proof.
  intros Ha. revert b.
  induction Ha as [|t e ks a He _ IH]; intros b Hb; inv Hb; [done|].
  f_equal; [congruence..|auto].
Qed.

(** Two series that already stand on the same timestamps, in ascending
    order and with at least two points, come back as they are; no point
    is added, dropped, moved or marked.  The timestamps are positive and
    have one number of digits, [10^k <= t < 10^(k+1)], so that the order of
    [sort()] is the order of instants; among negative timestamps of one
    width it is the reverse. *)
Theorem timeAlignPriceData_aligned_input_unchanged
    (s1 s2 : list entry) (k : nat) :
  timestamps_of s1 = timestamps_of s2 ->
  StronglySorted Z.lt (timestamps_of s1) ->
  (forall t, t ∈ timestamps_of s1 -> 10 ^ Z.of_nat k <= t < 10 ^ Z.of_nat (S k)) ->
  (2 <= length s1)%nat ->
  timeAlignPriceData s1 s2 = Some (Aligned s1 s2).
Proof.
  intros Heq Hs Hw Hlen.
  set (m1 := fill_map s1). set (m2 := fill_map s2). set (ts := all_timestamps m1 m2).
  assert (Hnd : NoDup (timestamps_of s1)).
  { by apply StronglySorted_lt_NoDup. }
  assert (Hasc : StronglySorted Z.lt ts).
  { apply (all_timestamps_ascending_same_width s1 s2 k).
    intros t [Ht|Ht]%elem_of_app; [|rewrite <- Heq in Ht]; auto. }
  assert (Hts : ts = timestamps_of s1).
  { apply (StronglySorted_unique_strong Z.lt); [intros; lia|done..|].
    apply NoDup_Permutation; [apply all_timestamps_NoDup|done|].
    intros t. unfold ts, m1, m2.
    rewrite all_timestamps_elem_of, !map_has_fill.
    change (map lastUpdatedAt s2) with (timestamps_of s2). rewrite <- Heq.
    unfold timestamps_of. tauto. }
  assert (Hcommon : common ts m1 m2 = ts).
  { unfold common. apply filter_all, Forall_forall. intros t Ht.
    rewrite Hts in Ht. pose proof Ht as Ht2. rewrite Heq in Ht2.
    apply map_has_fill in Ht, Ht2. fold m1 in Ht. fold m2 in Ht2.
    by rewrite Ht, Ht2. }
  unfold timeAlignPriceData. cbv zeta. fold m1 m2 ts.
  assert (Hl : length ts = length s1).
  { rewrite Hts. unfold timestamps_of. apply length_map. }
  rewrite (proj2 (Nat.leb_gt _ _)) by lia.
  destruct (intersection_pass_spec ts m1 m2) as (l1 & l2 & -> & Hl1 & Hl2). simpl.
  rewrite Hcommon in Hl1, Hl2.
  assert (l1 = s1) as ->.
  { eapply Forall2_gets_functional; [exact Hl1|].
    rewrite Hts. by apply gets_of_NoDup_series. }
  assert (l2 = s2) as ->.
  { eapply Forall2_gets_functional; [exact Hl2|].
    rewrite Hts, Heq. apply gets_of_NoDup_series. by rewrite <- Heq. }
  by rewrite (proj2 (Nat.ltb_ge _ _)) by lia.
Qed.

Lemma timeAlignPriceData_aligned_input_unchanged_witness :
  let s1 := [Entry 1 100 false; Entry 2 200 false] in
  let s2 := [Entry 3 100 false; Entry 4 200 false] in
  timeAlignPriceData s1 s2 = Some (Aligned s1 s2).
Proof.
  intros s1 s2. apply (timeAlignPriceData_aligned_input_unchanged s1 s2 2).
  - reflexivity.
  - repeat constructor.
  - apply Forall_forall. repeat constructor; vm_compute; congruence.
  - simpl; lia.
Defined.

(** ** The order of the outputs while the timestamps have one width *)

Lemma step_output_emitted_at (s : list entry) (ts : list Z) (t : Z) (e : entry) :
  StronglySorted Z.lt ts ->
  0 ∉ ts ->
  (forall k, map_has (fill_map s) k = true -> k ∈ ts) ->
  t ∈ ts ->
  e ∈ step_output ts (fill_map s) t ->
  emitted_at (fill_map s) t (lastUpdatedAt e).
Proof.
  intros Hs H0 Hkeys Ht. set (m := fill_map s) in *.
  unfold emitted_at, step_output, interpolate_step.
  destruct (map_has m t) eqn:Hh.
  { destruct (proj1 (map_has_get _ _) Hh) as [x Hx]. rewrite Hx. simpl.
    intros ->%list_elem_of_singleton. left.
    apply map_get_fill in Hx as [_ ->]. auto. }
  destruct (list_elem_of_split _ _ Ht) as (l1 & l2 & ->).
  assert (Hnin : t ∉ l1).
  { intros Hin. pose proof (split_before l1 l2 t Hs t Hin). lia. }
  rewrite (findNearest_before_split _ _ _ _ Hnin), (findNearest_after_split _ _ _ _ Hnin).
  assert (Hnz : forall k, map_has m k = true -> (k =? 0) = false).
  { intros k Hk. apply Z.eqb_neq. intros ->. by apply H0, Hkeys. }
  destruct (last (filter (fun k => map_has m k) l1)) as [b|] eqn:Hb;
    destruct (head (filter (fun k => map_has m k) l2)) as [a|] eqn:Ha.
  - pose proof (last_is_nearest_before m l1 l2 t Hs Hkeys b Hb) as Hnb.
    pose proof (head_is_nearest_after m l1 l2 t Hs Hkeys a Ha) as Hna.
    pose proof Hnb as (Hhb & _). pose proof Hna as (Hha & _).
    simpl. rewrite (Hnz b Hhb), (Hnz a Hha). simpl.
    destruct (proj1 (map_has_get _ _) Hhb) as [eb Heb].
    destruct (proj1 (map_has_get _ _) Hha) as [ea Hea].
    rewrite Heb, Hea. simpl. intros ->%list_elem_of_singleton. simpl.
    left. split; [done|]. right. eauto.
  - pose proof (last_is_nearest_before m l1 l2 t Hs Hkeys b Hb) as Hnb.
    pose proof (head_none_no_after m l1 l2 t Hs Hkeys Ha) as Hna.
    pose proof Hnb as (Hhb & _).
    simpl. rewrite (Hnz b Hhb). simpl.
    destruct (proj1 (map_has_get _ _) Hhb) as [eb Heb].
    rewrite Heb. simpl. intros ->%list_elem_of_singleton.
    apply map_get_fill in Heb as [_ ->]. right. left. auto.
  - pose proof (last_none_no_before m l1 l2 t Hs Hkeys Hb) as Hnb.
    pose proof (head_is_nearest_after m l1 l2 t Hs Hkeys a Ha) as Hna.
    pose proof Hna as (Hha & _).
    simpl. rewrite (Hnz a Hha). simpl.
    destruct (proj1 (map_has_get _ _) Hha) as [ea Hea].
    rewrite Hea. simpl. intros ->%list_elem_of_singleton.
    apply map_get_fill in Hea as [_ ->]. right. right. auto.
  - simpl. by intros ?%elem_of_nil.
Qed.

(** Later rounds emit later or equal instants. *)
Lemma emitted_at_mono (m : JsMap) (t t' u u' : Z) :
  t < t' -> emitted_at m t u -> emitted_at m t' u' -> u <= u'.
Proof.
  intros Hlt H H'.
  assert (Hne : forall k x, map_has m k = true -> map_has m x = false -> k <> x).
  { intros k x Hk Hx ->. congruence. }
  destruct H as [[-> H]|[(Hh & (Hb1 & Hb2 & Hb3) & Hna)|(Hh & Hnb & (Ha1 & Ha2 & Ha3))]];
    destruct H' as [[-> H']|[(Hh' & (Hb1' & Hb2' & Hb3') & Hna')
                            |(Hh' & Hnb' & (Ha1' & Ha2' & Ha3'))]];
    try lia.
  - destruct H as [H|(b & a & _ & (Ha1 & Ha2 & _))].
    + apply Hb3'; [done|lia].
    + pose proof (Hna' a Ha1). pose proof (Hne a t' Ha1 Hh').
      assert (a <= u') by (apply Hb3'; [done|lia]). lia.
  - apply Hb3'; [done|lia].
  - destruct H' as [H'|(b' & a' & (Hb1' & Hb2' & _) & _)].
    + apply Ha3; [done|lia].
    + pose proof (Hnb b' Hb1'). pose proof (Hne b' t Hb1' Hh).
      assert (u <= b') by (apply Ha3; [done|lia]). lia.
  - pose proof (Hnb u' Hb1'). pose proof (Hne u' t Hb1' Hh).
    apply Ha3; [done|lia].
  - apply Ha3; [done|lia].
Qed.

Lemma timestamps_of_app (l k : list entry) :
  timestamps_of (l ++ k) = timestamps_of l ++ timestamps_of k.
Proof. apply map_app. Qed.

Lemma elem_of_timestamps_of (l : list entry) (u : Z) :
  u ∈ timestamps_of l <-> exists e, e ∈ l /\ lastUpdatedAt e = u.
Proof.
  unfold timestamps_of. induction l as [|x l IH]; simpl.
  - split; [by intros ?%elem_of_nil|]. by intros (e & ?%elem_of_nil & _).
  - rewrite elem_of_cons, IH. split.
    + intros [->|(e & ? & ?)]; [exists x|exists e]; split; auto; by constructor.
    + intros (e & [->|?]%elem_of_cons & ?); eauto.
Qed.

Lemma flat_map_elem_of {A B} (f : A -> list B) (l : list A) (y : B) :
  y ∈ flat_map f l <-> exists x, x ∈ l /\ y ∈ f x.
Proof.
  induction l as [|a l IH]; simpl.
  - split; [by intros ?%elem_of_nil|]. by intros (x & ?%elem_of_nil & _).
  - rewrite elem_of_app, IH. split.
    + intros [?|(x & ? & ?)]; [exists a|exists x]; split; auto; by constructor.
    + intros (x & [->|?]%elem_of_cons & ?); eauto.
Qed.

Lemma step_output_short (ts : list Z) (m : JsMap) (t : Z) :
  (length (step_output ts m t) <= 1)%nat.
Proof.
  unfold step_output, interpolate_step.
  destruct (map_has m t).
  { destruct (map_get m t); simpl; lia. }
  destruct (findNearest ts t m "before") as [b|], (findNearest ts t m "after") as [a|];
    simpl; try lia.
  - destruct (b =? 0), (a =? 0); simpl;
      destruct (map_get m b), (map_get m a); simpl; lia.
  - destruct (b =? 0); simpl; destruct (map_get m b); simpl; lia.
  - destruct (a =? 0); simpl; destruct (map_get m a); simpl; lia.
Qed.

Lemma interpolation_output_ascending (s : list entry) (ts l : list Z) :
  StronglySorted Z.lt ts ->
  0 ∉ ts ->
  (forall k, map_has (fill_map s) k = true -> k ∈ ts) ->
  l ⊆ ts ->
  StronglySorted Z.lt l ->
  StronglySorted Z.le (timestamps_of (flat_map (step_output ts (fill_map s)) l)).
Proof.
  intros Hs H0 Hkeys Hsub Hl.
  induction Hl as [|t l Hl IH Hall]; [constructor|].
  simpl. rewrite timestamps_of_app. apply StronglySorted_app_2.
  - intros u u' (e & He & <-)%elem_of_timestamps_of (e' & He' & <-)%elem_of_timestamps_of.
    apply flat_map_elem_of in He' as (t' & Ht' & He').
    rewrite Forall_forall in Hall.
    apply (emitted_at_mono (fill_map s) t t'); [by apply Hall|..].
    + apply (step_output_emitted_at s ts); try done. apply Hsub. by left.
    + apply (step_output_emitted_at s ts); try done. apply Hsub. by right.
  - pose proof (step_output_short ts (fill_map s) t) as Hshort.
    destruct (step_output ts (fill_map s) t) as [|e [|e' r]]; simpl in *;
      [constructor|repeat constructor|lia].
  - apply IH. intros x Hx. apply Hsub. by right.
Qed.

Lemma StronglySorted_all_equal (l : list Z) (x : Z) :
  Forall (fun y => y = x) l -> StronglySorted Z.le l.
Proof.
  induction 1 as [|y l -> Hall IH]; constructor; [done|].
  eapply Forall_impl; [exact Hall|]. intros z ->. lia.
Qed.

Lemma StronglySorted_lt_le (l : list Z) : StronglySorted Z.lt l -> StronglySorted Z.le l.
Proof.
  induction 1 as [|x l _ IH Hall]; constructor; [done|].
  eapply Forall_impl; [exact Hall|]. intros; lia.
Qed.

(** While all timestamps of the two inputs are positive and have one
    number of digits, [10^k <= t < 10^(k+1)] (13 digits for every instant
    from 2001-09-09 to 2286-11-20), both outputs of [timeAlignPriceData]
    are in ascending order of instant, whichever of its three exits is
    taken; an instant can repeat.  Instants before 1970 are outside: among
    negative timestamps of one width the order is the reverse. *)
Theorem timeAlignPriceData_outputs_ascending_same_width
    (s1 s2 : list entry) (k : nat) :
  (forall t, t ∈ timestamps_of s1 ++ timestamps_of s2 ->
             10 ^ Z.of_nat k <= t < 10 ^ Z.of_nat (S k)) ->
  exists r,
    timeAlignPriceData s1 s2 = Some r
    /\ StronglySorted Z.le (timestamps_of (stock1 r))
    /\ StronglySorted Z.le (timestamps_of (stock2 r)).
Proof.
  intros Hw.
  set (m1 := fill_map s1). set (m2 := fill_map s2). set (ts := all_timestamps m1 m2).
  assert (Hasc : StronglySorted Z.lt ts).
  { by apply (all_timestamps_ascending_same_width s1 s2 k). }
  assert (Hin1 : forall t, t ∈ timestamps_of s1 -> t ∈ ts).
  { intros t Ht. apply all_timestamps_elem_of. left. by apply map_has_fill. }
  assert (Hin2 : forall t, t ∈ timestamps_of s2 -> t ∈ ts).
  { intros t Ht. apply all_timestamps_elem_of. right. by apply map_has_fill. }
  assert (H0 : 0 ∉ ts).
  { intros [H|H]%all_timestamps_elem_of; apply map_has_fill in H;
      assert (Hpos : 0 < 10 ^ Z.of_nat k) by (apply Z.pow_pos_nonneg; lia);
      [specialize (Hw 0 (proj2 (elem_of_app _ _ _) (or_introl H)))
      |specialize (Hw 0 (proj2 (elem_of_app _ _ _) (or_intror H)))]; lia. }
  unfold timeAlignPriceData. cbv zeta. fold m1 m2 ts.
  destruct (length ts <=? 1)%nat eqn:E.
  { apply Nat.leb_le in E. eexists. split; [done|]. simpl.
    destruct ts as [|x [|y ts']] eqn:Ets; simpl in E; [| |lia].
    - split; apply (StronglySorted_all_equal _ 0), Forall_forall;
        intros t Ht; [apply Hin1 in Ht|apply Hin2 in Ht]; by apply elem_of_nil in Ht.
    - split; apply (StronglySorted_all_equal _ x), Forall_forall;
        intros t Ht; [apply Hin1 in Ht|apply Hin2 in Ht];
        by apply list_elem_of_singleton in Ht. }
  destruct (intersection_pass_spec ts m1 m2) as (l1 & l2 & -> & Hl1 & Hl2). simpl.
  destruct (length l1 <? 2)%nat.
  - rewrite interpolateMissingData_output. eexists. split; [done|]. simpl. split.
    + apply interpolation_output_ascending; try done.
      apply fill_map_keys_in_union_l.
    + apply interpolation_output_ascending; try done.
      apply fill_map_keys_in_union_r.
  - eexists. split; [done|]. simpl.
    rewrite (timestamps_of_gets s1 _ _ Hl1), (timestamps_of_gets s2 _ _ Hl2).
    split; apply StronglySorted_lt_le, StronglySorted_filter; done.
Qed.

Lemma timeAlignPriceData_outputs_ascending_same_width_witness :
  let s1 := [Entry 1 100 false; Entry 2 300 false] in
  let s2 := [Entry 3 200 false] in
  exists r,
    timeAlignPriceData s1 s2 = Some r
    /\ StronglySorted Z.le (timestamps_of (stock1 r))
    /\ StronglySorted Z.le (timestamps_of (stock2 r)).
Proof.
  intros s1 s2. apply (timeAlignPriceData_outputs_ascending_same_width s1 s2 2).
  apply Forall_forall. repeat constructor; vm_compute; congruence.
Defined.

(** ** Statistics: relations between the functions *)



(** The median is taken from the data: for an odd number of points it is
    one of them, for an even number the half sum of two of them. *)
Theorem calculateMedian_from_data (xs : list float) :
  xs <> [] ->
  (Nat.odd (length xs) = true -> calculateMedian xs ∈ xs)
  /\ (Nat.even (length xs) = true ->
      exists a b, a ∈ xs /\ b ∈ xs /\ calculateMedian xs = ((a + b) / 2)%float).
Proof.
  intros Hne. unfold calculateMedian. destruct xs as [|x0 xs0] eqn:Exs; [done|].
  rewrite <- Exs. clear Hne.
  assert (Hpos : (0 < length xs)%nat) by (rewrite Exs; simpl; lia).
  clear Exs x0 xs0.
  set (sorted := Js.numeric_sort xs).
  assert (Hlen : length sorted = length xs) by apply sort_by_length.
  assert (Hnth : forall i, (i < length xs)%nat -> nth i sorted PrimFloat.nan ∈ xs).
  { intros i Hi. apply (sort_by_elem_of (fun a b => negb (0 <? a - b)%float)).
    apply list_elem_of_In, nth_In. unfold sorted, Js.numeric_sort.
    by rewrite sort_by_length. }
  rewrite Hlen.
  pose proof (Nat.div_mod_eq (length xs) 2) as Hdm.
  pose proof (Nat.mod_upper_bound (length xs) 2 ltac:(lia)) as Hm.
  split.
  - intros Hodd. apply Nat.odd_spec in Hodd as [q Hq].
    assert (length xs mod 2 = 1)%nat as ->.
    { rewrite Hq, Nat.add_comm, Nat.mul_comm, Nat.Div0.mod_add. done. }
    cbn [Nat.eqb]. apply Hnth. lia.
  - intros Heven. apply Nat.even_spec in Heven as [q Hq].
    assert (length xs mod 2 = 0)%nat as Hz.
    { rewrite Hq, Nat.mul_comm. apply Nat.Div0.mod_mul. }
    rewrite Hz. cbn [Nat.eqb].
    eexists _, _. split; [|split; [|reflexivity]]; apply Hnth; lia.
Qed.

Lemma calculateMedian_from_data_witness :
  calculateMedian [3; 1; 2]%float ∈ [3; 1; 2]%float.
Proof.
  apply (proj1 (calculateMedian_from_data [3; 1; 2]%float ltac:(discriminate))).
  reflexivity.
Defined.

(** ** Invalidation by key substring *)

Lemma starts_with_app (p b : string) : starts_with (p +:+ b) p = true.
Proof.
  induction p as [|c p IH]; [done|].
  change (String c p +:+ b)%string with (String c (p +:+ b)).
  simpl. rewrite Ascii.eqb_refl. exact IH.
Qed.

Lemma includes_app (a p b : string) : includes (a +:+ p +:+ b) p = true.
Proof.
  induction a as [|c a IH].
  - change ("" +:+ p +:+ b)%string with (p +:+ b)%string.
    destruct (p +:+ b)%string eqn:E; simpl; rewrite <- E, starts_with_app; done.
  - change (String c a +:+ p +:+ b)%string with (String c (a +:+ p +:+ b)).
    simpl. rewrite IH. apply orb_true_r.
Qed.

Lemma includes_empty (s : string) : includes s "" = true.
Proof. by destruct s. Qed.

Lemma invalidate_fold (pattern : string) (l : list string) (n : NodeCache) (c : nat) :
  NoDup l -> (forall k, k ∈ l -> is_Some (data n !! k)) ->
  exists d c',
    foldl (fun '(n', c) key =>
             if includes key pattern then (cache_del key n', S c) else (n', c))
          (n, c) l = (with_data n d, c')
    /\ (c' + size d = c + size (data n))%nat
    /\ forall key, d !! key = if includes key pattern && bool_decide (key ∈ l)
                              then None else data n !! key.
Proof.
  intros Hnd. revert n c. induction Hnd as [|k l Hk Hnd IH]; intros n c Hin.
  - exists (data n), c. split; [by destruct n|]. split; [done|].
    intros key. rewrite bool_decide_eq_false_2 by apply not_elem_of_nil.
    by rewrite andb_false_r.
  - simpl. destruct (includes k pattern) eqn:Hinc.
    + destruct (IH (cache_del k n) (S c)) as (d & c' & Hf & Hsz & Hlk).
      { intros k' Hk'. simpl. rewrite lookup_delete_ne by (intros ->; done).
        apply Hin. by right. }
      exists d, c'. split; [exact Hf|]. split.
      * rewrite Hsz. simpl. rewrite map_size_delete_Some by (apply Hin; by left).
        assert (size (data n) <> 0)%nat.
        { apply map_size_ne_0_lookup. exists k. apply Hin. by left. }
        lia.
      * intros key. rewrite Hlk. simpl.
        destruct (decide (key = k)) as [->|Hne].
        -- rewrite Hinc, lookup_delete_eq. simpl.
           rewrite (bool_decide_eq_true_2 (k ∈ k :: l)) by (by left).
           by destruct (bool_decide (k ∈ l)).
        -- rewrite lookup_delete_ne by done.
           destruct (includes key pattern); [|done]. simpl.
           destruct (decide (key ∈ l)) as [Hl|Hl].
           ++ rewrite !bool_decide_eq_true_2; [done|by right|done].
           ++ rewrite !bool_decide_eq_false_2; [done| |done].
              intros [?|?]%elem_of_cons; done.
    + destruct (IH n c) as (d & c' & Hf & Hsz & Hlk).
      { intros k' Hk'. apply Hin. by right. }
      exists d, c'. split; [exact Hf|]. split; [done|].
      intros key. rewrite Hlk.
      destruct (decide (key = k)) as [->|Hne].
      * by rewrite Hinc.
      * destruct (includes key pattern); [|done]. simpl.
        destruct (decide (key ∈ l)) as [Hl|Hl].
        -- rewrite !bool_decide_eq_true_2; [done|by right|done].
        -- rewrite !bool_decide_eq_false_2; [done| |done].
           intros [?|?]%elem_of_cons; done.
Qed.

(** What [invalidate_tier] leaves of one cache. *)
Lemma invalidate_tier_spec (pattern : string) (n : NodeCache) (c : nat) :
  exists d c',
    invalidate_tier pattern n c = (with_data n d, c')
    /\ (c' + size d = c + size (data n))%nat
    /\ forall key, d !! key = if includes key pattern then None else data n !! key.
Proof.
  destruct (invalidate_fold pattern (cache_keys n) n c) as (d & c' & Hf & Hsz & Hlk).
  - apply NoDup_fst_map_to_list.
  - intros k Hk. unfold cache_keys in Hk.
    apply list_elem_of_fmap in Hk as ([k' x] & -> & Hx).
    apply elem_of_map_to_list in Hx. eauto.
  - exists d, c'. split; [exact Hf|]. split; [done|].
    intros key. rewrite Hlk. destruct (includes key pattern); [|done]. simpl.
    case_bool_decide as Hin; [done|].
    destruct (data n !! key) as [x|] eqn:Hx; [|done].
    exfalso. apply Hin. unfold cache_keys.
    apply list_elem_of_fmap. exists (key, x). split; [done|].
    by apply elem_of_map_to_list.
Qed.

(** The tables that [invalidateCache] leaves, tier by tier. *)
Lemma invalidateCache_tables {V} (s : state V) (pattern : string) :
  exists count s',
    invalidateCache pattern s = Some (count, s')
    /\ (forall c key,
          data (cache_of c s') !! key
          = if includes key pattern then None else data (cache_of c s) !! key)
    /\ (count + entries s' = entries s)%nat
    /\ arrays s' = arrays s.
Proof.
  unfold invalidateCache.
  destruct (invalidate_tier_spec pattern (shortTermCache s) 0)
    as (d1 & c1 & -> & Hs1 & Hl1).
  destruct (invalidate_tier_spec pattern (mediumTermCache s) c1)
    as (d2 & c2 & -> & Hs2 & Hl2).
  destruct (invalidate_tier_spec pattern (longTermCache s) c2)
    as (d3 & c3 & -> & Hs3 & Hl3).
  eexists _, _. split; [reflexivity|].
  split; [by intros []|]. split; [unfold entries; simpl; lia|done].
Qed.

(** [invalidateCache pattern] removes from every tier exactly the entries
    whose key contains [pattern] and keeps every other entry as it is; the
    number it returns is the number of entries it removed; the options of
    the caches and the heap are untouched.  It cannot fail. *)
Theorem invalidateCache_removes_matching_keys {V} (s : state V) (pattern : string) :
  exists count s',
    invalidateCache pattern s = Some (count, s')
    /\ (forall c key,
          data (cache_of c s') !! key
          = if includes key pattern then None else data (cache_of c s) !! key)
    /\ (count + entries s' = entries s)%nat
    /\ (forall c, stdTTL (cache_of c s') = stdTTL (cache_of c s)
                  /\ useClones (cache_of c s') = useClones (cache_of c s))
    /\ arrays s' = arrays s /\ objects s' = objects s.
Proof.
  unfold invalidateCache.
  destruct (invalidate_tier_spec pattern (shortTermCache s) 0)
    as (d1 & c1 & -> & Hs1 & Hl1).
  destruct (invalidate_tier_spec pattern (mediumTermCache s) c1)
    as (d2 & c2 & -> & Hs2 & Hl2).
  destruct (invalidate_tier_spec pattern (longTermCache s) c2)
    as (d3 & c3 & -> & Hs3 & Hl3).
  eexists _, _. split; [reflexivity|].
  split; [by intros []|]. split; [unfold entries; simpl; lia|].
  split; [by intros []|]. done.
Qed.

(** The empty pattern is contained in every key: [invalidateCache('')]
    empties the three tiers. *)
Theorem invalidateCache_empty_pattern_clears_all {V} (s : state V) :
  exists s',
    invalidateCache "" s = Some (entries s, s')
    /\ forall c, data (cache_of c s') = ∅.
Proof.
  destruct (invalidateCache_tables s "")
    as (count & s' & Hi & Hlk & Hcount & _).
  assert (Hempty : forall c, data (cache_of c s') = ∅).
  { intros c. apply map_empty. intros key. by rewrite Hlk, includes_empty. }
  assert (entries s' = 0)%nat.
  { unfold entries.
    rewrite (Hempty ShortTerm : data (shortTermCache s') = ∅).
    rewrite (Hempty MediumTerm : data (mediumTermCache s') = ∅).
    rewrite (Hempty LongTerm : data (longTermCache s') = ∅).
    by rewrite !map_size_empty. }
  exists s'. split; [|done]. rewrite Hi. do 2 f_equal. lia.
Qed.

Lemma starts_with_app_r (s p b : string) :
  starts_with s p = true -> starts_with (s +:+ b) p = true.
Proof.
  revert s. induction p as [|c p IH]; intros s; [done|].
  destruct s as [|d s]; [done|].
  change (String d s +:+ b)%string with (String d (s +:+ b)). simpl.
  intros [-> H]%andb_true_iff. simpl. by apply IH.
Qed.

Lemma includes_app_r (s p b : string) :
  includes s p = true -> includes (s +:+ b) p = true.
Proof.
  induction s as [|d s IH].
  - simpl. rewrite orb_false_r. intros H.
    destruct p; [|done]. apply includes_empty.
  - change (String d s +:+ b)%string with (String d (s +:+ b)). simpl.
    intros [H|H]%orb_true_iff.
    + apply (starts_with_app_r (String d s) p b) in H.
      change (String d s +:+ b)%string with (String d (s +:+ b)) in H.
      by rewrite H.
    + rewrite (IH H). apply orb_true_r.
Qed.

Lemma includes_app_l (a s p : string) :
  includes s p = true -> includes (a +:+ s) p = true.
Proof.
  intros H. induction a as [|c a IH]; [done|].
  change (String c a +:+ s)%string with (String c (a +:+ s)). simpl.
  rewrite IH. apply orb_true_r.
Qed.

Lemma includes_refl (s : string) : includes s s = true.
Proof.
  assert (H : starts_with s s = true).
  { induction s as [|c s IH]; [done|]. simpl. by rewrite Ascii.eqb_refl. }
  destruct s; simpl in *; [done|]. by rewrite H.
Qed.

(** A joined array contains each of its elements. *)
Lemma includes_join (sep : string) (l : list string) (x : string) :
  x ∈ l -> includes (Js.join sep l) x = true.
Proof.
  unfold Js.join. induction l as [|y l IH]; [by intros ?%elem_of_nil|].
  intros [->|Hx]%elem_of_cons.
  - destruct l as [|z l]; simpl; [apply includes_refl|].
    apply includes_app_r, includes_refl.
  - destruct l as [|z l]; [by apply elem_of_nil in Hx|].
    change (String.concat sep (y :: z :: l))
      with (y ++ sep ++ String.concat sep (z :: l))%string.
    apply (includes_app_l y), (includes_app_l sep), IH, Hx.
Qed.

Lemma cache_get_miss {V} (s : state V) now c key :
  data (cache_of c s) !! key = None -> cache_get now c key s = Some (None, s).
Proof. intros H. unfold cache_get. by rewrite H. Qed.

(** After [invalidateCache(ticker)] every read for that ticker misses:
    the stock price and the history for any window and aggregation, and
    the correlation for any pair that holds the ticker (the keys of these
    requests contain the ticker). *)
Theorem invalidateCache_ticker_then_reads_miss {V} (s : state V) (now : float)
    (symbol : string) (tk : option loc) (m : option Z) (g : option string)
    (l : loc) (ts : list string) :
  exists count s1,
    invalidateCache symbol s = Some (count, s1)
    /\ getCachedData now "stockPrice" (Params (Some symbol) tk m g) s1 = Some (None, s1)
    /\ getCachedData now "stockHistory" (Params (Some symbol) tk m g) s1 = Some (None, s1)
    /\ (arrays s !! l = Some ts -> symbol ∈ ts ->
        exists s2, getCachedData now "correlation" (Params None (Some l) m g) s1
                   = Some (None, s2)).
Proof.
  destruct (invalidateCache_tables s symbol)
    as (count & s1 & Hi & Hlk & _ & Harr).
  exists count, s1. split; [done|].
  split; [|split].
  - unfold getCachedData, bind, createCacheKey, ret. cbn [String.eqb Ascii.eqb Bool.eqb].
    apply cache_get_miss. rewrite Hlk.
    by rewrite (includes_app "stock:" symbol).
  - unfold getCachedData, bind, createCacheKey, ret. cbn [String.eqb Ascii.eqb Bool.eqb].
    apply cache_get_miss. rewrite Hlk.
    by rewrite (includes_app "history:" symbol).
  - intros Hl Hin. unfold getCachedData, bind.
    rewrite (createCacheKey_correlation s1 l ts m None g) by (by rewrite Harr).
    eexists. apply cache_get_miss.
    assert (Hc : forall c, data (cache_of c (write_array l (Js.default_sort id ts) s1))
                           = data (cache_of c s1)) by (by intros []).
    rewrite Hc, Hlk.
    rewrite (includes_app_l "corr:"); [done|].
    apply includes_app_r, includes_join.
    unfold Js.default_sort. by apply sort_by_elem_of.
Qed.

(** ** Puts and reads of single entries *)

Lemma cache_set_data {V} (s s1 : state V) now c key d ttl b :
  cache_set now c key d ttl s = Some (b, s1) ->
  forall c' k', (c' <> c \/ k' <> key) ->
    data (cache_of c' s1) !! k' = data (cache_of c' s) !! k'.
Proof.
  unfold cache_set, bind, pass_value, clone, ret. intros H c' k' Hne.
  repeat case_match; simplify_eq; destruct c, c'; simpl;
    try done; destruct Hne as [?|?]; try done; by rewrite lookup_insert_ne.
Qed.

(** A put writes one entry of one tier: under every other key, and in
    the two other tiers, the tables are as before, so every other read
    answers as it did. *)
Theorem setCachedData_touches_one_entry {V} (s s1 : state V) (now : float)
    (type : string) (p : params) (d : loc) (ttl : option float) (b : bool) :
  setCachedData now type p d ttl s = Some (b, s1) ->
  exists key sk,
    createCacheKey type p s = Some (key, sk)
    /\ forall c k', (c <> getCacheForType type (minutes p) \/ k' <> key) ->
         data (cache_of c s1) !! k' = data (cache_of c s) !! k'.
Proof.
  unfold setCachedData, bind. intros H.
  destruct (createCacheKey type p s) as [[key sk]|] eqn:Hk; [|done].
  exists key, sk. split; [done|]. intros c k' Hne.
  destruct (createCacheKey_frame _ _ _ _ _ Hk) as (_ & Hcaches & _).
  rewrite <- Hcaches. by eapply cache_set_data.
Qed.

Lemma setCachedData_touches_one_entry_witness :
  let p := Params (Some "AAPL"%string) None (Some 5) (Some "average"%string) in
  let s : state Z := initial_state ∅ {[ 7%nat := 42 ]} in
  exists s1,
    setCachedData 1000 "stockPrice" p 7%nat (Some 5%float) s = Some (true, s1)
    /\ exists key sk,
         createCacheKey "stockPrice" p s = Some (key, sk)
         /\ forall c k', (c <> getCacheForType "stockPrice" (minutes p) \/ k' <> key) ->
              data (cache_of c s1) !! k' = data (cache_of c s) !! k'.
Proof.
  intros p s. eexists. split; [vm_compute; reflexivity|].
  eapply (setCachedData_touches_one_entry s _ 1000 "stockPrice" p 7%nat
            (Some 5%float) true).
  vm_compute; reflexivity.
Defined.

(** An entry that is read after its expiry is a miss; the read deletes
    it, so that every later read of the key misses too, at any time. *)
Theorem getCachedData_after_expiry_misses {V} (s s1 : state V)
    (now now' now'' : float) (type : string) (p : params) (l : loc)
    (ttl : option float) (b : bool) :
  as_configured s ->
  setCachedData now type p l ttl s = Some (b, s1) ->
  expired (Wrapped (livetime (cache_of (getCacheForType type (minutes p)) s) now ttl) l)
          now' = true ->
  exists s2,
    getCachedData now' type p s1 = Some (None, s2)
    /\ getCachedData now'' type p s2 = Some (None, s2).
Proof.
  intros Hc Hset Hdead.
  destruct (setCachedData_stores_reference _ _ _ _ _ _ _ _ Hc Hset)
    as (key & sk & Hk & Harr & Hc1 & Hdata).
  set (c := getCacheForType type (minutes p)) in *.
  set (n1 := cache_of c s1).
  set (s2 := with_cache c (with_data n1 (delete key (data n1))) s1).
  assert (Harr2 : arrays s2 = arrays sk).
  { rewrite <- Harr. unfold s2. by destruct c. }
  exists s2. split.
  - unfold getCachedData, bind.
    rewrite (createCacheKey_again s sk s1 type p key Hk) by done.
    unfold cache_get. fold c. fold n1. unfold n1 at 1. by rewrite Hdata, Hdead.
  - unfold getCachedData, bind.
    rewrite (createCacheKey_again s sk s2 type p key Hk) by done.
    apply cache_get_miss. fold c. unfold s2.
    destruct c; simpl; apply lookup_delete_eq.
Qed.

Lemma getCachedData_after_expiry_misses_witness :
  let p := Params (Some "AAPL"%string) None (Some 5) (Some "average"%string) in
  let s : state Z := initial_state ∅ {[ 7%nat := 42 ]} in
  exists s1,
    setCachedData 1000 "stockPrice" p 7%nat (Some 5%float) s = Some (true, s1)
    /\ exists s2,
         getCachedData 7000 "stockPrice" p s1 = Some (None, s2)
         /\ getCachedData 0 "stockPrice" p s2 = Some (None, s2).
Proof.
  intros p s. eexists. split; [vm_compute; reflexivity|].
  eapply (getCachedData_after_expiry_misses s _ 1000 7000 0 "stockPrice" p 7%nat
            (Some 5%float) true).
  - intros []; reflexivity.
  - vm_compute; reflexivity.
  - vm_compute; reflexivity.
Defined.

(** ** Retries against the upstream *)

Lemma retry_loop_success {R E} (get : nat -> attempt R E) (maxRetries k : nat) (r : R)
    (d j fuel : nat) (acc : list Z) :
  (k < maxRetries)%nat -> (k = j + d)%nat -> (d < fuel)%nat ->
  (forall i, (j <= i < k)%nat -> exists e, get i = Rejected e) ->
  get k = Resolved r ->
  retry_loop get maxRetries j fuel acc
  = (Returned r, acc ++ map (fun i => 2 ^ Z.of_nat i * 300) (seq (S j) d)).
Proof.
  revert j fuel acc. induction d as [|d IH]; intros j fuel acc Hk Hj Hfuel Hrej Hres.
  - destruct fuel as [|fuel]; [lia|]. cbn [retry_loop].
    rewrite (proj2 (Nat.ltb_lt j maxRetries)) by lia.
    replace j with k by lia. by rewrite Hres, app_nil_r.
  - destruct fuel as [|fuel]; [lia|]. cbn [retry_loop].
    rewrite (proj2 (Nat.ltb_lt j maxRetries)) by lia.
    destruct (Hrej j ltac:(lia)) as [e ->].
    rewrite (proj2 (Nat.eqb_neq (S j) maxRetries)) by lia.
    rewrite (IH (S j)); [|lia..| |done].
    + by rewrite <- app_assoc.
    + intros i Hi. apply Hrej. lia.
Qed.

Lemma retry_loop_failure {R E} (get : nat -> attempt R E) (maxRetries : nat) (e : E)
    (d j fuel : nat) (acc : list Z) :
  (S (j + d) = maxRetries)%nat -> (d < fuel)%nat ->
  (forall i, (j <= i < maxRetries)%nat -> exists e', get i = Rejected e') ->
  get (j + d)%nat = Rejected e ->
  retry_loop get maxRetries j fuel acc
  = (Threw e, acc ++ map (fun i => 2 ^ Z.of_nat i * 300) (seq (S j) d)).
Proof.
  revert j fuel acc. induction d as [|d IH]; intros j fuel acc Hj Hfuel Hrej Hlast.
  - destruct fuel as [|fuel]; [lia|]. cbn [retry_loop].
    rewrite (proj2 (Nat.ltb_lt j maxRetries)) by lia.
    rewrite Nat.add_0_r in Hlast. rewrite Hlast.
    rewrite (proj2 (Nat.eqb_eq (S j) maxRetries)) by lia. by rewrite app_nil_r.
  - destruct fuel as [|fuel]; [lia|]. cbn [retry_loop].
    rewrite (proj2 (Nat.ltb_lt j maxRetries)) by lia.
    destruct (Hrej j ltac:(lia)) as [e' ->].
    rewrite (proj2 (Nat.eqb_neq (S j) maxRetries)) by lia.
    rewrite (IH (S j)); [|lia..| |].
    + by rewrite <- app_assoc.
    + intros i Hi. apply Hrej. lia.
    + by replace (S j + d)%nat with (j + S d)%nat by lia.
Qed.

Lemma backoff_total (k : nat) : foldr Z.add 0 (backoff k) = 600 * (2 ^ Z.of_nat k - 1).
Proof.
  unfold backoff. induction k as [|k IH]; [done|].
  rewrite seq_S, map_app, foldr_app. simpl.
  assert (Hshift : forall (l : list Z) a, foldr Z.add a l = foldr Z.add 0 l + a).
  { intros l a. induction l as [|x l IHl]; simpl; lia. }
  rewrite Hshift, IH.
  replace (Z.of_nat (S k)) with (Z.succ (Z.of_nat k)) by lia.
  rewrite Z.pow_succ_r by lia. lia.
Qed.

(** [fetchWithRetry] returns the first response that the upstream
    gives within [maxRetries] attempts, after waiting 600, 1200, ...
    milliseconds, once before each repeated attempt ([600 * (2^k - 1)]
    in all before attempt [k]); when all attempts fail it throws the error
    of the last one, without waiting after it.  With [maxRetries = 0] it
    makes no attempt and returns [undefined]. *)
Theorem fetchWithRetry_schedule {R E} (get : nat -> attempt R E) (maxRetries : nat) :
  (forall k r, (k < maxRetries)%nat ->
     (forall i, (i < k)%nat -> exists e, get i = Rejected e) ->
     get k = Resolved r ->
     fetchWithRetry get maxRetries = (Returned r, backoff k)
     /\ foldr Z.add 0 (backoff k) = 600 * (2 ^ Z.of_nat k - 1))
  /\ (forall e, (0 < maxRetries)%nat ->
     (forall i, (i < maxRetries)%nat -> exists e', get i = Rejected e') ->
     get (maxRetries - 1)%nat = Rejected e ->
     fetchWithRetry get maxRetries = (Threw e, backoff (maxRetries - 1)))
  /\ (maxRetries = 0%nat -> fetchWithRetry get maxRetries = (ReturnedUndefined, [])).
Proof.
  split; [|split].
  - intros k r Hk Hrej Hres. split; [|apply backoff_total].
    unfold fetchWithRetry, backoff.
    rewrite (retry_loop_success get maxRetries k r k 0 (S maxRetries) []);
      [done|lia..| |done].
    intros i Hi. apply Hrej. lia.
  - intros e Hpos Hrej Hlast. unfold fetchWithRetry, backoff.
    rewrite (retry_loop_failure get maxRetries e (maxRetries - 1) 0 (S maxRetries) []);
      [done|lia..| |done].
    intros i Hi. apply Hrej. lia.
  - by intros ->.
Qed.

Lemma fetchWithRetry_witness :
  let get : nat -> attempt nat string :=
    fun i => match i with 2%nat => Resolved 7%nat | _ => Rejected "down"%string end in
  fetchWithRetry get 3 = (Returned 7%nat, [600; 1200])
  /\ fetchWithRetry (fun _ => Rejected (R := nat) "down"%string) 3
     = (Threw "down"%string, [600; 1200]).
Proof.
  intros get. split.
  - refine (proj1 (proj1 (fetchWithRetry_schedule get 3) 2%nat 7%nat _ _ _));
      [lia| |reflexivity].
    intros [|[|i]] Hi; [by eexists..|lia].
  - refine (proj1 (proj2 (fetchWithRetry_schedule _ 3)) _ _ _ _);
      [lia| |reflexivity].
    intros i _. by eexists.
Defined.

(** ** The history that the service hands on *)

Lemma filteredHistory_elem_of (h : list entry) (threshold : Z) (e : entry) :
  e ∈ filteredHistory h threshold <-> e ∈ h /\ threshold <= lastUpdatedAt e.
Proof.
  unfold filteredHistory. rewrite sort_by_elem_of, !list_elem_of_In, filter_In.
  by rewrite Z.leb_le.
Qed.

(** The history that [fetchStockPriceHistory] stores and returns holds
    exactly the upstream entries from the threshold on, as often as the
    upstream has them, and is in ascending order of instant: this sort has
    a numeric comparator, so the order holds for all instants. *)
Theorem filteredHistory_sorted_and_recent (h : list entry) (threshold : Z) :
  Sorted Z.le (timestamps_of (filteredHistory h threshold))
  /\ filteredHistory h threshold
     ≡ₚ List.filter (fun e => threshold <=? lastUpdatedAt e) h
  /\ (forall e, e ∈ filteredHistory h threshold <->
                e ∈ h /\ threshold <= lastUpdatedAt e).
Proof.
  split; [|split; [apply sort_by_perm|apply filteredHistory_elem_of]].
  unfold filteredHistory, timestamps_of.
  apply (Sorted_fmap lastUpdatedAt
           (fun a b => (lastUpdatedAt a - lastUpdatedAt b <=? 0) = true) Z.le).
  - intros a b Hab. apply Z.leb_le in Hab. lia.
  - apply sort_by_sorted. intros a b.
    destruct (Z.leb_spec (lastUpdatedAt a - lastUpdatedAt b) 0); [by left|].
    right. apply Z.leb_le. lia.
Qed.

(** ** Times to live *)

Lemma ttl_in_range_all :
  forallb (fun i => CorrelationTtl.ttl_in_range (Z.of_nat i)) (seq 1 1440) = true.
Proof. vm_compute. reflexivity. Qed.

(** For every window that the validators let pass, 1 to 1440 minutes,
    the time to live of a stock price result is between 5 and 30 seconds,
    that of a correlation result between 10 and 60, that of a history
    between 0.2 and 60; none of them is 0 or [NaN], so the entry gets the
    expiry [now + ttl * 1000] and never the "no expiry" that node-cache
    gives to a time to live of 0. *)
Theorem time_to_live_in_range (minutes : Z) (n : NodeCache) (now : float) :
  1 <= minutes <= 1440 ->
  ((5 <=? StockController.cacheTtl minutes)%float = true
   /\ (StockController.cacheTtl minutes <=? 30)%float = true)
  /\ ((10 <=? CorrelationTtl.cacheTtl minutes)%float = true
      /\ (CorrelationTtl.cacheTtl minutes <=? 60)%float = true)
  /\ ((fifth <=? smartTtl minutes)%float = true
      /\ (smartTtl minutes <=? 60)%float = true)
  /\ livetime n now (Some (StockController.cacheTtl minutes))
     = (now + StockController.cacheTtl minutes * 1000)%float
  /\ livetime n now (Some (CorrelationTtl.cacheTtl minutes))
     = (now + CorrelationTtl.cacheTtl minutes * 1000)%float
  /\ livetime n now (Some (smartTtl minutes))
     = (now + smartTtl minutes * 1000)%float.
Proof.
  intros Hm.
  pose proof ttl_in_range_all as Hall. rewrite forallb_forall in Hall.
  specialize (Hall (Z.to_nat minutes)).
  rewrite Z2Nat.id in Hall by lia.
  assert (Hin : In (Z.to_nat minutes) (seq 1 1440)) by (apply in_seq; lia).
  specialize (Hall Hin). unfold CorrelationTtl.ttl_in_range in Hall.
  cbv zeta in Hall. rewrite !andb_true_iff in Hall.
  destruct Hall as [[[[? ?] ?] [[? ?] ?]] [[? ?] ?]].
  assert (Hlive : forall ttl, Js.truthy_number ttl = true ->
            livetime n now (Some ttl) = (now + ttl * 1000)%float).
  { intros ttl Ht. unfold livetime. cbn [default from_option]. unfold id.
    pose proof Ht as Hz. unfold Js.truthy_number in Hz.
    apply andb_true_iff in Hz as [Hz _].
    apply negb_true_iff in Hz. by rewrite Hz, Ht. }
  repeat split; auto.
Qed.

Lemma time_to_live_in_range_witness :
  (5 <=? StockController.cacheTtl 60)%float = true
  /\ (StockController.cacheTtl 60 <=? 30)%float = true.
Proof.
  exact (proj1 (time_to_live_in_range 60 new_shortTermCache 0 ltac:(lia))).
Defined.

(** ** Validation of requests *)

(** A stock request that passes [validateStockParams] has a window of 1
    to 1440 minutes, one of the four aggregations and the ticker of the
    request in upper case, which is not blank.  A [minutes] that parses
    to 0 or to [NaN] is not rejected: it is replaced by 5. *)
Theorem validateStockParams_accepted `{E : Js.Engine}
    (req : stock_request) (vp : stock_params) :
  validateStockParams req = inr vp ->
  1 <= sp_minutes vp <= 1440
  /\ sp_aggregation vp ∈ validAggregations
  /\ (exists t, param_ticker req = Some t /\ Js.trim t <> ""%string
                /\ sp_ticker vp = Js.toUpperCase t)
  /\ ((parsed_minutes req = None \/ parsed_minutes req = Some 0) -> sp_minutes vp = 5)
  /\ (forall z, parsed_minutes req = Some z -> z <> 0 -> sp_minutes vp = z).
Proof.
  unfold validateStockParams.
  destruct (param_ticker req) as [t|]; [|done].
  destruct (String.eqb t "" || String.eqb (Js.trim t) "") eqn:Hblank; [done|].
  apply orb_false_iff in Hblank as [_ Htrim]. apply String.eqb_neq in Htrim.
  destruct ((number_or (parsed_minutes req) 5 <=? 0)
            || (1440 <? number_or (parsed_minutes req) 5)) eqn:Hrange; [done|].
  apply orb_false_iff in Hrange as [Hlo Hhi].
  apply Z.leb_gt in Hlo. apply Z.ltb_ge in Hhi.
  destruct (array_includes validAggregations
              (string_or (query_aggregation req) "average")) eqn:Hagg; [|done].
  intros [= <-]. simpl.
  split; [lia|]. split.
  { unfold array_includes in Hagg. apply existsb_exists in Hagg as (x & Hx & Heq).
    apply String.eqb_eq in Heq as ->. by apply list_elem_of_In. }
  split; [eauto|]. unfold number_or. split.
  - intros [-> | ->]; done.
  - intros z -> Hz. by rewrite (proj2 (Z.eqb_neq z 0)).
Qed.

Lemma validateStockParams_accepted_witness :
  let req := StockRequest (Some "aapl"%string) (Some 0) None in
  exists vp, @validateStockParams AsciiEngine.engine req = inr vp
             /\ 1 <= sp_minutes vp <= 1440 /\ sp_minutes vp = 5
             /\ sp_ticker vp = "AAPL"%string.
Proof.
  intros req. eexists. split; [reflexivity|].
  destruct (@validateStockParams_accepted AsciiEngine.engine req _ eq_refl)
    as (H1 & _ & _ & H5 & _).
  split; [exact H1|]. split; [apply H5; by right|reflexivity].
Defined.

(** A correlation request that passes [validateCorrelationParams] has
    exactly two tickers, the two of the request in upper case and in the
    order of the request, none of them blank, and a window of 1 to 1440
    minutes, 60 when [minutes] parses to 0 or to [NaN]. *)
Theorem validateCorrelationParams_accepted `{E : Js.Engine}
    (req : correlation_request) (vp : correlation_params) :
  validateCorrelationParams req = inr vp ->
  1 <= cp_minutes vp <= 1440
  /\ (exists a b, query_ticker req = QArray [a; b]
                  /\ cp_tickers vp = [Js.toUpperCase a; Js.toUpperCase b]
                  /\ Js.trim a <> ""%string /\ Js.trim b <> ""%string)
  /\ ((parsed_minutes_c req = None \/ parsed_minutes_c req = Some 0) ->
      cp_minutes vp = 60)
  /\ (forall z, parsed_minutes_c req = Some z -> z <> 0 -> cp_minutes vp = z).
Proof.
  unfold validateCorrelationParams.
  destruct (query_ticker req) as [|s|l]; [done|done|].
  destruct l as [|a [|b [|c l]]]; try done.
  cbn [map length Nat.eqb negb orb existsb omap id].
  change (list_omap _ _ id [Some a; Some b]) with [a; b]. cbn [existsb map].
  destruct (String.eqb (Js.trim a) "") eqn:Ha; [done|].
  destruct (String.eqb (Js.trim b) "") eqn:Hb; [done|].
  apply String.eqb_neq in Ha, Hb. cbn [orb].
  destruct ((number_or (parsed_minutes_c req) 60 <=? 0)
            || (1440 <? number_or (parsed_minutes_c req) 60)) eqn:Hrange; [done|].
  apply orb_false_iff in Hrange as [Hlo Hhi].
  apply Z.leb_gt in Hlo. apply Z.ltb_ge in Hhi.
  intros [= <-]. simpl. split; [lia|]. split; [eauto 10|].
  unfold number_or. split.
  - intros [-> | ->]; done.
  - intros z -> Hz. by rewrite (proj2 (Z.eqb_neq z 0)).
Qed.

Lemma validateCorrelationParams_accepted_witness :
  let req := CorrelationRequest (QArray ["msft"; "aapl"]%string) None in
  exists vp, @validateCorrelationParams AsciiEngine.engine req = inr vp
             /\ cp_minutes vp = 60 /\ cp_tickers vp = ["MSFT"; "AAPL"]%string.
Proof.
  intros req. eexists. split; [reflexivity|].
  destruct (@validateCorrelationParams_accepted AsciiEngine.engine req _ eq_refl)
    as (_ & _ & H60 & _).
  split; [apply H60; by left|reflexivity].
Defined.

(** ** The stock price handler *)

Lemma getCachedData_miss_inv {V} (s s1 : state V) now type p key :
  as_configured s ->
  createCacheKey type p s = Some (key, s) ->
  getCachedData now type p s = Some (None, s1) ->
  as_configured s1
  /\ objects s1 = objects s
  /\ data (cache_of (getCacheForType type (minutes p)) s1) !! key = None
  /\ (forall c k, data (cache_of c s) !! k = None -> data (cache_of c s1) !! k = None).
Proof.
  intros Hc Hk. unfold getCachedData, bind. rewrite Hk.
  set (c := getCacheForType type (minutes p)).
  unfold cache_get, bind, pass_value, ret. rewrite (Hc c).
  destruct (data (cache_of c s) !! key) as [w|] eqn:Hw.
  - destruct (expired w now); [|done]. intros [= <-].
    split; [intros c'; specialize (Hc c'); by destruct c, c'|].
    split; [by destruct c|]. split.
    + destruct c; simpl; apply lookup_delete_eq.
    + intros c' k Hnone. destruct c, c'; simpl in *; try done.
      all: apply lookup_delete_None; by right.
  - intros [= <-]. done.
Qed.

Lemma getCachedData_live {V} (s : state V) now type p key w :
  as_configured s ->
  createCacheKey type p s = Some (key, s) ->
  data (cache_of (getCacheForType type (minutes p)) s) !! key = Some w ->
  expired w now = false ->
  getCachedData now type p s = Some (Some (v w), s).
Proof.
  intros Hc Hk Hw Hlive. unfold getCachedData, bind. rewrite Hk.
  unfold cache_get, bind, pass_value, ret. by rewrite Hw, Hlive, Hc.
Qed.

Lemma getCachedData_absent {V} (s : state V) now type p key :
  createCacheKey type p s = Some (key, s) ->
  data (cache_of (getCacheForType type (minutes p)) s) !! key = None ->
  getCachedData now type p s = Some (None, s).
Proof.
  intros Hk Hw. unfold getCachedData, bind. rewrite Hk. by apply cache_get_miss.
Qed.

Lemma setCachedData_result {V} (s : state V) now type p key l ttl :
  as_configured s ->
  createCacheKey type p s = Some (key, s) ->
  setCachedData now type p l ttl s
  = Some (true,
          let c := getCacheForType type (minutes p) in
          let n := cache_of c s in
          with_cache c (with_data n (<[key := Wrapped (livetime n now ttl) l]> (data n))) s).
Proof.
  intros Hc Hk. unfold setCachedData, bind. rewrite Hk.
  unfold cache_set, bind, pass_value, ret. by rewrite Hc.
Qed.

Lemma with_cache_configured {V} (s : state V) c d :
  as_configured s -> as_configured (with_cache c (with_data (cache_of c s) d) s).
Proof. intros Hc c'. specialize (Hc c'). by destruct c, c'. Qed.

Lemma with_cache_lookup {V} (s : state V) c d :
  data (cache_of c (with_cache c (with_data (cache_of c s) d) s)) = d.
Proof. by destruct c. Qed.

Lemma with_cache_objects {V} (s : state V) c n : objects (with_cache c n s) = objects s.
Proof. by destruct c. Qed.

Lemma alloc_spec (o : object) (s : state object) :
  exists l s1,
    alloc o s = Some (l, s1)
    /\ objects s !! l = None
    /\ objects s1 = <[l := o]> (objects s)
    /\ (forall c, cache_of c s1 = cache_of c s)
    /\ arrays s1 = arrays s.
Proof.
  unfold alloc. eexists _, _. split; [done|]. split.
  - apply not_elem_of_dom, is_fresh.
  - split; [done|]. split; [by intros []|done].
Qed.

Lemma history_key_is_no_price_key (a b : string) :
  ("history:" +:+ a)%string <> ("stock:" +:+ b)%string.
Proof.
  intros H. apply (f_equal (String.get 0)) in H. vm_compute in H. discriminate.
Qed.

Lemma livetime_of_ttl_in_range (n : NodeCache) (now : float) (minutes : Z) :
  1 <= minutes <= 1440 ->
  livetime n now (Some (StockController.cacheTtl minutes))
  = (now + StockController.cacheTtl minutes * 1000)%float
  /\ livetime n now (Some (smartTtl minutes)) = (now + smartTtl minutes * 1000)%float.
Proof.
  intros Hm.
  pose proof ttl_in_range_all as Hall. rewrite forallb_forall in Hall.
  specialize (Hall (Z.to_nat minutes)).
  rewrite Z2Nat.id in Hall by lia.
  assert (Hin : In (Z.to_nat minutes) (seq 1 1440)) by (apply in_seq; lia).
  specialize (Hall Hin). unfold CorrelationTtl.ttl_in_range in Hall.
  cbv zeta in Hall. rewrite !andb_true_iff in Hall.
  destruct Hall as [[[_ Hp] _] [_ Hh]].
  assert (Hlive : forall ttl, Js.truthy_number ttl = true ->
            livetime n now (Some ttl) = (now + ttl * 1000)%float).
  { intros ttl Ht. unfold livetime. cbn [default from_option]. unfold id.
    pose proof Ht as Hz. unfold Js.truthy_number in Hz.
    apply andb_true_iff in Hz as [Hz _].
    apply negb_true_iff in Hz. by rewrite Hz, Ht. }
  split; by apply Hlive.
Qed.

Lemma not_after_is_live (expiry now : float) (l : loc) :
  (expiry <? now)%float = false -> expired (Wrapped expiry l) now = false.
Proof. intros H. unfold expired. cbn [t]. rewrite H. apply andb_false_r. Qed.

Lemma createCacheKey_stockHistory {V} (s : state V) symbol tk m g :
  createCacheKey "stockHistory" (Params (Some symbol) tk (Some m) g) s
  = Some (("history:" +:+ symbol +:+ ":" +:+ Js.number_to_string m)%string, s).
Proof. reflexivity. Qed.

Lemma createCacheKey_stockPrice {V} (s : state V) symbol tk m g :
  createCacheKey "stockPrice" (Params (Some symbol) tk (Some m) (Some g)) s
  = Some (("stock:" +:+ symbol +:+ ":" +:+ Js.number_to_string m +:+ ":" +:+ g)%string, s).
Proof. reflexivity. Qed.

(** A history that is not in the cache is fetched, filtered, put on the
    heap and stored under the history key for [smartTtl] seconds. *)
Lemma fetchStockPriceHistory_fresh (s s2 : state object) (now later : float)
    (threshold : Z) (get : nat -> attempt (option (list entry)) client_error)
    (symbol : string) (m : Z) (k : nat) (h : list entry) :
  as_configured s -> 1 <= m <= 1440 ->
  getCachedData now "stockHistory" (Params (Some symbol) None (Some m) None) s
  = Some (None, s2) ->
  (k < 3)%nat -> (forall i, (i < k)%nat -> exists e, get i = Rejected e) ->
  get k = Resolved (Some h) ->
  let c := getCacheForType "stockHistory" (Some m) in
  let key := ("history:" +:+ symbol +:+ ":" +:+ Js.number_to_string m)%string in
  exists lh s3,
    fetchStockPriceHistory now later threshold get symbol m s = Some (inr lh, s3)
    /\ as_configured s3
    /\ objects s !! lh = None
    /\ objects s3 = <[lh := HistoryArray (filteredHistory h threshold)]> (objects s)
    /\ data (cache_of c s3) !! key = Some (Wrapped (later + smartTtl m * 1000) lh)
    /\ (forall k', k' <> key ->
          data (cache_of c s) !! k' = None -> data (cache_of c s3) !! k' = None).
Proof.
  intros Hc Hm Hmiss Hk Hrej Hres c key.
  destruct (getCachedData_miss_inv s s2 now _ _ key Hc
              (createCacheKey_stockHistory s symbol None m None) Hmiss)
    as (Hc2 & Hobj2 & _ & Hnone2).
  destruct (alloc_spec (HistoryArray (filteredHistory h threshold)) s2)
    as (lh & sa & Ha & Hfresh & Hobja & Hcaches & _).
  assert (Hca : as_configured sa).
  { intros c'. rewrite Hcaches. apply Hc2. }
  exists lh. eexists. split.
  - unfold fetchStockPriceHistory, bind. rewrite Hmiss.
    unfold fetchWithRetry.
    rewrite (retry_loop_success get 3 k (Some h) k 0 4 []); [|lia..| |done].
    2:{ intros i Hi. apply Hrej. lia. }
    cbn [fst]. rewrite Ha.
    rewrite (setCachedData_result sa later _ _ key lh _ Hca
               (createCacheKey_stockHistory sa symbol None m None)).
    reflexivity.
  - cbv zeta. cbn [minutes]. fold c.
    split; [by apply with_cache_configured|].
    split; [by rewrite <- Hobj2|].
    split; [by rewrite with_cache_objects, Hobja, Hobj2|].
    rewrite with_cache_lookup. split.
    + rewrite lookup_insert_eq.
      by rewrite (proj2 (livetime_of_ttl_in_range _ later m Hm)).
    + intros k' Hne Hnone. rewrite lookup_insert_ne by done.
      rewrite Hcaches. by apply Hnone2.
Qed.

(** A valid aggregation returns a value unless it is [min] or [max]
    over more numbers than one call can pass. *)
Lemma calculateAggregation_returns `{E : Js.Engine} (xs : list float) (g : string) :
  g ∈ validAggregations ->
  (g = "min"%string \/ g = "max"%string ->
   (N.of_nat (length xs) <= Js.max_arguments)%N) ->
  exists agg, calculateAggregation xs (Some g) = Js.Normal agg.
Proof.
  intros Hg Hlen. unfold calculateAggregation. destruct xs as [|x xs]; [by eexists|].
  apply list_elem_of_In in Hg. simpl in Hg.
  destruct Hg as [<-|[<-|[<-|[<-|[]]]]]; cbn; try by eexists.
  all: unfold Js.spread;
    rewrite (proj2 (N.ltb_ge _ _)) by (apply Hlen; auto); by eexists.
Qed.

(** When the result and the history of a request are not in the cache
    and the upstream answers within three attempts with a history of which
    some entry is in the window, [getStockPrice] answers with a new object
    that holds the aggregation of the prices of the filtered history and the
    filtered history itself (by reference), and leaves the older objects of
    the heap as they were.  Until the time to live of the result has passed,
    the same request is answered with that same object, without a change of
    the state, whatever the upstream would say.  The aggregation is one of
    the validator's four; for [min] and [max] the filtered history is no
    longer than one call can pass as arguments; for [median] no price is
    [NaN] (no number of a JSON text is), so that the comparator of the sort
    is consistent and the sorted order does not depend on the engine. *)
Theorem getStockPrice_computes_then_serves_cached `{E : Js.Engine} (s s1 s2 : state object)
    (now later : float) (threshold : Z)
    (get : nat -> attempt (option (list entry)) client_error)
    (symbol : string) (m : Z) (g : string) (k : nat) (h : list entry) :
  as_configured s -> 1 <= m <= 1440 ->
  g ∈ validAggregations ->
  (g = "min"%string \/ g = "max"%string ->
   (N.of_nat (length (filteredHistory h threshold)) <= Js.max_arguments)%N) ->
  (g = "median"%string -> Forall (fun e => PrimFloat.is_nan (price e) = false) h) ->
  getCachedData now "stockPrice" (Params (Some symbol) None (Some m) (Some g)) s
  = Some (None, s1) ->
  getCachedData now "stockHistory" (Params (Some symbol) None (Some m) None) s1
  = Some (None, s2) ->
  (k < 3)%nat -> (forall i, (i < k)%nat -> exists e, get i = Rejected e) ->
  get k = Resolved (Some h) ->
  filteredHistory h threshold <> [] ->
  exists agg lh lr s',
    calculateAggregation (map price (filteredHistory h threshold)) (Some g)
    = Js.Normal agg
    /\ getStockPrice now later threshold get symbol m g s = Some (Json lr, s')
    /\ objects s' !! lr = Some (StockResult agg lh)
    /\ objects s' !! lh = Some (HistoryArray (filteredHistory h threshold))
    /\ objects s ⊆ objects s'
    /\ forall now2 later2 threshold2 get2,
         (later + cacheTtl m * 1000 <? now2)%float = false ->
         getStockPrice now2 later2 threshold2 get2 symbol m g s' = Some (Json lr, s').
Proof.
  intros Hc Hm Hg Hlen _ Hp Hh Hk Hrej Hres Hne.
  destruct (getCachedData_miss_inv s s1 now _ _ _ Hc
              (createCacheKey_stockPrice s symbol None m g) Hp)
    as (Hc1 & Hobj1 & _ & _).
  destruct (fetchStockPriceHistory_fresh s1 s2 now later threshold get symbol m k h
              Hc1 Hm Hh Hk Hrej Hres)
    as (lh & s3 & Hf & Hc3 & Hfresh & Hobj3 & _ & _).
  destruct (calculateAggregation_returns
              (map price (filteredHistory h threshold)) g Hg) as [agg Hagg].
  { by rewrite length_map. }
  destruct (alloc_spec (StockResult agg lh) s3)
    as (lr & sr & Har & Hfr & Hobjr & Hcachesr & _).
  assert (Hcr : as_configured sr).
  { intros c'. rewrite Hcachesr. apply Hc3. }
  pose proof (setCachedData_result sr later _ _ _ lr (Some (cacheTtl m)) Hcr
                (createCacheKey_stockPrice sr symbol None m g)) as Hset.
  cbv zeta in Hset. cbn [minutes] in Hset.
  set (c := getCacheForType "stockPrice" (Some m)) in *.
  rewrite (proj1 (livetime_of_ttl_in_range (cache_of c sr) later m Hm)) in Hset.
  exists agg, lh, lr. eexists. split; [exact Hagg|].
  split; [|split; [|split; [|split]]].
  - unfold getStockPrice, bind. rewrite Hp, Hf. rewrite Hobj3, lookup_insert_eq.
    destruct (filteredHistory h threshold) as [|e0 h0] eqn:Hfh; [done|].
    rewrite Hagg, Har, Hset. reflexivity.
  - rewrite with_cache_objects, Hobjr. apply lookup_insert_eq.
  - rewrite with_cache_objects, Hobjr, Hobj3.
    rewrite lookup_insert_ne; [apply lookup_insert_eq|].
    intros <-. rewrite Hobj3, lookup_insert_eq in Hfr. done.
  - rewrite with_cache_objects, Hobjr, Hobj3, <- Hobj1.
    etrans; [apply insert_subseteq, Hfresh|].
    apply insert_subseteq. by rewrite <- Hobj3.
  - intros now2 later2 threshold2 get2 Hlive.
    unfold getStockPrice, bind.
    rewrite (getCachedData_live _ now2 _ _
               ("stock:" +:+ symbol +:+ ":" +:+ Js.number_to_string m +:+ ":" +:+ g)%string
               (Wrapped (later + cacheTtl m * 1000) lr));
      [reflexivity
      |by apply with_cache_configured
      |apply createCacheKey_stockPrice
      |cbn [minutes]; fold c; rewrite with_cache_lookup; apply lookup_insert_eq
      |by apply not_after_is_live].
Qed.

Lemma getStockPrice_computes_then_serves_cached_witness :
  let get : nat -> attempt (option (list entry)) client_error :=
    fun _ => Resolved (Some [Entry 12 50 false; Entry 10 20 false; Entry 9 3 false]) in
  let s : state object := initial_state ∅ ∅ in
  exists lh lr s',
    @getStockPrice AsciiEngine.engine 0 100 10 get "AAPL" 5 "max" s = Some (Json lr, s')
    /\ objects s' !! lr = Some (StockResult (Some 12%float) lh)
    /\ objects s' !! lh = Some (HistoryArray [Entry 10 20 false; Entry 12 50 false]).
Proof.
  intros get s.
  destruct (@getStockPrice_computes_then_serves_cached AsciiEngine.engine
              s s s 0 100 10 get "AAPL" 5 "max" 0
              [Entry 12 50 false; Entry 10 20 false; Entry 9 3 false])
    as (agg & lh & lr & s' & Hagg & Hrun & Hr & Hl & _).
  - intros []; reflexivity.
  - lia.
  - vm_compute. repeat constructor.
  - intros _. vm_compute. discriminate.
  - discriminate.
  - vm_compute; reflexivity.
  - vm_compute; reflexivity.
  - lia.
  - intros i Hi; lia.
  - reflexivity.
  - vm_compute; discriminate.
  - exists lh, lr, s'. split; [exact Hrun|]. split; [|exact Hl].
    rewrite Hr. vm_compute in Hagg. by injection Hagg as <-.
Defined.

(** When [min] or [max] is asked over a filtered history that is longer
    than one call can pass as arguments, [Math.min(...prices)] throws a
    RangeError, which has no status: [getStockPrice] hands a 500 with the
    wrapper "Failed to process stock data" to [next] and stores no result.
    The history has been stored before, so that, until its time to live
    has passed, the same request fails in the same way without asking the
    upstream. *)
Theorem getStockPrice_too_many_prices `{E : Js.Engine} (s s1 s2 : state object)
    (now later : float) (threshold : Z)
    (get : nat -> attempt (option (list entry)) client_error)
    (symbol : string) (m : Z) (g : string) (k : nat) (h : list entry) :
  as_configured s -> 1 <= m <= 1440 ->
  g = "min"%string \/ g = "max"%string ->
  (Js.max_arguments < N.of_nat (length (filteredHistory h threshold)))%N ->
  getCachedData now "stockPrice" (Params (Some symbol) None (Some m) (Some g)) s
  = Some (None, s1) ->
  getCachedData now "stockHistory" (Params (Some symbol) None (Some m) None) s1
  = Some (None, s2) ->
  (k < 3)%nat -> (forall i, (i < k)%nat -> exists e, get i = Rejected e) ->
  get k = Resolved (Some h) ->
  let failure :=
    Next (HttpError 500 ("Failed to process stock data: " +:+ Js.range_error_message)) in
  exists s',
    getStockPrice now later threshold get symbol m g s = Some (failure, s')
    /\ (forall now2,
          getCachedData now2 "stockPrice" (Params (Some symbol) None (Some m) (Some g)) s'
          = Some (None, s'))
    /\ forall now2 later2 threshold2 get2,
         (later + smartTtl m * 1000 <? now2)%float = false ->
         getStockPrice now2 later2 threshold2 get2 symbol m g s' = Some (failure, s').
Proof.
  intros Hc Hm Hg Hlen Hp Hh Hk Hrej Hres failure.
  destruct (getCachedData_miss_inv s s1 now _ _ _ Hc
              (createCacheKey_stockPrice s symbol None m g) Hp)
    as (Hc1 & Hobj1 & Hp1 & _).
  destruct (fetchStockPriceHistory_fresh s1 s2 now later threshold get symbol m k h
              Hc1 Hm Hh Hk Hrej Hres)
    as (lh & s3 & Hf & Hc3 & Hfresh & Hobj3 & Hh3 & Hkeep).
  assert (Hthrow : calculateAggregation (map price (filteredHistory h threshold)) (Some g)
                   = Js.ThrowRangeError).
  { unfold calculateAggregation.
    destruct (map price (filteredHistory h threshold)) as [|x xs] eqn:Hxs.
    - apply (f_equal length) in Hxs. rewrite length_map in Hxs.
      rewrite Hxs in Hlen. simpl in Hlen. lia.
    - rewrite <- Hxs. unfold Js.spread. rewrite length_map.
      rewrite (proj2 (N.ltb_lt _ _) Hlen). by destruct Hg as [-> | ->]. }
  assert (Hne : filteredHistory h threshold <> []).
  { intros Hnil. rewrite Hnil in Hlen. simpl in Hlen. lia. }
  assert (Hp3 : forall now2,
            getCachedData now2 "stockPrice"
              (Params (Some symbol) None (Some m) (Some g)) s3 = Some (None, s3)).
  { intros now2. eapply getCachedData_absent; [apply createCacheKey_stockPrice|].
    apply Hkeep; [|exact Hp1].
    intros Heq. symmetry in Heq. by apply history_key_is_no_price_key in Heq. }
  exists s3. split; [|split; [exact Hp3|]].
  - unfold getStockPrice, bind. rewrite Hp, Hf.
    rewrite Hobj3, lookup_insert_eq.
    destruct (filteredHistory h threshold) as [|e0 h0] eqn:Hfh; [done|].
    by rewrite Hthrow.
  - intros now2 later2 threshold2 get2 Hlive.
    unfold getStockPrice, bind. rewrite Hp3.
    unfold fetchStockPriceHistory, bind.
    rewrite (getCachedData_live s3 now2 _ _
               ("history:" +:+ symbol +:+ ":" +:+ Js.number_to_string m)%string
               (Wrapped (later + smartTtl m * 1000) lh));
      [|done|apply createCacheKey_stockHistory|exact Hh3|by apply not_after_is_live].
    unfold ret at 1. cbn [v]. rewrite Hobj3, lookup_insert_eq.
    destruct (filteredHistory h threshold) as [|e0 h0] eqn:Hfh; [done|].
    by rewrite Hthrow.
Qed.

Lemma getStockPrice_too_many_prices_witness :
  let get : nat -> attempt (option (list entry)) client_error :=
    fun _ => Resolved (Some [Entry 12 50 false; Entry 10 20 false; Entry 9 30 false]) in
  let s : state object := initial_state ∅ ∅ in
  exists s',
    @getStockPrice (AsciiEngine.engine_with 2) 0 100 10 get "AAPL" 5 "min" s
    = Some (Next (HttpError 500
                    "Failed to process stock data: Maximum call stack size exceeded"), s').
Proof.
  intros get s.
  destruct (@getStockPrice_too_many_prices (AsciiEngine.engine_with 2)
              s s s 0 100 10 get "AAPL" 5 "min" 0
              [Entry 12 50 false; Entry 10 20 false; Entry 9 30 false])
    as (s' & Hrun & _).
  - intros []; reflexivity.
  - lia.
  - by left.
  - vm_compute; reflexivity.
  - vm_compute; reflexivity.
  - vm_compute; reflexivity.
  - lia.
  - intros i Hi; lia.
  - reflexivity.
  - exists s'. exact Hrun.
Defined.

(** When the upstream answers with a history of which no entry is in the
    window, [getStockPrice] answers with the literal for "no data" and
    stores no result; but the empty history is stored.  Until its time to
    live has passed, the same request, for any aggregation, is answered "no
    data" from the stored empty history, without a change of the state,
    whatever the upstream would say. *)
Theorem getStockPrice_empty_history_is_cached `{E : Js.Engine} (s s1 s2 : state object)
    (now later : float) (threshold : Z)
    (get : nat -> attempt (option (list entry)) client_error)
    (symbol : string) (m : Z) (g : string) (k : nat) (h : list entry) :
  as_configured s -> 1 <= m <= 1440 ->
  getCachedData now "stockPrice" (Params (Some symbol) None (Some m) (Some g)) s
  = Some (None, s1) ->
  getCachedData now "stockHistory" (Params (Some symbol) None (Some m) None) s1
  = Some (None, s2) ->
  (k < 3)%nat -> (forall i, (i < k)%nat -> exists e, get i = Rejected e) ->
  get k = Resolved (Some h) ->
  (forall e, e ∈ h -> lastUpdatedAt e < threshold) ->
  exists s',
    getStockPrice now later threshold get symbol m g s = Some (JsonNoData, s')
    /\ (forall now2,
          getCachedData now2 "stockPrice" (Params (Some symbol) None (Some m) (Some g)) s'
          = Some (None, s'))
    /\ forall now2 later2 threshold2 get2,
         (later + smartTtl m * 1000 <? now2)%float = false ->
         getStockPrice now2 later2 threshold2 get2 symbol m g s' = Some (JsonNoData, s').
Proof.
  intros Hc Hm Hp Hh Hk Hrej Hres Hold.
  assert (Hfh : filteredHistory h threshold = []).
  { unfold filteredHistory.
    replace (List.filter (fun e => threshold <=? lastUpdatedAt e) h) with (@nil entry);
      [done|].
    clear Hres. induction h as [|e h IH]; [done|]. cbn [List.filter].
    rewrite (proj2 (Z.leb_gt threshold (lastUpdatedAt e))) by (apply Hold; left).
    apply IH. intros e' He'. apply Hold. by right. }
  destruct (getCachedData_miss_inv s s1 now _ _ _ Hc
              (createCacheKey_stockPrice s symbol None m g) Hp)
    as (Hc1 & Hobj1 & Hp1 & _).
  destruct (fetchStockPriceHistory_fresh s1 s2 now later threshold get symbol m k h
              Hc1 Hm Hh Hk Hrej Hres)
    as (lh & s3 & Hf & Hc3 & Hfresh & Hobj3 & Hh3 & Hkeep).
  rewrite Hfh in Hobj3.
  assert (Hp3 : forall now2,
            getCachedData now2 "stockPrice"
              (Params (Some symbol) None (Some m) (Some g)) s3 = Some (None, s3)).
  { intros now2. eapply getCachedData_absent; [apply createCacheKey_stockPrice|].
    apply Hkeep; [|exact Hp1].
    intros Heq. symmetry in Heq. by apply history_key_is_no_price_key in Heq. }
  exists s3. split; [|split; [done|]].
  - unfold getStockPrice, bind. rewrite Hp, Hf. by rewrite Hobj3, lookup_insert_eq.
  - intros now2 later2 threshold2 get2 Hlive.
    unfold getStockPrice, bind. rewrite Hp3.
    unfold fetchStockPriceHistory, bind.
    rewrite (getCachedData_live s3 now2 _ _
               ("history:" +:+ symbol +:+ ":" +:+ Js.number_to_string m)%string
               (Wrapped (later + smartTtl m * 1000) lh));
      [|done|apply createCacheKey_stockHistory|exact Hh3|by apply not_after_is_live].
    unfold ret. cbn [v]. by rewrite Hobj3, lookup_insert_eq.
Qed.

Lemma getStockPrice_empty_history_is_cached_witness :
  let get : nat -> attempt (option (list entry)) client_error :=
    fun i => match i with
             | O => Rejected WithRequest
             | _ => Resolved (Some [Entry 12 50 false; Entry 10 20 false])
             end in
  let s : state object := initial_state ∅ ∅ in
  exists s',
    @getStockPrice AsciiEngine.engine 0 100 60 get "AAPL" 5 "average" s
    = Some (JsonNoData, s')
    /\ getCachedData 200 "stockPrice"
         (Params (Some "AAPL"%string) None (Some 5) (Some "average"%string)) s'
       = Some (None, s').
Proof.
  intros get s.
  destruct (@getStockPrice_empty_history_is_cached AsciiEngine.engine s s s 0 100 60 get
              "AAPL" 5 "average" 1 [Entry 12 50 false; Entry 10 20 false])
    as (s' & Hrun & Hprice & _).
  - intros []; reflexivity.
  - lia.
  - vm_compute; reflexivity.
  - vm_compute; reflexivity.
  - lia.
  - intros i Hi. assert (i = 0%nat) as -> by lia. eexists; reflexivity.
  - reflexivity.
  - intros e He. apply Forall_forall with (x := e) (l := [Entry 12 50 false; Entry 10 20 false]);
      [repeat constructor|]; simpl; [lia..|exact He].
  - exists s'. split; [exact Hrun|apply Hprice].
Defined.

(** When the result and the history of a request are not in the cache
    and the upstream does not deliver a history, [getStockPrice] hands an
    error to [next] and stores nothing: the state is the one the two
    lookups left.  A response without a history array gives status 500
    with the message of the 502 that [fetchStockPriceHistory] throws and
    catches itself; three failed attempts give the error made from the
    last failure, 504 when no response came; the wrapping "Failed to
    process stock data" is not applied to an error that has a status. *)
Theorem getStockPrice_upstream_failure `{E : Js.Engine} (s s1 s2 : state object)
    (now later : float) (threshold : Z)
    (get : nat -> attempt (option (list entry)) client_error)
    (symbol : string) (m : Z) (g : string) :
  getCachedData now "stockPrice" (Params (Some symbol) None (Some m) (Some g)) s
  = Some (None, s1) ->
  getCachedData now "stockHistory" (Params (Some symbol) None (Some m) None) s1
  = Some (None, s2) ->
  (forall k, (k < 3)%nat -> (forall i, (i < k)%nat -> exists e, get i = Rejected e) ->
     get k = Resolved None ->
     getStockPrice now later threshold get symbol m g s
     = Some (Next (HttpError 500
                     "Error fetching stock data: Invalid response from stock API"), s2))
  /\ (forall e, (forall i, (i < 3)%nat -> exists e', get i = Rejected e') ->
        get 2%nat = Rejected e ->
        status (transform_error e) <> 0 ->
        getStockPrice now later threshold get symbol m g s
        = Some (Next (transform_error e), s2))
  /\ ((forall i, (i < 3)%nat -> exists e', get i = Rejected e') ->
      get 2%nat = Rejected WithRequest ->
      getStockPrice now later threshold get symbol m g s
      = Some (Next (HttpError 504 "Stock Exchange API timeout"), s2)).
Proof.
  intros Hp Hh.
  assert (Hthrew : forall e,
            (forall i, (i < 3)%nat -> exists e', get i = Rejected e') ->
            get 2%nat = Rejected e ->
            status (transform_error e) <> 0 ->
            getStockPrice now later threshold get symbol m g s
            = Some (Next (transform_error e), s2)).
  { intros e Hrej Hlast Hst.
    unfold getStockPrice, bind. rewrite Hp.
    unfold fetchStockPriceHistory, bind. rewrite Hh.
    unfold fetchWithRetry.
    rewrite (retry_loop_failure get 3 e 2 0 4 []); [|lia..| |done].
    2:{ intros i Hi. apply Hrej. lia. }
    cbn [fst]. unfold ret. by rewrite (proj2 (Z.eqb_neq _ 0) Hst). }
  split; [|split; [exact Hthrew|]].
  - intros k Hk Hrej Hres.
    unfold getStockPrice, bind. rewrite Hp.
    unfold fetchStockPriceHistory, bind. rewrite Hh.
    unfold fetchWithRetry.
    rewrite (retry_loop_success get 3 k None k 0 4 []); [|lia..| |done].
    2:{ intros i Hi. apply Hrej. lia. }
    reflexivity.
  - intros Hrej Hlast. by apply (Hthrew WithRequest).
Qed.

Lemma getStockPrice_upstream_failure_witness :
  let s : state object := initial_state ∅ ∅ in
  @getStockPrice AsciiEngine.engine 0 100 60 (fun _ => Rejected WithRequest)
    "AAPL" 5 "average" s
  = Some (Next (HttpError 504 "Stock Exchange API timeout"), s)
  /\ @getStockPrice AsciiEngine.engine 0 100 60 (fun _ => Resolved None)
       "AAPL" 5 "average" s
     = Some (Next (HttpError 500
                     "Error fetching stock data: Invalid response from stock API"), s).
Proof.
  intros s. split.
  - refine (proj2 (proj2 (@getStockPrice_upstream_failure AsciiEngine.engine
                            s s s 0 100 60
                            (fun _ => Rejected WithRequest) "AAPL" 5 "average" _ _)) _ _).
    + vm_compute; reflexivity.
    + vm_compute; reflexivity.
    + intros i Hi. eexists; reflexivity.
    + reflexivity.
  - refine (proj1 (@getStockPrice_upstream_failure AsciiEngine.engine s s s 0 100 60
                     (fun _ => Resolved None) "AAPL" 5 "average" _ _) 0%nat _ _ _).
    + vm_compute; reflexivity.
    + vm_compute; reflexivity.
    + lia.
    + intros i Hi; lia.
    + reflexivity.
Defined.

(** ** The correlation handler after validation *)

(** A correlation request that has passed the validator and finds no
    cached result is answered with the 400 error for equal stocks exactly
    when [toUpperCase()] gives the same string for its two tickers,
    whatever the engine's [toUpperCase] does: the validator has applied it
    to both, and sorting the array for the key keeps two equal tickers
    equal and two different ones different. *)
Theorem getStockCorrelation_same_stock_after_validation `{E : Js.Engine} {V}
    (s s1 : state V)
    (now : float) (l : loc) (req : correlation_request) (vp : correlation_params)
    (a b : string) :
  validateCorrelationParams req = inr vp ->
  query_ticker req = QArray [a; b] ->
  arrays s !! l = Some (cp_tickers vp) ->
  getCachedData now "correlation" (Params None (Some l) (Some (cp_minutes vp)) None) s
  = Some (None, s1) ->
  exists r,
    getStockCorrelation now l (cp_minutes vp) s = Some (r, s1)
    /\ (r = SameStock <-> Js.toUpperCase a = Js.toUpperCase b).
Proof.
  intros Hv Hq Hl Hmiss.
  assert (Hts : cp_tickers vp = [Js.toUpperCase a; Js.toUpperCase b]).
  { revert Hv. unfold validateCorrelationParams. rewrite Hq.
    cbn [map length Nat.eqb negb orb existsb].
    change (omap id [Some a; Some b]) with [a; b]. cbn [existsb map].
    destruct (String.eqb (Js.trim a) ""); [done|].
    destruct (String.eqb (Js.trim b) ""); [done|]. cbn [orb].
    destruct ((number_or (parsed_minutes_c req) 60 <=? 0)
              || (1440 <? number_or (parsed_minutes_c req) 60)); [done|].
    by intros [= <-]. }
  rewrite Hts in Hl.
  set (A := Js.toUpperCase a) in *. set (B := Js.toUpperCase b) in *.
  assert (Harr : arrays s1 !! l = Some (Js.default_sort id [A; B])).
  { revert Hmiss. unfold getCachedData, bind.
    rewrite (createCacheKey_correlation s l [A; B] _ _ _ Hl).
    intros Hg. rewrite (cache_get_arrays _ _ _ _ _ _ Hg). simpl.
    by rewrite lookup_insert_eq. }
  assert (Hperm : Js.default_sort id [A; B] ≡ₚ [A; B]) by apply sort_by_perm.
  symmetry in Hperm. apply Permutation_length_2_inv in Hperm.
  unfold getStockCorrelation, bind. rewrite Hmiss.
  unfold ticker_at, ret.
  destruct Hperm as [Hs | Hs]; rewrite Hs in Harr;
    rewrite Harr; cbn [lookup list_lookup]; rewrite Harr; cbn [lookup list_lookup].
  - case_bool_decide as Heq; eexists; (split; [done|]); split; try done.
    + by intros _; simplify_eq.
    + intros HAB. exfalso. apply Heq. by rewrite HAB.
  - case_bool_decide as Heq; eexists; (split; [done|]); split; try done.
    + by intros _; simplify_eq.
    + intros HAB. exfalso. apply Heq. by rewrite HAB.
Qed.

Lemma getStockCorrelation_same_stock_after_validation_witness :
  let req := CorrelationRequest (QArray ["aapl"; "AAPL"]%string) None in
  let s : state Z := initial_state {[ 1%nat := ["AAPL"; "AAPL"]%string ]} ∅ in
  fst <$> getStockCorrelation 0 1%nat 60 s = Some SameStock.
Proof.
  intros req s.
  destruct (@getStockCorrelation_same_stock_after_validation AsciiEngine.engine
              _ s s 0 1%nat req
              (CorrelationParams ["AAPL"; "AAPL"]%string 60) "aapl" "AAPL")
    as (r & Hrun & Hiff).
  - reflexivity.
  - reflexivity.
  - reflexivity.
  - vm_compute; reflexivity.
  - cbn [cp_minutes] in Hrun. rewrite Hrun. simpl.
    f_equal. apply Hiff. reflexivity.
Defined.

(** ** Statistics: what follows from IEEE 754 arithmetic *)

Lemma SFmul_comm prec emax (a b : spec_float) : SFmul prec emax a b = SFmul prec emax b a.
Proof.
  destruct a as [sa|sa| |sa ma ea], b as [sb|sb| |sb mb eb]; simpl; try reflexivity.
  all: try (rewrite (xorb_comm sa sb); reflexivity).
  rewrite (xorb_comm sa sb), (Pos.mul_comm ma mb), (Z.add_comm ea eb). reflexivity.
Qed.

Lemma float_mul_comm (x y : float) : (x * y = y * x)%float.
Proof.
  rewrite <- (FloatAxioms.SF2Prim_Prim2SF (x * y)), <- (FloatAxioms.SF2Prim_Prim2SF (y * x)).
  rewrite !FloatAxioms.mul_spec. unfold SF64mul. by rewrite SFmul_comm.
Qed.

Lemma fold_combine_swap {A B C} (f : C -> A * B -> C) (g : C -> B * A -> C) :
  (forall c a b, f c (a, b) = g c (b, a)) ->
  forall xs ys c, fold_left f (combine xs ys) c = fold_left g (combine ys xs) c.
Proof.
  intros Hfg xs. induction xs as [|x xs IH]; intros [|y ys] c; simpl; try done.
  by rewrite Hfg, IH.
Qed.

(** The covariance and the correlation do not depend on the order of
    their two arguments, to the last bit and on every input: the product
    of two binary64 numbers is commutative, and the terms are summed in the
    same order. *)
Theorem calculateCorrelation_symmetric (xs ys : list float) :
  calculateCovariance ys xs = calculateCovariance xs ys
  /\ calculateCorrelation ys xs = calculateCorrelation xs ys.
Proof.
  assert (Hcov : calculateCovariance ys xs = calculateCovariance xs ys).
  { unfold calculateCovariance.
    destruct (decide (length xs = length ys)) as [Heq|Hne].
    2:{ rewrite (proj2 (Nat.eqb_neq _ _) Hne).
        by rewrite (proj2 (Nat.eqb_neq (length ys) (length xs))). }
    rewrite Heq, Nat.eqb_refl. cbn [negb orb].
    destruct (length ys <=? 1)%nat; [done|]. cbv zeta.
    unfold Js.length_of. rewrite Heq. f_equal.
    apply fold_combine_swap. intros c a b. by rewrite float_mul_comm. }
  split; [exact Hcov|].
  unfold calculateCorrelation.
  destruct (decide (length xs = length ys)) as [Heq|Hne].
  2:{ rewrite (proj2 (Nat.eqb_neq _ _) Hne).
      by rewrite (proj2 (Nat.eqb_neq (length ys) (length xs))). }
  rewrite Heq, Nat.eqb_refl. cbn [negb orb].
  destruct (length ys <=? 1)%nat; [done|]. cbv zeta.
  rewrite (orb_comm (Js.is_zero (calculateStandardDeviation ys))).
  destruct (Js.is_zero (calculateStandardDeviation xs)
            || Js.is_zero (calculateStandardDeviation ys)); [done|].
  by rewrite Hcov, float_mul_comm.
Qed.

Lemma min2_cases (a b : float) :
  Js.min2 a b = a \/ Js.min2 a b = b \/ Js.min2 a b = PrimFloat.nan.
Proof. unfold Js.min2. repeat case_match; auto. Qed.

Lemma max2_cases (a b : float) :
  Js.max2 a b = a \/ Js.max2 a b = b \/ Js.max2 a b = PrimFloat.nan.
Proof. unfold Js.max2. repeat case_match; auto. Qed.

Lemma fold_pick_cases (f : float -> float -> float) :
  (forall a b, f a b = a \/ f a b = b \/ f a b = PrimFloat.nan) ->
  forall xs acc,
    fold_left f xs acc = acc \/ fold_left f xs acc ∈ xs
    \/ fold_left f xs acc = PrimFloat.nan.
Proof.
  intros Hf xs. induction xs as [|x xs IH]; intros acc; simpl; [by left|].
  destruct (IH (f acc x)) as [-> | [Hin | Hnan]].
  - destruct (Hf acc x) as [-> | [-> | ->]]; [by left| |by right; right].
    right; left. by left.
  - right; left. by right.
  - by right; right.
Qed.

(** Nothing is above [Infinity], nothing below [-Infinity]. *)
Lemma min2_infinity (x : float) :
  Js.min2 PrimFloat.infinity x = x \/ Js.min2 PrimFloat.infinity x = PrimFloat.nan.
Proof.
  unfold Js.min2. change (PrimFloat.is_nan infinity) with false. cbn [orb].
  destruct (PrimFloat.is_nan x); [by right|].
  assert (Hinf : (infinity <? x)%float = false).
  { rewrite FloatAxioms.ltb_spec. unfold SFltb.
    change (Prim2SF infinity) with (S754_infinity false).
    destruct (Prim2SF x) as [| [] | | [] ? ?]; reflexivity. }
  rewrite Hinf. change (Js.is_neg_zero infinity) with false.
  destruct (x <? infinity)%float; by left.
Qed.

Lemma max2_neg_infinity (x : float) :
  Js.max2 PrimFloat.neg_infinity x = x
  \/ Js.max2 PrimFloat.neg_infinity x = PrimFloat.nan.
Proof.
  unfold Js.max2. change (PrimFloat.is_nan neg_infinity) with false. cbn [orb].
  destruct (PrimFloat.is_nan x) eqn:Hnan; [by right|].
  destruct (neg_infinity <? x)%float eqn:Hlt; [by left|].
  assert (Hx : x = neg_infinity).
  { rewrite FloatAxioms.ltb_spec in Hlt. unfold SFltb in Hlt.
    change (Prim2SF neg_infinity) with (S754_infinity true) in Hlt.
    rewrite <- (FloatAxioms.SF2Prim_Prim2SF x).
    destruct (Prim2SF x) as [| [] | | [] ? ?] eqn:Hsf; try discriminate Hlt.
    - reflexivity.
    - exfalso. rewrite <- (FloatAxioms.SF2Prim_Prim2SF x), Hsf in Hnan.
      vm_compute in Hnan. discriminate. }
  subst x. left. reflexivity.
Qed.

(** The [min] and the [max] aggregation of a non-empty array that is
    no longer than one call can pass as arguments are taken from the data:
    each is one of the numbers, or [NaN]; the starting values [Infinity]
    and [-Infinity] of [Math.min] and [Math.max] never come out unless they
    are in the data.  Over a longer array both throw a RangeError. *)
Theorem calculateAggregation_min_max_from_data `{E : Js.Engine} (xs : list float) :
  xs <> [] ->
  ((N.of_nat (length xs) <= Js.max_arguments)%N ->
   exists lo hi,
     calculateAggregation xs (Some "min"%string) = Js.Normal (Some lo)
     /\ calculateAggregation xs (Some "max"%string) = Js.Normal (Some hi)
     /\ (lo ∈ xs \/ lo = PrimFloat.nan)
     /\ (hi ∈ xs \/ hi = PrimFloat.nan))
  /\ ((Js.max_arguments < N.of_nat (length xs))%N ->
      calculateAggregation xs (Some "min"%string) = Js.ThrowRangeError
      /\ calculateAggregation xs (Some "max"%string) = Js.ThrowRangeError).
Proof.
  intros Hne. destruct xs as [|x xs]; [done|].
  unfold calculateAggregation. cbn [default from_option id Js.toLowerCase String.eqb].
  change (Js.toLowerCase "min") with "min"%string.
  change (Js.toLowerCase "max") with "max"%string.
  cbn [String.eqb Ascii.eqb Bool.eqb andb]. unfold Js.spread.
  split.
  - intros Hlen. rewrite (proj2 (N.ltb_ge _ _) Hlen). cbn [Js.map_completion].
    exists (Js.math_min (x :: xs)), (Js.math_max (x :: xs)).
    split; [reflexivity|]. split; [reflexivity|].
    unfold Js.math_min, Js.math_max. cbn [fold_left]. split.
    + destruct (fold_pick_cases Js.min2 min2_cases xs (Js.min2 infinity x))
        as [-> | [Hin | ->]]; [|left; by right|by right].
      destruct (min2_infinity x) as [-> | ->]; [left; by left|by right].
    + destruct (fold_pick_cases Js.max2 max2_cases xs (Js.max2 neg_infinity x))
        as [-> | [Hin | ->]]; [|left; by right|by right].
      destruct (max2_neg_infinity x) as [-> | ->]; [left; by left|by right].
  - intros Hlen. by rewrite (proj2 (N.ltb_lt _ _) Hlen).
Qed.

Lemma calculateAggregation_min_max_from_data_witness :
  exists lo hi,
    @calculateAggregation AsciiEngine.engine [3; 1; 2]%float (Some "min"%string)
    = Js.Normal (Some lo)
    /\ @calculateAggregation AsciiEngine.engine [3; 1; 2]%float (Some "max"%string)
       = Js.Normal (Some hi)
    /\ (lo ∈ [3; 1; 2]%float \/ lo = PrimFloat.nan)
    /\ (hi ∈ [3; 1; 2]%float \/ hi = PrimFloat.nan).
Proof.
  apply (@calculateAggregation_min_max_from_data AsciiEngine.engine [3; 1; 2]%float).
  - discriminate.
  - vm_compute. discriminate.
Defined.

(** ** Cache keys: which requests share an entry *)

Lemma string_app_assoc (a b c : string) : ((a +:+ b) +:+ c = a +:+ (b +:+ c))%string.
Proof.
  induction a as [|x a IH]; [done|].
  change (String x a +:+ b)%string with (String x (a +:+ b)).
  change (String x (a +:+ b) +:+ c)%string with (String x ((a +:+ b) +:+ c)).
  change (String x a +:+ (b +:+ c))%string with (String x (a +:+ (b +:+ c))).
  by rewrite IH.
Qed.

(** Two strings that end in a colon and a part without colon are equal
    only if the parts before and after that colon are. *)
Lemma split_at_last_colon (u v x y : string) :
  includes x ":" = false -> includes y ":" = false ->
  (u +:+ ":" +:+ x = v +:+ ":" +:+ y)%string -> u = v /\ x = y.
Proof.
  intros Hx Hy. revert v. induction u as [|c u IH]; intros [|d v] H.
  - change (String ":" x = String ":" y) in H. by injection H.
  - exfalso.
    change (String ":" x = String d (v +:+ ":" +:+ y)) in H.
    injection H as _ H. rewrite H in Hx.
    by rewrite (includes_app v ":" y) in Hx.
  - exfalso.
    change (String c (u +:+ ":" +:+ x) = String ":" y) in H.
    injection H as _ H. rewrite <- H in Hy.
    by rewrite (includes_app u ":" x) in Hy.
  - change (String c (u +:+ ":" +:+ x) = String d (v +:+ ":" +:+ y)) in H.
    injection H as -> H. destruct (IH v H) as [-> ->]. done.
Qed.

Lemma pretty_N_go_no_colon (x : N) (s : string) :
  includes s ":" = false -> includes (pretty_N_go x s) ":" = false.
Proof.
  revert s. induction (N.lt_wf_0 x) as [x _ IH]. intros s Hs.
  destruct (decide (0 < x)%N) as [Hpos|Hz].
  - rewrite pretty_N_go_step by done. apply IH.
    + apply N.div_lt; lia.
    + cbn [includes starts_with]. rewrite Hs, orb_false_r, andb_true_r.
      unfold pretty_N_char. by repeat case_match.
  - assert (x = 0%N) as -> by lia. by rewrite pretty_N_go_0.
Qed.

Lemma number_to_string_no_colon (z : Z) : includes (Js.number_to_string z) ":" = false.
Proof.
  unfold Js.number_to_string, pretty, pretty_Z.
  assert (Hpos : forall p : positive, includes (pretty p) ":" = false).
  { intros p. unfold pretty, pretty_positive, pretty, pretty_N.
    rewrite decide_False by done. by apply pretty_N_go_no_colon. }
  destruct z as [|p|p]; [done|apply Hpos|].
  change ("-" +:+ pretty p)%string with (String "-" (pretty p)).
  cbn [includes starts_with]. by rewrite Hpos.
Qed.

(** The keys of stock requests tell the requests apart.  Two history
    requests have one key only if ticker and window are the same, for all
    tickers; two stock price requests that the validator has accepted have
    one key only if ticker, window and aggregation are the same, although
    the ticker may itself hold colons. *)
Theorem stock_cache_keys_are_injective `{E : Js.Engine} {V} (s : state V) :
  (forall t1 t2 m1 m2,
     fst <$> createCacheKey "stockHistory" (Params (Some t1) None (Some m1) None) s
     = fst <$> createCacheKey "stockHistory" (Params (Some t2) None (Some m2) None) s ->
     t1 = t2 /\ m1 = m2)
  /\ (forall r1 r2 vp1 vp2,
        validateStockParams r1 = inr vp1 ->
        validateStockParams r2 = inr vp2 ->
        fst <$> createCacheKey "stockPrice"
                  (Params (Some (sp_ticker vp1)) None (Some (sp_minutes vp1))
                          (Some (sp_aggregation vp1))) s
        = fst <$> createCacheKey "stockPrice"
                    (Params (Some (sp_ticker vp2)) None (Some (sp_minutes vp2))
                            (Some (sp_aggregation vp2))) s ->
        vp1 = vp2).
Proof.
  assert (Hhist : forall t1 t2 m1 m2,
            (t1 +:+ ":" +:+ Js.number_to_string m1
             = t2 +:+ ":" +:+ Js.number_to_string m2)%string ->
            t1 = t2 /\ m1 = m2).
  { intros t1 t2 m1 m2 H.
    apply split_at_last_colon in H as [-> Hm]; try apply number_to_string_no_colon.
    split; [done|]. by apply (inj (pretty (A := Z))). }
  split.
  - intros t1 t2 m1 m2. rewrite !createCacheKey_stockHistory. cbn [fmap option_fmap option_map fst].
    intros [= H]. by apply Hhist.
  - intros r1 r2 vp1 vp2 Hv1 Hv2.
    assert (Hagg : forall r vp, validateStockParams r = inr vp ->
              includes (sp_aggregation vp) ":" = false).
    { intros r vp. unfold validateStockParams.
      destruct (param_ticker r) as [t|]; [|done].
      destruct (String.eqb t "" || String.eqb (Js.trim t) ""); [done|].
      destruct ((number_or (parsed_minutes r) 5 <=? 0)
                || (1440 <? number_or (parsed_minutes r) 5)); [done|].
      destruct (array_includes validAggregations
                  (string_or (query_aggregation r) "average")) eqn:Hinc; [|done].
      intros [= <-]. cbn [sp_aggregation].
      unfold array_includes in Hinc. apply existsb_exists in Hinc as (x & Hx & Heq).
      apply String.eqb_eq in Heq. rewrite Heq.
      simpl in Hx. by destruct Hx as [<-|[<-|[<-|[<-|[]]]]]. }
    rewrite !createCacheKey_stockPrice. cbn [fmap option_fmap option_map fst].
    intros [= H].
    rewrite <- !(string_app_assoc _ ":" (Js.number_to_string _ +:+ _)) in H.
    rewrite <- !(string_app_assoc _ (Js.number_to_string _) (":" +:+ _)) in H.
    apply split_at_last_colon in H as [H Hg]; [|by eapply Hagg..].
    rewrite !string_app_assoc in H. apply Hhist in H as [Ht Hm].
    destruct vp1, vp2; simpl in *; congruence.
Qed.

Lemma default_sort_pair (x y : string) :
  Js.string_le x y = true -> Js.default_sort id [x; y] = [x; y].
Proof. intros H. unfold Js.default_sort, Js.sort_by. simpl. unfold id. by rewrite H. Qed.

Lemma string_app_length (a b : string) :
  String.length (a +:+ b) = (String.length a + String.length b)%nat.
Proof.
  induction a as [|c a IH]; [done|].
  change (String c a +:+ b)%string with (String c (a +:+ b)). simpl. by rewrite IH.
Qed.

(** The key of a correlation request joins the tickers with [_], which
    a ticker may hold itself: the pairs [a_b, c] and [a, b_c] (each in
    sorted order) have one key, so that a result stored for one is the
    cache entry of the other, although [a] is no ticker of the first pair
    when it differs from [c]. *)
Theorem correlation_cache_key_collision {V} (s : state V) (l : loc)
    (a b c : string) (m : Z) :
  Js.string_le (a +:+ "_" +:+ b) c = true ->
  Js.string_le a (b +:+ "_" +:+ c) = true ->
  a <> c ->
  let p := Params None (Some l) (Some m) None in
  let pair1 := [(a +:+ "_" +:+ b)%string; c] in
  let pair2 := [a; (b +:+ "_" +:+ c)%string] in
  fst <$> createCacheKey "correlation" p (write_array l pair1 s)
  = fst <$> createCacheKey "correlation" p (write_array l pair2 s)
  /\ a ∈ pair2 /\ a ∉ pair1.
Proof.
  intros H1 H2 Hac p pair1 pair2. split; [|split].
  - unfold p, pair1, pair2.
    rewrite (createCacheKey_correlation _ l [(a +:+ "_" +:+ b)%string; c])
      by (simpl; apply lookup_insert_eq).
    rewrite (createCacheKey_correlation _ l [a; (b +:+ "_" +:+ c)%string])
      by (simpl; apply lookup_insert_eq).
    rewrite !default_sort_pair by done.
    cbn [fmap option_fmap option_map fst]. do 2 f_equal.
    unfold Js.join. cbn [String.concat].
    f_equal. rewrite (string_app_assoc a ("_" +:+ b) ("_" +:+ c)). reflexivity.
  - by left.
  - intros [Ha|Ha%list_elem_of_singleton]%elem_of_cons; [|done].
    apply (f_equal String.length) in Ha.
    rewrite string_app_length in Ha.
    change (String.length ("_" +:+ b)) with (S (String.length b)) in Ha. lia.
Qed.

Lemma correlation_cache_key_collision_witness :
  let s : state Z := initial_state ∅ ∅ in
  let p := Params None (Some 1%nat) (Some 60) None in
  fst <$> createCacheKey "correlation" p (write_array 1%nat ["A_B"; "C"]%string s)
  = fst <$> createCacheKey "correlation" p (write_array 1%nat ["A"; "B_C"]%string s).
Proof.
  intros s p.
  apply (correlation_cache_key_collision s 1%nat "A" "B" "C" 60);
    [reflexivity|reflexivity|discriminate].
Defined.
